(** * Delta-sync core of quorum-shared: payload cache, diff, chunking, deltas

    A shallow embedding of the sync utilities ([src/sync/utils.ts]) and of
    the class [SyncService] ([src/sync/service.ts]), with the types they use,
    together with the properties of the sync specification that concern
    them.

    Conventions of the embedding.
    - A JavaScript [number] holding a timestamp, a count or a length is a [Z].
      The only non-integer the sync code manipulates is [Infinity], the start
      value of the "oldest" scan; it is the constructor [Infinity] of [number].
    - A [Uint8Array] is a [list Z]; stores into it are reduced modulo 256.
    - A JavaScript string is a [string]; its characters are the bytes of its
      UTF-8 encoding, so that [TextEncoder.encode] is the list of its bytes.
    - A JavaScript [Map] is an insertion-ordered association list ([JsMap]),
      because the code iterates over its maps and the iteration order reaches
      the produced payloads. The two maps of the service that are only ever
      accessed by key ([sessions], [payloadCache]) are [gmap]s.
    - An optional field is an [option].
    - An [async] method that talks to storage is a computation in the monad
      [M], which threads the service and reports a rejected storage promise. *)

From stdpp Require Import gmap strings list.
From Stdlib Require Import ZArith String Ascii List Lia Permutation.
From Stdlib Require Import Sorted.
From Stdlib Require DecimalString HexadecimalString.
Import ListNotations.

Local Open Scope string_scope.
Local Open Scope list_scope.
Local Open Scope Z_scope.

(** ** JavaScript values *)

(** [if (s)] on an optional string: [undefined] and the empty string are falsy. *)
Definition truthy (o : option string) : bool :=
  match o with
  | Some s => negb (String.eqb s "")
  | None => false
  end.

(** [o || d] on an optional string. *)
Definition or_string (o : option string) (d : string) : string :=
  match o with
  | Some s => if String.eqb s "" then d else s
  | None => d
  end.

(** [o || d] on an optional number: [undefined] and [0] are falsy. *)
Definition or_number (o : option Z) (d : Z) : Z :=
  match o with
  | Some z => if z =? 0 then d else z
  | None => d
  end.

(** A template literal applied to an optional string: [undefined] is printed
    by name. *)
Definition interpolate (o : option string) : string :=
  match o with
  | Some s => s
  | None => "undefined"
  end.

(** [String(n)] for an integer below 10^21 in magnitude, which the language
    prints with all its digits; the sync code prints timestamps and counts. *)
Definition numberToString (n : Z) : string :=
  DecimalString.NilZero.string_of_int (Z.to_int n).

(** [n.toString(16)] for an integer. *)
Definition toString16 (n : Z) : string :=
  HexadecimalString.NilZero.string_of_int (Z.to_hex_int n).

(** [s.padStart(n, c)] for a one-character pad. *)
Definition padStart (n : nat) (c : ascii) (s : string) : string :=
  string_of_list_ascii (repeat c (n - String.length s)%nat) +:+ s.

(** [arr.join(sep)]. *)
Definition join (sep : string) (l : list string) : string := String.concat sep l.

Definition newline : string := String (ascii_of_nat 10) EmptyString.

(** [arr.sort(cmp)]: the sort of the language is stable; [cmp a b] is the
    number the comparator returns. *)
Section Sort.
Context {A : Type} (cmp : A -> A -> Z).

Fixpoint sortInsert (x : A) (l : list A) : list A :=
  match l with
  | [] => [x]
  | y :: l' => if cmp x y <=? 0 then x :: l else y :: sortInsert x l'
  end.

Fixpoint sortBy (l : list A) : list A :=
  match l with
  | [] => []
  | x :: l' => sortInsert x (sortBy l')
  end.
End Sort.

(** [arr.sort()] on strings: the default comparator orders by UTF-16 code
    unit; the bytes of the UTF-8 encoding order the same way, but for
    characters outside the basic plane. *)
Definition defaultCompare (a b : string) : Z :=
  match String.compare a b with
  | Lt => -1
  | Eq => 0
  | Gt => 1
  end.

(** ** Insertion-ordered maps ([Map]) *)

Module JsMap.
Section JsMap.
Context {K V : Type} `{EqDecision K}.

(** [m.get(k)] *)
Fixpoint get (m : list (K * V)) (k : K) : option V :=
  match m with
  | [] => None
  | (k', v) :: m' => if decide (k' = k) then Some v else get m' k
  end.

(** [m.has(k)] *)
Definition has (m : list (K * V)) (k : K) : bool :=
  match get m k with
  | Some _ => true
  | None => false
  end.

(** [m.set(k, v)]: an existing key keeps its place, a new key goes last. *)
Fixpoint set (m : list (K * V)) (k : K) (v : V) : list (K * V) :=
  match m with
  | [] => [(k, v)]
  | (k', v') :: m' =>
      if decide (k' = k) then (k, v) :: m' else (k', v') :: set m' k v
  end.

(** [m.delete(k)] *)
Definition delete (m : list (K * V)) (k : K) : list (K * V) :=
  List.filter (fun e => negb (bool_decide (fst e = k))) m.

(** [new Map(entries)] *)
Definition fromEntries (entries : list (K * V)) : list (K * V) :=
  fold_left (fun m e => set m (fst e) (snd e)) entries [].

Definition keys (m : list (K * V)) : list K := map fst m.
Definition values (m : list (K * V)) : list V := map snd m.
Definition size (m : list (K * V)) : Z := Z.of_nat (length m).
End JsMap.
End JsMap.

Abbreviation JsMap K V := (list (K * V)) (only parsing).

(** ** Types ([src/types/message.ts], [src/types/user.ts]) *)

(** [string | string[]] *)
Inductive Text :=
| TextString (s : string)
| TextArray (l : list string).

Inductive MuteAction := ActMute | ActUnmute.
Inductive PinAction := ActPin | ActUnpin.

Definition muteActionName (a : MuteAction) : string :=
  match a with ActMute => "mute" | ActUnmute => "unmute" end.
Definition pinActionName (a : PinAction) : string :=
  match a with ActPin => "pin" | ActUnpin => "unpin" end.

(** [MessageContent], one constructor per member of the union, with the
    fields the sync code reads. [OtherContent] is what the union's type
    excludes but a received object can be: a content whose [type] tag is none
    of the fifteen. *)
Inductive MessageContent :=
| PostMessage (senderId : string) (text : Text) (repliesToMessageId : option string)
| EventMessage (senderId : string) (text : string)
| EmbedMessage (senderId : string) (imageUrl videoUrl : option string)
    (repliesToMessageId : option string)
| ReactionMessage (senderId : string) (reaction messageId : string)
| RemoveReactionMessage (senderId : string) (reaction messageId : string)
| RemoveMessage (senderId : string) (removeMessageId : string)
| JoinMessage (senderId : string)
| LeaveMessage (senderId : string)
| KickMessage (senderId : string)
| MuteMessage (senderId : string) (targetUserId muteId : string) (action : MuteAction)
| UpdateProfileMessage (senderId : string) (displayName userIcon : string)
| StickerMessage (senderId : string) (stickerId : string)
    (repliesToMessageId : option string)
| PinMessage (senderId : string) (targetMessageId : string) (action : PinAction)
| DeleteConversationMessage (senderId : string)
| EditMessage (senderId : string) (originalMessageId : string) (editedText : Text)
    (editedAt : Z)
| OtherContent (senderId : string) (type : string).

(** [content.senderId] *)
Definition senderId (c : MessageContent) : string :=
  match c with
  | PostMessage s _ _ | EventMessage s _ | EmbedMessage s _ _ _
  | ReactionMessage s _ _ | RemoveReactionMessage s _ _ | RemoveMessage s _
  | JoinMessage s | LeaveMessage s | KickMessage s | MuteMessage s _ _ _
  | UpdateProfileMessage s _ _ | StickerMessage s _ _ | PinMessage s _ _
  | DeleteConversationMessage s | EditMessage s _ _ _ | OtherContent s _ => s
  end.

(** [content.type] *)
Definition contentType (c : MessageContent) : string :=
  match c with
  | PostMessage _ _ _ => "post"
  | EventMessage _ _ => "event"
  | EmbedMessage _ _ _ _ => "embed"
  | ReactionMessage _ _ _ => "reaction"
  | RemoveReactionMessage _ _ _ => "remove-reaction"
  | RemoveMessage _ _ => "remove-message"
  | JoinMessage _ => "join"
  | LeaveMessage _ => "leave"
  | KickMessage _ => "kick"
  | MuteMessage _ _ _ _ => "mute"
  | UpdateProfileMessage _ _ _ => "update-profile"
  | StickerMessage _ _ _ => "sticker"
  | PinMessage _ _ _ => "pin"
  | DeleteConversationMessage _ => "delete-conversation"
  | EditMessage _ _ _ _ => "edit-message"
  | OtherContent _ t => t
  end.

(** The type tags the [switch] of [computeContentHash] has a case for. *)
Definition knownContentTypes : list string :=
  [ "post"; "embed"; "sticker"; "edit-message"; "remove-message"; "join";
    "leave"; "kick"; "event"; "update-profile"; "mute"; "pin"; "reaction";
    "remove-reaction"; "delete-conversation" ].

Record Reaction := mkReaction {
  r_emojiId : string;
  r_spaceId : string;
  r_emojiName : string;
  r_count : Z;
  r_memberIds : list string;
}.

(** [Message]. The fields the sync code never reads ([mentions],
    [replyMetadata], signatures, pin state, edit history, send status) enter
    it only through the length of the serialised message, see [jsonLength]. *)
Record Message := mkMessage {
  m_channelId : string;
  m_spaceId : string;
  m_messageId : string;
  m_digestAlgorithm : string;
  m_nonce : string;
  m_createdDate : Z;
  m_modifiedDate : Z;
  m_lastModifiedHash : string;
  m_content : MessageContent;
  m_reactions : option (list Reaction);
}.

(** [SpaceMember = UserProfile & { inbox_address; isKicked? }] *)
Record SpaceMember := mkSpaceMember {
  sm_address : string;
  sm_inbox_address : option string;
  sm_display_name : option string;
  sm_profile_image : option string;
}.

(** ** Sync protocol types ([src/sync/types.ts]) *)

Record MessageDigest := mkMessageDigest {
  md_messageId : string;
  md_createdDate : Z;
  md_contentHash : string;
  md_modifiedDate : option Z;
}.

Record ReactionDigest := mkReactionDigest {
  rd_messageId : string;
  rd_emojiId : string;
  rd_count : Z;
  rd_membersHash : string;
}.

(** The "oldest" scan starts from [Infinity]; every other number is an
    integer. *)
Inductive number :=
| Num (z : Z)
| Infinity.

(** [a < b] for an integer [a] and a number [b]. *)
Definition ltNumber (a : Z) (b : number) : bool :=
  match b with
  | Num z => a <? z
  | Infinity => true
  end.

(** [a === b] for an integer [a] and a number [b]. *)
Definition eqNumber (a : Z) (b : number) : bool :=
  match b with
  | Num z => a =? z
  | Infinity => false
  end.

Record SyncManifest := mkSyncManifest {
  sman_spaceId : string;
  sman_channelId : string;
  sman_messageCount : Z;
  sman_oldestTimestamp : number;
  sman_newestTimestamp : Z;
  sman_digests : list MessageDigest;
  sman_reactionDigests : list ReactionDigest;
}.

Record MessageDelta := mkMessageDelta {
  mdl_spaceId : string;
  mdl_channelId : string;
  mdl_newMessages : list Message;
  mdl_updatedMessages : list Message;
  mdl_deletedMessageIds : list string;
}.

(** An entry of [ReactionDelta.added] and [ReactionDelta.removed]. *)
Record ReactionChange := mkReactionChange {
  rc_messageId : string;
  rc_emojiId : string;
  rc_memberIds : list string;
}.

Record ReactionDelta := mkReactionDelta {
  rdl_spaceId : string;
  rdl_channelId : string;
  rdl_added : list ReactionChange;
  rdl_removed : list ReactionChange;
}.

Record MemberDigest := mkMemberDigest {
  mbd_address : string;
  mbd_inboxAddress : string;
  mbd_displayNameHash : string;
  mbd_iconHash : string;
}.

Record MemberDelta := mkMemberDelta {
  mbl_spaceId : string;
  mbl_members : list SpaceMember;
  mbl_removedAddresses : list string;
}.

Record PeerEntry := mkPeerEntry {
  pe_peerId : Z;
  pe_publicKey : string;
  pe_identityPublicKey : option string;
  pe_signedPrePublicKey : option string;
}.

Record PeerMapDelta := mkPeerMapDelta {
  pml_spaceId : string;
  pml_added : list PeerEntry;
  pml_updated : list PeerEntry;
  pml_removed : list Z;
}.

Record DeletedMessageTombstone := mkTombstone {
  ts_messageId : string;
  ts_spaceId : string;
  ts_channelId : string;
  ts_deletedAt : Z;
}.

Record SyncSummary := mkSyncSummary {
  sum_memberCount : Z;
  sum_messageCount : Z;
  sum_newestMessageTimestamp : Z;
  sum_oldestMessageTimestamp : number;
  sum_manifestHash : option string;
}.

Record SyncRequestPayload := mkSyncRequestPayload {
  srq_inboxAddress : string;
  srq_expiry : Z;
  srq_summary : SyncSummary;
}.

(** [SyncDeltaPayload]; its [type] is the constant ['sync-delta']. *)
Record SyncDeltaPayload := mkSyncDeltaPayload {
  messageDelta : option MessageDelta;
  reactionDelta : option ReactionDelta;
  memberDelta : option MemberDelta;
  peerMapDelta : option PeerMapDelta;
  isFinal : option bool;
}.

Record SyncCandidate := mkSyncCandidate {
  cand_inboxAddress : string;
  cand_summary : SyncSummary;
}.

(** [SyncSession]; the timer handle [timeout] is left out, and with it the
    timers [scheduleSyncInitiation] starts and the clean-up clears. *)
Record SyncSession := mkSyncSession {
  ss_spaceId : string;
  ss_channelId : string;
  ss_expiry : Z;
  ss_candidates : list SyncCandidate;
  ss_inProgress : bool;
  ss_syncTarget : option string;
}.

(** ** Small array helpers *)

(** [arr.push(x)] *)
Definition push {A : Type} (arr : list A) (x : A) : list A := arr ++ [x].

(** [arr.push(...xs)] *)
Definition pushAll {A : Type} (arr xs : list A) : list A := arr ++ xs.

(** [arr.filter((x) => x !== undefined)] on the results of lookups. *)
Fixpoint filterDefined {A : Type} (l : list (option A)) : list A :=
  match l with
  | [] => []
  | Some x :: l' => x :: filterDefined l'
  | None :: l' => filterDefined l'
  end.

(** [arr.includes(s)] on strings. *)
Definition includes (arr : list string) (s : string) : bool :=
  existsb (String.eqb s) arr.

(** [new Set(ids).has(id)] on numbers. *)
Definition setHas (ids : list Z) (id : Z) : bool := existsb (Z.eqb id) ids.

(** [[...new Set(arr)]]: the first occurrence of every element, in order. *)
Definition uniqueStrings (arr : list string) : list string :=
  fold_left (fun seen s => if includes seen s then seen else push seen s) arr [].

(** [arr.length > 0] *)
Definition nonEmpty {A : Type} (arr : list A) : bool :=
  match arr with
  | [] => false
  | _ :: _ => true
  end.

(** ** Sync utilities ([src/sync/utils.ts]) *)

(** Maximum chunk size for message transmission (5MB) *)
Definition MAX_CHUNK_SIZE : Z := 5 * 1024 * 1024.

(** Default sync request expiry (30 seconds) *)
Definition DEFAULT_SYNC_EXPIRY_MS : Z := 30000.

Record MessageDiffResult := mkMessageDiffResult {
  missingIds : list string;
  outdatedIds : list string;
  extraIds : list string;
}.

Record MemberDiffResult := mkMemberDiffResult {
  missingAddresses : list string;
  outdatedAddresses : list string;
  extraAddresses : list string;
}.

Record PeerDiffResult := mkPeerDiffResult {
  missingPeerIds : list Z;
  extraPeerIds : list Z;
}.

(** [new TextEncoder().encode(s)] *)
Definition textEncode (s : string) : list Z :=
  map (fun c => Z.of_N (N_of_ascii c)) (list_ascii_of_string s).

(** [bytesToHex] of [src/utils/encoding.ts] *)
Definition bytesToHex (bytes : list Z) : string :=
  join "" (map (fun b => padStart 2 "0"%char (toString16 b)) bytes).

(** The walk of [computeMessageDiff] over their digests: the body of its
    first [for] loop, on the pair of arrays it pushes to. *)
Definition diffStep (ourDigests : JsMap string MessageDigest)
    (acc : list string * list string) (entry : string * MessageDigest)
    : list string * list string :=
  let '(missing, outdated) := acc in
  let '(id, theirDigest) := entry in
  match JsMap.get ourDigests id with
  | None => (push missing id, outdated)
  | Some ourDigest =>
      if negb (String.eqb (md_contentHash ourDigest) (md_contentHash theirDigest)) then
        let theirModified := or_number (md_modifiedDate theirDigest) (md_createdDate theirDigest) in
        let ourModified := or_number (md_modifiedDate ourDigest) (md_createdDate ourDigest) in
        if theirModified >? ourModified then (missing, push outdated id)
        else (missing, outdated)
      else (missing, outdated)
  end.

(** Compare manifests and determine what messages differ *)
Definition computeMessageDiff (ourManifest theirManifest : SyncManifest)
    : MessageDiffResult :=
  let ourDigests :=
    JsMap.fromEntries (map (fun d => (md_messageId d, d)) (sman_digests ourManifest)) in
  let theirDigests :=
    JsMap.fromEntries (map (fun d => (md_messageId d, d)) (sman_digests theirManifest)) in
  let '(missing, outdated) := fold_left (diffStep ourDigests) theirDigests ([], []) in
  let extra :=
    fold_left
      (fun extra (entry : string * MessageDigest) =>
         if negb (JsMap.has theirDigests (fst entry)) then push extra (fst entry)
         else extra)
      ourDigests [] in
  {| missingIds := missing; outdatedIds := outdated; extraIds := extra |}.

(** Compare member digests and determine differences *)
Definition computeMemberDiff (ourDigests theirDigests : list MemberDigest)
    : MemberDiffResult :=
  let ourMap := JsMap.fromEntries (map (fun d => (mbd_address d, d)) ourDigests) in
  let theirMap := JsMap.fromEntries (map (fun d => (mbd_address d, d)) theirDigests) in
  let '(missing, outdated) :=
    fold_left
      (fun (acc : list string * list string) (entry : string * MemberDigest) =>
         let '(missing, outdated) := acc in
         let '(address, theirDigest) := entry in
         match JsMap.get ourMap address with
         | None => (push missing address, outdated)
         | Some ourDigest =>
             if negb (String.eqb (mbd_displayNameHash ourDigest) (mbd_displayNameHash theirDigest))
                || negb (String.eqb (mbd_iconHash ourDigest) (mbd_iconHash theirDigest))
             then (missing, push outdated address)
             else (missing, outdated)
         end)
      theirMap ([], []) in
  let extra :=
    fold_left
      (fun extra (entry : string * MemberDigest) =>
         if negb (JsMap.has theirMap (fst entry)) then push extra (fst entry)
         else extra)
      ourMap [] in
  {| missingAddresses := missing; outdatedAddresses := outdated;
     extraAddresses := extra |}.

(** Compare peer ID sets *)
Definition computePeerDiff (ourPeerIds theirPeerIds : list Z) : PeerDiffResult :=
  {| missingPeerIds := List.filter (fun id => negb (setHas ourPeerIds id)) theirPeerIds;
     extraPeerIds := List.filter (fun id => negb (setHas theirPeerIds id)) ourPeerIds |}.

(** Build message delta from diff result and message lookup *)
Definition buildMessageDelta (spaceId channelId : string) (diff : MessageDiffResult)
    (messageMap : JsMap string Message) (tombstones : list DeletedMessageTombstone)
    : MessageDelta :=
  let newMessages := filterDefined (map (JsMap.get messageMap) (extraIds diff)) in
  let updatedMessages := filterDefined (map (JsMap.get messageMap) (outdatedIds diff)) in
  let deletedMessageIds :=
    map ts_messageId
      (List.filter
         (fun t => String.eqb (ts_spaceId t) spaceId && String.eqb (ts_channelId t) channelId)
         tombstones) in
  {| mdl_spaceId := spaceId; mdl_channelId := channelId;
     mdl_newMessages := newMessages; mdl_updatedMessages := updatedMessages;
     mdl_deletedMessageIds := deletedMessageIds |}.

(** Build reaction delta for messages *)
Definition buildReactionDelta (spaceId channelId : string)
    (messageMap : JsMap string Message) (messageIds : list string) : ReactionDelta :=
  let added :=
    fold_left
      (fun added messageId =>
         match JsMap.get messageMap messageId with
         | Some message =>
             match m_reactions message with
             | Some reactions =>
                 fold_left
                   (fun added reaction =>
                      push added
                        {| rc_messageId := messageId;
                           rc_emojiId := r_emojiId reaction;
                           rc_memberIds := r_memberIds reaction |})
                   reactions added
             | None => added
             end
         | None => added
         end)
      messageIds [] in
  {| rdl_spaceId := spaceId; rdl_channelId := channelId; rdl_added := added;
     rdl_removed := [] |}.

(** Build member delta from diff result and member lookup *)
Definition buildMemberDelta (spaceId : string) (diff : MemberDiffResult)
    (memberMap : JsMap string SpaceMember) : MemberDelta :=
  let addresses := missingAddresses diff ++ outdatedAddresses diff in
  let members := filterDefined (map (JsMap.get memberMap) addresses) in
  {| mbl_spaceId := spaceId; mbl_members := members; mbl_removedAddresses := [] |}.

Section Hashing.
(** [sha256] of [@noble/hashes/sha2], from the bytes of the input to the
    32 bytes of its digest. *)
Variable sha256 : list Z -> list Z.

(** Compute SHA-256 hash of a string *)
Definition computeHash (data : string) : string :=
  bytesToHex (sha256 (textEncode data)).

Definition textCanonical (t : Text) : string :=
  match t with
  | TextString s => s
  | TextArray l => join newline l
  end.

(** The [if (content.repliesToMessageId)] of the post, embed and sticker
    cases. *)
Definition appendReply (canonical : string) (repliesToMessageId : option string)
    : string :=
  if truthy repliesToMessageId
  then canonical +:+ ":reply:" +:+ interpolate repliesToMessageId
  else canonical.

(** Compute hash of message content for comparison. The [switch] has no
    [default]: for a tag it has no case for, [canonical] stays
    [senderId:type]. *)
Definition computeContentHash (message : Message) : string :=
  let content := m_content message in
  let canonical := senderId content +:+ ":" +:+ contentType content in
  let canonical :=
    match content with
    | PostMessage _ text replies =>
        appendReply (canonical +:+ ":" +:+ textCanonical text) replies
    | EmbedMessage _ imageUrl videoUrl replies =>
        appendReply
          (canonical +:+ ":" +:+ or_string imageUrl "" +:+ ":" +:+ or_string videoUrl "")
          replies
    | StickerMessage _ stickerId replies =>
        appendReply (canonical +:+ ":" +:+ stickerId) replies
    | EditMessage _ originalMessageId editedText editedAt =>
        canonical +:+ ":" +:+ originalMessageId +:+ ":" +:+ textCanonical editedText
          +:+ ":" +:+ numberToString editedAt
    | RemoveMessage _ removeMessageId => canonical +:+ ":" +:+ removeMessageId
    | JoinMessage _ | LeaveMessage _ | KickMessage _ => canonical
    | EventMessage _ text => canonical +:+ ":" +:+ text
    | UpdateProfileMessage _ displayName userIcon =>
        canonical +:+ ":" +:+ displayName +:+ ":" +:+ userIcon
    | MuteMessage _ targetUserId muteId action =>
        canonical +:+ ":" +:+ targetUserId +:+ ":" +:+ muteActionName action
          +:+ ":" +:+ muteId
    | PinMessage _ targetMessageId action =>
        canonical +:+ ":" +:+ targetMessageId +:+ ":" +:+ pinActionName action
    | ReactionMessage _ reaction messageId
    | RemoveReactionMessage _ reaction messageId =>
        canonical +:+ ":" +:+ messageId +:+ ":" +:+ reaction
    | DeleteConversationMessage _ => canonical
    | OtherContent _ _ => canonical
    end in
  computeHash canonical.

(** Compute hash of member's mutable fields *)
Definition computeMemberHash (member : SpaceMember) : string * string :=
  (computeHash (or_string (sm_display_name member) ""),
   computeHash (or_string (sm_profile_image member) "")).

(** Create digest from message *)
Definition createMessageDigest (message : Message) : MessageDigest :=
  {| md_messageId := m_messageId message;
     md_createdDate := m_createdDate message;
     md_contentHash := computeContentHash message;
     md_modifiedDate :=
       if negb (m_modifiedDate message =? m_createdDate message)
       then Some (m_modifiedDate message) else None |}.

(** Create reaction digest for a message *)
Definition createReactionDigest (messageId : string) (reactions : option (list Reaction))
    : list ReactionDigest :=
  match reactions with
  | None | Some [] => []
  | Some reactions =>
      map (fun r =>
             {| rd_messageId := messageId;
                rd_emojiId := r_emojiId r;
                rd_count := r_count r;
                rd_membersHash :=
                  computeHash (join "," (sortBy defaultCompare (r_memberIds r))) |})
          reactions
  end.

(** Create member digest *)
Definition createMemberDigest (member : SpaceMember) : MemberDigest :=
  let '(displayNameHash, iconHash) := computeMemberHash member in
  {| mbd_address := sm_address member;
     mbd_inboxAddress := or_string (sm_inbox_address member) "";
     mbd_displayNameHash := displayNameHash;
     mbd_iconHash := iconHash |}.
End Hashing.

Section Chunking.
(** [JSON.stringify(msg).length] *)
Variable jsonLength : Message -> Z.

(** The body of the [for] loop of [chunkMessages], on its three variables
    [chunks], [currentChunk] and [currentSize]. *)
Definition chunkStep (st : list (list Message) * list Message * Z) (msg : Message)
    : list (list Message) * list Message * Z :=
  let '(chunks, currentChunk, currentSize) := st in
  let msgSize := jsonLength msg in
  if msgSize >? MAX_CHUNK_SIZE then
    let '(chunks, currentChunk, currentSize) :=
      if nonEmpty currentChunk then (push chunks currentChunk, [], 0)
      else (chunks, currentChunk, currentSize) in
    (push chunks [msg], currentChunk, currentSize)
  else
    let '(chunks, currentChunk, currentSize) :=
      if (currentSize + msgSize >? MAX_CHUNK_SIZE) && nonEmpty currentChunk
      then (push chunks currentChunk, [], 0)
      else (chunks, currentChunk, currentSize) in
    (chunks, push currentChunk msg, currentSize + msgSize).

(** Chunk messages for transmission to stay under size limit *)
Definition chunkMessages (messages : list Message) : list (list Message) :=
  let '(chunks, currentChunk, _) := fold_left chunkStep messages ([], [], 0) in
  if nonEmpty currentChunk then push chunks currentChunk else chunks.
End Chunking.

(** ** Errors and the service monad *)

(** The error kinds of the sync design. The sync code has no [throw] of its
    own: the only way one of its methods fails is a rejected storage
    promise, which it lets through unchanged. *)
Inductive Error :=
| StorageFailure
| UnsupportedContent
| InvariantViolation.

Inductive Result (A : Type) :=
| Ok (a : A)
| Err (e : Error).
Arguments Ok {A} a.
Arguments Err {A} e.

(** [StorageAdapter], the part of the interface the sync service calls. Every
    call may change the store and may reject. [getMessages] returns the
    [messages] field of its result. *)
Class StorageAdapter (St : Type) := {
  getMessages : St -> string -> string -> Z -> Result (list Message) * St;
  getMessage : St -> string -> string -> string -> Result (option Message) * St;
  saveMessage : St -> Message -> Z -> string -> string -> string -> string -> Result unit * St;
  deleteMessage : St -> string -> Result unit * St;
  getSpaceMembers : St -> string -> Result (list SpaceMember) * St;
  saveSpaceMember : St -> string -> SpaceMember -> Result unit * St;
}.

(** [SyncPayloadCache] *)
Record SyncPayloadCache := mkSyncPayloadCache {
  cache_spaceId : string;
  cache_channelId : string;
  messageMap : JsMap string Message;
  memberMap : JsMap string SpaceMember;
  digestMap : JsMap string MessageDigest;
  memberDigestMap : JsMap string MemberDigest;
  oldestTimestamp : number;
  newestTimestamp : Z;
  manifestHashBytes : list Z;
}.

(** The fields of a [SyncService]; the [onInitiateSync] callback and the
    timers are left out. *)
Record SyncService (St : Type) := mkSyncService {
  storage : St;
  maxMessages : Z;
  requestExpiry : Z;
  sessions : gmap string SyncSession;
  tombstones : list DeletedMessageTombstone;
  payloadCache : gmap string SyncPayloadCache;
}.
Arguments mkSyncService {St}.
Arguments storage {St}.
Arguments maxMessages {St}.
Arguments requestExpiry {St}.
Arguments sessions {St}.
Arguments tombstones {St}.
Arguments payloadCache {St}.

Definition withStorage {St} (svc : SyncService St) (st : St) : SyncService St :=
  mkSyncService st (maxMessages svc) (requestExpiry svc) (sessions svc)
    (tombstones svc) (payloadCache svc).

Definition withSessions {St} (svc : SyncService St) (s : gmap string SyncSession)
    : SyncService St :=
  mkSyncService (storage svc) (maxMessages svc) (requestExpiry svc) s
    (tombstones svc) (payloadCache svc).

Definition withPayloadCache {St} (svc : SyncService St)
    (c : gmap string SyncPayloadCache) : SyncService St :=
  mkSyncService (storage svc) (maxMessages svc) (requestExpiry svc) (sessions svc)
    (tombstones svc) c.

(** A method of the service: it returns or fails, and leaves the service in
    the state it reached either way. *)
Definition M (St A : Type) : Type := SyncService St -> Result A * SyncService St.

Definition ret {St A} (a : A) : M St A := fun svc => (Ok a, svc).

Definition bind {St A B} (m : M St A) (k : A -> M St B) : M St B :=
  fun svc =>
    match m svc with
    | (Ok a, svc') => k a svc'
    | (Err e, svc') => (Err e, svc')
    end.

Notation "'let!' x ':=' m 'in' k" := (bind m (fun x => k))
  (at level 10, x name, m at level 100, k at level 200).
Notation "'do!' m 'in' k" := (bind m (fun _ => k))
  (at level 10, m at level 100, k at level 200).

(** [await this.storage.op(...)] *)
Definition callStorage {St A} (op : St -> Result A * St) : M St A :=
  fun svc =>
    let '(r, st) := op (storage svc) in (r, withStorage svc st).

(** [for (const x of xs) { await body(x) }] *)
Fixpoint forEach {St A} (xs : list A) (body : A -> M St unit) : M St unit :=
  match xs with
  | [] => ret tt
  | x :: xs' => do! body x in forEach xs' body
  end.

(** ** The payload cache ([src/sync/service.ts]) *)

Section Cache.
Variable sha256 : list Z -> list Z.

(** Get cache key for space/channel *)
Definition getCacheKey (spaceId channelId : string) : string :=
  spaceId +:+ ":" +:+ channelId.

(** Hash a message ID to bytes for XOR-based manifest hash *)
Definition hashMessageId (messageId : string) : list Z :=
  sha256 (textEncode messageId).

(** XOR hash bytes into the accumulator: [accumulator[i] ^= hash[i]] for
    [i] from 0 to 31, that is, on every byte of the accumulator at an index
    below 32. Reading past the end of [hash] gives [undefined], which [^]
    takes for 0; a typed array keeps the low byte of what is stored, and has
    no byte to store to past its end. *)
Definition xorIntoHash (accumulator hash : list Z) : list Z :=
  imap
    (fun i byte =>
       if (i <? 32)%nat then Z.lxor byte (nth i hash 0) mod 256 else byte)
    accumulator.

(** The scan for the boundary timestamps, as [buildPayloadCache] and
    [recalculateTimestamps] both write it: [oldestTimestamp] starts at
    [Infinity] and [newestTimestamp] at 0. *)
Definition scanTimestamps (messages : list Message) : number * Z :=
  fold_left
    (fun (acc : number * Z) msg =>
       let '(oldestTimestamp, newestTimestamp) := acc in
       (if ltNumber (m_createdDate msg) oldestTimestamp
        then Num (m_createdDate msg) else oldestTimestamp,
        if m_createdDate msg >? newestTimestamp
        then m_createdDate msg else newestTimestamp))
    messages (Infinity, 0).

(** Build the payload cache from messages and members *)
Definition buildPayloadCache (spaceId channelId : string)
    (messages : list Message) (members : list SpaceMember) : SyncPayloadCache :=
  let messageMap := JsMap.fromEntries (map (fun m => (m_messageId m, m)) messages) in
  let memberMap := JsMap.fromEntries (map (fun m => (sm_address m, m)) members) in
  let digestMap :=
    JsMap.fromEntries
      (map (fun m => (m_messageId m, createMessageDigest sha256 m)) messages) in
  let memberDigestMap :=
    JsMap.fromEntries
      (map (fun m => (sm_address m, createMemberDigest sha256 m)) members) in
  let '(oldestTimestamp, newestTimestamp) := scanTimestamps messages in
  let oldestTimestamp :=
    if (length messages =? 0)%nat then Num 0 else oldestTimestamp in
  let manifestHashBytes :=
    fold_left
      (fun acc msg => xorIntoHash acc (hashMessageId (m_messageId msg)))
      messages (repeat 0 32) in
  {| cache_spaceId := spaceId; cache_channelId := channelId;
     messageMap := messageMap; memberMap := memberMap;
     digestMap := digestMap; memberDigestMap := memberDigestMap;
     oldestTimestamp := oldestTimestamp; newestTimestamp := newestTimestamp;
     manifestHashBytes := manifestHashBytes |}.

(** Get manifest hash as hex string *)
Definition getManifestHash (cache : SyncPayloadCache) : string :=
  bytesToHex (manifestHashBytes cache).

(** Get the manifest from cache *)
Definition getManifest (cache : SyncPayloadCache) : SyncManifest :=
  let digests :=
    sortBy (fun a b => md_createdDate a - md_createdDate b)
      (JsMap.values (digestMap cache)) in
  let reactionDigests :=
    fold_left
      (fun reactionDigests msg =>
         match m_reactions msg with
         | Some (_ :: _) =>
             pushAll reactionDigests
               (createReactionDigest sha256 (m_messageId msg) (m_reactions msg))
         | _ => reactionDigests
         end)
      (JsMap.values (messageMap cache)) [] in
  {| sman_spaceId := cache_spaceId cache;
     sman_channelId := cache_channelId cache;
     sman_messageCount := JsMap.size (digestMap cache);
     sman_oldestTimestamp := oldestTimestamp cache;
     sman_newestTimestamp := newestTimestamp cache;
     sman_digests := digests;
     sman_reactionDigests := reactionDigests |}.

(** Get the summary from cache *)
Definition getSummary (cache : SyncPayloadCache) : SyncSummary :=
  {| sum_memberCount := JsMap.size (memberDigestMap cache);
     sum_messageCount := JsMap.size (digestMap cache);
     sum_newestMessageTimestamp := newestTimestamp cache;
     sum_oldestMessageTimestamp := oldestTimestamp cache;
     sum_manifestHash := Some (getManifestHash cache) |}.

(** Get member digests from cache *)
Definition getMemberDigests (cache : SyncPayloadCache) : list MemberDigest :=
  JsMap.values (memberDigestMap cache).

(** [updateCacheWithMessage], the block under [if (cached)]. *)
Definition updateCacheWithMessageIn (cached : SyncPayloadCache) (message : Message)
    : SyncPayloadCache :=
  let isNew := negb (JsMap.has (messageMap cached) (m_messageId message)) in
  {| cache_spaceId := cache_spaceId cached;
     cache_channelId := cache_channelId cached;
     messageMap := JsMap.set (messageMap cached) (m_messageId message) message;
     memberMap := memberMap cached;
     digestMap :=
       JsMap.set (digestMap cached) (m_messageId message)
         (createMessageDigest sha256 message);
     memberDigestMap := memberDigestMap cached;
     oldestTimestamp :=
       if ltNumber (m_createdDate message) (oldestTimestamp cached)
       then Num (m_createdDate message) else oldestTimestamp cached;
     newestTimestamp :=
       if m_createdDate message >? newestTimestamp cached
       then m_createdDate message else newestTimestamp cached;
     manifestHashBytes :=
       if isNew
       then xorIntoHash (manifestHashBytes cached) (hashMessageId (m_messageId message))
       else manifestHashBytes cached |}.

(** Recalculate timestamps from scratch *)
Definition recalculateTimestamps (cache : SyncPayloadCache) : SyncPayloadCache :=
  let '(oldestTimestamp, newestTimestamp) :=
    scanTimestamps (JsMap.values (messageMap cache)) in
  {| cache_spaceId := cache_spaceId cache;
     cache_channelId := cache_channelId cache;
     messageMap := messageMap cache;
     memberMap := memberMap cache;
     digestMap := digestMap cache;
     memberDigestMap := memberDigestMap cache;
     oldestTimestamp :=
       if JsMap.size (messageMap cache) =? 0 then Num 0 else oldestTimestamp;
     newestTimestamp := newestTimestamp;
     manifestHashBytes := manifestHashBytes cache |}.

(** [removeCacheMessage], the block under [if (cached)]. *)
Definition removeCacheMessageIn (cached : SyncPayloadCache) (messageId : string)
    : SyncPayloadCache :=
  match JsMap.get (messageMap cached) messageId with
  | None => cached
  | Some message =>
      let removed :=
        {| cache_spaceId := cache_spaceId cached;
           cache_channelId := cache_channelId cached;
           messageMap := JsMap.delete (messageMap cached) messageId;
           memberMap := memberMap cached;
           digestMap := JsMap.delete (digestMap cached) messageId;
           memberDigestMap := memberDigestMap cached;
           oldestTimestamp := oldestTimestamp cached;
           newestTimestamp := newestTimestamp cached;
           manifestHashBytes :=
             xorIntoHash (manifestHashBytes cached) (hashMessageId messageId) |} in
      if eqNumber (m_createdDate message) (oldestTimestamp cached)
         || (m_createdDate message =? newestTimestamp cached)
      then recalculateTimestamps removed
      else removed
  end.

(** [updateCacheWithMember], the block under [if (cached)]. *)
Definition updateCacheWithMemberIn (cached : SyncPayloadCache) (member : SpaceMember)
    : SyncPayloadCache :=
  {| cache_spaceId := cache_spaceId cached;
     cache_channelId := cache_channelId cached;
     messageMap := messageMap cached;
     memberMap := JsMap.set (memberMap cached) (sm_address member) member;
     digestMap := digestMap cached;
     memberDigestMap :=
       JsMap.set (memberDigestMap cached) (sm_address member)
         (createMemberDigest sha256 member);
     oldestTimestamp := oldestTimestamp cached;
     newestTimestamp := newestTimestamp cached;
     manifestHashBytes := manifestHashBytes cached |}.

(** The cache states the service can hold: built by [buildPayloadCache],
    then changed by the three update methods. *)
Inductive reachable : SyncPayloadCache -> Prop :=
| reachable_build spaceId channelId messages members :
    reachable (buildPayloadCache spaceId channelId messages members)
| reachable_message cached message :
    reachable cached -> reachable (updateCacheWithMessageIn cached message)
| reachable_remove cached messageId :
    reachable cached -> reachable (removeCacheMessageIn cached messageId)
| reachable_member cached member :
    reachable cached -> reachable (updateCacheWithMemberIn cached member).
End Cache.


(** ** The service ([class SyncService]) *)

Definition withReactions (message : Message) (reactions : option (list Reaction))
    : Message :=
  {| m_channelId := m_channelId message; m_spaceId := m_spaceId message;
     m_messageId := m_messageId message;
     m_digestAlgorithm := m_digestAlgorithm message; m_nonce := m_nonce message;
     m_createdDate := m_createdDate message;
     m_modifiedDate := m_modifiedDate message;
     m_lastModifiedHash := m_lastModifiedHash message;
     m_content := m_content message; m_reactions := reactions |}.

(** Assignment to the fields of the first element that [find] returns. *)
Fixpoint updateFirst {A : Type} (p : A -> bool) (f : A -> A) (l : list A) : list A :=
  match l with
  | [] => []
  | x :: l' => if p x then f x :: l' else x :: updateFirst p f l'
  end.

Definition withMembers (r : Reaction) (memberIds : list string) : Reaction :=
  {| r_emojiId := r_emojiId r; r_spaceId := r_spaceId r;
     r_emojiName := r_emojiName r;
     r_count := Z.of_nat (length memberIds); r_memberIds := memberIds |}.

(** What [applyReactionDelta] does to the message of one entry of [added]. *)
Definition mergeAddition (spaceId : string) (message : Message)
    (addition : ReactionChange) : Message :=
  let reactions := default [] (m_reactions message) in
  let sameEmoji := fun r => String.eqb (r_emojiId r) (rc_emojiId addition) in
  match List.find sameEmoji reactions with
  | Some existing =>
      let allMembers := uniqueStrings (r_memberIds existing ++ rc_memberIds addition) in
      withReactions message
        (Some (updateFirst sameEmoji (fun r => withMembers r allMembers) reactions))
  | None =>
      withReactions message
        (Some (push reactions
                 {| r_emojiId := rc_emojiId addition;
                    r_spaceId := spaceId;
                    r_emojiName := rc_emojiId addition;
                    r_count := Z.of_nat (length (rc_memberIds addition));
                    r_memberIds := rc_memberIds addition |}))
  end.

(** What [applyReactionDelta] does to the message of one entry of [removed]. *)
Definition mergeRemoval (message : Message) (removal : ReactionChange) : Message :=
  let reactions := default [] (m_reactions message) in
  let sameEmoji := fun r => String.eqb (r_emojiId r) (rc_emojiId removal) in
  match List.find sameEmoji reactions with
  | Some existing =>
      let memberIds :=
        List.filter (fun id => negb (includes (rc_memberIds removal) id))
          (r_memberIds existing) in
      let reactions := updateFirst sameEmoji (fun r => withMembers r memberIds) reactions in
      if (length memberIds =? 0)%nat
      then withReactions message
             (Some (List.filter (fun r => negb (sameEmoji r)) reactions))
      else withReactions message (Some reactions)
  | None => message
  end.

(** [payloads[payloads.length - 1].isFinal = true] *)
Definition markLastFinal (payloads : list SyncDeltaPayload) : list SyncDeltaPayload :=
  alter
    (fun p =>
       {| messageDelta := messageDelta p; reactionDelta := reactionDelta p;
          memberDelta := memberDelta p; peerMapDelta := peerMapDelta p;
          isFinal := Some true |})
    (length payloads - 1)%nat payloads.

Section Service.
Variable sha256 : list Z -> list Z.
Variable jsonLength : Message -> Z.
Context {St : Type} `{StorageAdapter St}.

Definition getService : M St (SyncService St) := fun svc => (Ok svc, svc).

Definition setSessions (s : gmap string SyncSession) : M St unit :=
  fun svc => (Ok tt, withSessions svc s).

Definition setPayloadCache (c : gmap string SyncPayloadCache) : M St unit :=
  fun svc => (Ok tt, withPayloadCache svc c).

Definition getChannelMessages (spaceId channelId : string) : M St (list Message) :=
  let! svc := getService in
  callStorage (fun st => getMessages st spaceId channelId (maxMessages svc)).

(** Get or initialize the payload cache for a space/channel. *)
Definition getPayloadCache (spaceId channelId : string) : M St SyncPayloadCache :=
  let key := getCacheKey spaceId channelId in
  let! svc := getService in
  match payloadCache svc !! key with
  | Some cached => ret cached
  | None =>
      let! messages := getChannelMessages spaceId channelId in
      let! members := callStorage (fun st => getSpaceMembers st spaceId) in
      let payload := buildPayloadCache sha256 spaceId channelId messages members in
      let! svc := getService in
      do! setPayloadCache (<[ key := payload ]> (payloadCache svc)) in
      ret payload
  end.

(** Update cache with a new/updated message *)
Definition updateCacheWithMessage (svc : SyncService St) (spaceId channelId : string)
    (message : Message) : SyncService St :=
  let key := getCacheKey spaceId channelId in
  match payloadCache svc !! key with
  | Some cached =>
      withPayloadCache svc
        (<[ key := updateCacheWithMessageIn sha256 cached message ]> (payloadCache svc))
  | None => svc
  end.

(** Remove a message from cache *)
Definition removeCacheMessage (svc : SyncService St) (spaceId channelId : string)
    (messageId : string) : SyncService St :=
  let key := getCacheKey spaceId channelId in
  match payloadCache svc !! key with
  | Some cached =>
      withPayloadCache svc
        (<[ key := removeCacheMessageIn sha256 cached messageId ]> (payloadCache svc))
  | None => svc
  end.

(** Update cache with a new/updated member *)
Definition updateCacheWithMember (svc : SyncService St) (spaceId channelId : string)
    (member : SpaceMember) : SyncService St :=
  let key := getCacheKey spaceId channelId in
  match payloadCache svc !! key with
  | Some cached =>
      withPayloadCache svc
        (<[ key := updateCacheWithMemberIn sha256 cached member ]> (payloadCache svc))
  | None => svc
  end.

(** Record a deleted message tombstone *)
Definition addTombstone (svc : SyncService St) (tombstone : DeletedMessageTombstone)
    : SyncService St :=
  mkSyncService (storage svc) (maxMessages svc) (requestExpiry svc) (sessions svc)
    (push (tombstones svc) tombstone) (payloadCache svc).

(** Build sync-request payload to broadcast via hub; [now] is what
    [Date.now()] returns. *)
Definition buildSyncRequest (now : Z) (spaceId channelId inboxAddress : string)
    : M St SyncRequestPayload :=
  let! cache := getPayloadCache spaceId channelId in
  let! svc := getService in
  let expiry := now + requestExpiry svc in
  do! setSessions
        (<[ spaceId :=
              {| ss_spaceId := spaceId; ss_channelId := channelId;
                 ss_expiry := expiry; ss_candidates := [];
                 ss_inProgress := false; ss_syncTarget := None |} ]>
           (sessions svc)) in
  ret {| srq_inboxAddress := inboxAddress; srq_expiry := expiry;
         srq_summary := getSummary cache |}.

(** The payload [buildSyncDelta] pushes for the chunk at index [i] of
    [chunks]. *)
Definition chunkPayload (spaceId channelId : string) (messageDiff : MessageDiffResult)
    (messageDelta : MessageDelta) (reactionDelta : ReactionDelta)
    (chunks : list (list Message)) (i : nat) (chunk : list Message)
    : SyncDeltaPayload :=
  let isLast := (i =? length chunks - 1)%nat in
  let chunkDelta :=
    {| mdl_spaceId := spaceId; mdl_channelId := channelId;
       mdl_newMessages :=
         List.filter (fun m => includes (extraIds messageDiff) (m_messageId m)) chunk;
       mdl_updatedMessages :=
         List.filter (fun m => includes (outdatedIds messageDiff) (m_messageId m)) chunk;
       mdl_deletedMessageIds :=
         if isLast then mdl_deletedMessageIds messageDelta else [] |} in
  {| messageDelta := Some chunkDelta;
     reactionDelta :=
       if isLast && nonEmpty (rdl_added reactionDelta) then Some reactionDelta else None;
     memberDelta := None;
     peerMapDelta := None;
     isFinal := Some false |}.

(** [buildSyncDelta] after [await this.getPayloadCache(...)]. *)
Definition buildSyncDeltaFrom (cache : SyncPayloadCache)
    (tombstones : list DeletedMessageTombstone) (spaceId channelId : string)
    (theirManifest : SyncManifest) (theirMemberDigests : list MemberDigest)
    (theirPeerIds : list Z) (ourPeerEntries : JsMap Z PeerEntry)
    : list SyncDeltaPayload :=
  let ourPeerIds := JsMap.keys ourPeerEntries in
  let ourManifest := getManifest sha256 cache in
  let ourMemberDigests := getMemberDigests cache in
  let messageDiff := computeMessageDiff ourManifest theirManifest in
  let memberDiff := computeMemberDiff theirMemberDigests ourMemberDigests in
  let peerDiff := computePeerDiff theirPeerIds ourPeerIds in
  let messageDelta :=
    buildMessageDelta spaceId channelId messageDiff (messageMap cache) tombstones in
  let reactionMessageIds := extraIds messageDiff ++ outdatedIds messageDiff in
  let reactionDelta :=
    buildReactionDelta spaceId channelId (messageMap cache) reactionMessageIds in
  let memberDelta := buildMemberDelta spaceId memberDiff (memberMap cache) in
  let peerMapDelta :=
    {| pml_spaceId := spaceId;
       pml_added :=
         filterDefined (map (JsMap.get ourPeerEntries) (extraPeerIds peerDiff));
       pml_updated := [];
       pml_removed := [] |} in
  let allMessages := mdl_newMessages messageDelta ++ mdl_updatedMessages messageDelta in
  let payloads :=
    if nonEmpty allMessages then
      let chunks := chunkMessages jsonLength allMessages in
      imap (chunkPayload spaceId channelId messageDiff messageDelta reactionDelta chunks)
        chunks
    else [] in
  let payloads :=
    if nonEmpty (mbl_members memberDelta) || nonEmpty (pml_added peerMapDelta)
       || negb (nonEmpty allMessages)
    then
      push payloads
        {| messageDelta := None;
           reactionDelta := None;
           memberDelta :=
             if nonEmpty (mbl_members memberDelta) then Some memberDelta else None;
           peerMapDelta :=
             if nonEmpty (pml_added peerMapDelta) then Some peerMapDelta else None;
           isFinal := Some true |}
    else if nonEmpty payloads then markLastFinal payloads
    else payloads in
  if (length payloads =? 0)%nat
  then push payloads
         {| messageDelta := None; reactionDelta := None; memberDelta := None;
            peerMapDelta := None; isFinal := Some true |}
  else payloads.

(** Build sync-delta payloads based on manifest comparison. *)
Definition buildSyncDelta (spaceId channelId : string) (theirManifest : SyncManifest)
    (theirMemberDigests : list MemberDigest) (theirPeerIds : list Z)
    (ourPeerEntries : JsMap Z PeerEntry) : M St (list SyncDeltaPayload) :=
  let! cache := getPayloadCache spaceId channelId in
  let! svc := getService in
  ret (buildSyncDeltaFrom cache (tombstones svc) spaceId channelId theirManifest
         theirMemberDigests theirPeerIds ourPeerEntries).

(** Apply received message delta to local storage *)
Definition applyMessageDelta (delta : MessageDelta) : M St unit :=
  do! forEach (mdl_newMessages delta)
        (fun msg => callStorage (fun st => saveMessage st msg (m_createdDate msg) "" "" "" "")) in
  do! forEach (mdl_updatedMessages delta)
        (fun msg => callStorage (fun st => saveMessage st msg (m_createdDate msg) "" "" "" "")) in
  forEach (mdl_deletedMessageIds delta)
    (fun id => callStorage (fun st => deleteMessage st id)).

(** Apply received reaction delta to local storage. The message [getMessage]
    returns is taken by value: the source changes that object in place and
    then saves it, which a store that hands out its own objects sees before
    the save. *)
Definition applyReactionDelta (delta : ReactionDelta) : M St unit :=
  do! forEach (rdl_added delta)
        (fun addition =>
           let! message :=
             callStorage
               (fun st => getMessage st (rdl_spaceId delta) (rdl_channelId delta)
                            (rc_messageId addition)) in
           match message with
           | Some message =>
               let message := mergeAddition (rdl_spaceId delta) message addition in
               callStorage
                 (fun st => saveMessage st message (m_createdDate message) "" "" "" "")
           | None => ret tt
           end) in
  forEach (rdl_removed delta)
    (fun removal =>
       let! message :=
         callStorage
           (fun st => getMessage st (rdl_spaceId delta) (rdl_channelId delta)
                        (rc_messageId removal)) in
       match message with
       | Some message =>
           let message := mergeRemoval message removal in
           callStorage
             (fun st => saveMessage st message (m_createdDate message) "" "" "" "")
       | None => ret tt
       end).

(** Apply received member delta to local storage *)
Definition applyMemberDelta (delta : MemberDelta) : M St unit :=
  forEach (mbl_members delta)
    (fun member => callStorage (fun st => saveSpaceMember st (mbl_spaceId delta) member)).

(** [if (x) await f(x)] on an optional part of a payload. *)
Definition whenPresent {A : Type} (o : option A) (f : A -> M St unit) : M St unit :=
  match o with
  | Some a => f a
  | None => ret tt
  end.

(** Apply full sync delta. The space whose session is cleaned up is
    [delta.messageDelta?.spaceId || delta.memberDelta?.spaceId]. *)
Definition applySyncDelta (delta : SyncDeltaPayload) : M St unit :=
  do! whenPresent (messageDelta delta) applyMessageDelta in
  do! whenPresent (reactionDelta delta) applyReactionDelta in
  do! whenPresent (memberDelta delta) applyMemberDelta in
  if default false (isFinal delta) then
    let spaceId :=
      if truthy (mdl_spaceId <$> messageDelta delta)
      then mdl_spaceId <$> messageDelta delta
      else mbl_spaceId <$> memberDelta delta in
    if truthy spaceId then
      let! svc := getService in
      setSessions (delete (default "" spaceId) (sessions svc))
    else ret tt
  else ret tt.

(** Cancel active sync for a space *)
Definition cancelSync (svc : SyncService St) (spaceId : string) : SyncService St :=
  withSessions svc (delete spaceId (sessions svc)).
End Service.

(** * Vocabulary of the properties *)

(** ** The message diff *)

(** The digest a manifest gives for a message ID: the last one, should the
    ID occur more than once. *)
Definition digestFor (manifest : SyncManifest) (id : string) : option MessageDigest :=
  List.find (fun d => String.eqb (md_messageId d) id) (rev (sman_digests manifest)).

(** The date of the last change a digest records: its [modifiedDate], or
    its [createdDate] when it has none (or a zero one). *)
Definition effectiveModified (d : MessageDigest) : Z :=
  match md_modifiedDate d with
  | Some z => if z =? 0 then md_createdDate d else z
  | None => md_createdDate d
  end.

Definition digestEntries (manifest : SyncManifest) : list (string * MessageDigest) :=
  JsMap.fromEntries (map (fun d => (md_messageId d, d)) (sman_digests manifest)).

Definition isMissing (ourDigests : list (string * MessageDigest))
    (entry : string * MessageDigest) : bool :=
  negb (JsMap.has ourDigests (fst entry)).

Definition isOutdated (ourDigests : list (string * MessageDigest))
    (entry : string * MessageDigest) : bool :=
  match JsMap.get ourDigests (fst entry) with
  | Some ourDigest =>
      negb (String.eqb (md_contentHash ourDigest) (md_contentHash (snd entry)))
      && (effectiveModified (snd entry) >? effectiveModified ourDigest)
  | None => false
  end.

(** ** Chunking *)

Section ChunkVocabulary.
Variable jsonLength : Message -> Z.

(** The serialised size of a chunk: the sum of the sizes of its messages. *)
Definition chunkSize (chunk : list Message) : Z :=
  fold_right (fun m acc => jsonLength m + acc) 0 chunk.

(** A finished chunk is either one oversized message, or a non-empty run of
    messages that fit the limit together. *)
Definition goodChunk (chunk : list Message) : Prop :=
  (exists m, chunk = [m] /\ jsonLength m > MAX_CHUNK_SIZE) \/
  (chunk <> [] /\ chunkSize chunk <= MAX_CHUNK_SIZE /\
   Forall (fun m => jsonLength m <= MAX_CHUNK_SIZE) chunk).

(** The invariant of the loop of [chunkMessages], after the messages
    [done] have been walked. *)
Definition chunkInv (done : list Message)
    (st : list (list Message) * list Message * Z) : Prop :=
  let '(chunks, currentChunk, currentSize) := st in
  concat chunks ++ currentChunk = done /\
  Forall goodChunk chunks /\
  currentSize = chunkSize currentChunk /\
  chunkSize currentChunk <= MAX_CHUNK_SIZE /\
  Forall (fun m => jsonLength m <= MAX_CHUNK_SIZE) currentChunk.

End ChunkVocabulary.

(** ** The size of a serialised message *)

(** [s.length]: the number of UTF-16 code units of the string whose UTF-8
    encoding is [s]. Every character gives one code unit, a character beyond
    the basic plane (four bytes in UTF-8) two; continuation bytes give none. *)
Fixpoint codeUnits (s : string) : Z :=
  match s with
  | EmptyString => 0
  | String c s' =>
      let n := Z.of_N (N_of_ascii c) in
      (if (128 <=? n) && (n <? 192) then 0 else if 240 <=? n then 2 else 1)
      + codeUnits s'
  end.

(** [new TextEncoder().encode(s).length]: the number of bytes of [s] on the
    wire. *)
Definition utf8Bytes (s : string) : Z := Z.of_nat (String.length s).

(** The quotation mark, the character of code 34. *)
Definition doubleQuote : string := String (ascii_of_nat 34) EmptyString.

(** What [JSON.stringify] writes for one character of a string: the quote,
    the backslash and the control characters are escaped, every other
    character is copied. *)
Definition jsonEscape (c : ascii) : string :=
  let n := Z.of_N (N_of_ascii c) in
  if n =? 34 then String "\"%char doubleQuote
  else if n =? 92 then "\\"
  else if n =? 8 then "\b"
  else if n =? 12 then "\f"
  else if n =? 10 then "\n"
  else if n =? 13 then "\r"
  else if n =? 9 then "\t"
  else if n <? 32 then "\u00" +:+ padStart 2 "0"%char (toString16 n)
  else String c EmptyString.

Fixpoint jsonEscapeAll (s : string) : string :=
  match s with
  | EmptyString => EmptyString
  | String c s' => jsonEscape c +:+ jsonEscapeAll s'
  end.

(** [JSON.stringify(s)] for a string. *)
Definition jsonString (s : string) : string :=
  doubleQuote +:+ jsonEscapeAll s +:+ doubleQuote.

(** A key of an object: the key in quotation marks, then a colon. *)
Definition jsonKey (key : string) : string := doubleQuote +:+ key +:+ doubleQuote +:+ ":".

(** [JSON.stringify(msg)] for a message object as [createTestMessage] of the
    tests of the service builds it: the keys [messageId], [spaceId],
    [channelId], [digestAlgorithm], [nonce], [createdDate], [modifiedDate],
    [lastModifiedHash], [content] (a post: [type], [senderId], [text], the
    text a single string), [reactions] (none) and [mentions] (empty), in this
    order. A message of another shape has no serialisation here. *)
Definition testMessageJson (m : Message) : option string :=
  match m_content m, m_reactions m with
  | PostMessage sender (TextString text) None, Some [] =>
      Some ("{" +:+ jsonKey "messageId" +:+ jsonString (m_messageId m)
            +:+ "," +:+ jsonKey "spaceId" +:+ jsonString (m_spaceId m)
            +:+ "," +:+ jsonKey "channelId" +:+ jsonString (m_channelId m)
            +:+ "," +:+ jsonKey "digestAlgorithm" +:+ jsonString (m_digestAlgorithm m)
            +:+ "," +:+ jsonKey "nonce" +:+ jsonString (m_nonce m)
            +:+ "," +:+ jsonKey "createdDate" +:+ numberToString (m_createdDate m)
            +:+ "," +:+ jsonKey "modifiedDate" +:+ numberToString (m_modifiedDate m)
            +:+ "," +:+ jsonKey "lastModifiedHash" +:+ jsonString (m_lastModifiedHash m)
            +:+ "," +:+ jsonKey "content" +:+ "{"
            +:+ jsonKey "type" +:+ jsonString "post"
            +:+ "," +:+ jsonKey "senderId" +:+ jsonString sender
            +:+ "," +:+ jsonKey "text" +:+ jsonString text +:+ "}"
            +:+ "," +:+ jsonKey "reactions" +:+ "[]"
            +:+ "," +:+ jsonKey "mentions" +:+ "{"
            +:+ jsonKey "memberIds" +:+ "[]"
            +:+ "," +:+ jsonKey "roleIds" +:+ "[]"
            +:+ "," +:+ jsonKey "channelIds" +:+ "[]" +:+ "}" +:+ "}")
  | _, _ => None
  end.

(** [JSON.stringify(msg).length], the size [chunkMessages] measures, and the
    bytes of the same text, for the messages [testMessageJson] covers. *)
Definition testJsonLength (m : Message) : Z :=
  match testMessageJson m with
  | Some json => codeUnits json
  | None => 0
  end.

Definition testJsonBytes (m : Message) : Z :=
  match testMessageJson m with
  | Some json => utf8Bytes json
  | None => 0
  end.

(** The bytes a chunk takes on the wire. *)
Definition chunkBytes (chunk : list Message) : Z :=
  fold_right (fun m acc => testJsonBytes m + acc) 0 chunk.

(** [s.repeat(2 ** k)] *)
Fixpoint repeatDoubling (k : nat) (s : string) : string :=
  match k with
  | O => s
  | S k' => repeatDoubling k' (s +:+ s)
  end.

(** The character U+4E2D: one UTF-16 code unit, three bytes in UTF-8. *)
Definition wideChar : string :=
  String (ascii_of_nat 228) (String (ascii_of_nat 184) (String (ascii_of_nat 173) EmptyString)).

(** [createTestMessage(id, 'space-1', 'channel-1', text, createdDate)] *)
Definition testMessage (messageId text : string) (createdDate : Z) : Message :=
  {| m_channelId := "channel-1"; m_spaceId := "space-1"; m_messageId := messageId;
     m_digestAlgorithm := "sha256"; m_nonce := "test-nonce";
     m_createdDate := createdDate; m_modifiedDate := createdDate;
     m_lastModifiedHash := "hash";
     m_content := PostMessage "sender-address" (TextString text) None;
     m_reactions := Some [] |}.

(** A message of 2^21 characters of three bytes each. *)
Definition wideMessage : Message := testMessage "msg1" (repeatDoubling 21 wideChar) 1000.

(** ** The XOR accumulator *)

(** One byte of [xorIntoHash]: [accumulator[i] ^= hash[i]]. *)
Definition byteXor (a h : Z) : Z := Z.lxor a h mod 256.

(** The loop of [xorIntoHash] as the source writes it, from index [a], for
    [n] rounds: the store [accumulator[i] ^= hash[i]], which a typed array
    ignores past its end. *)
Definition xorLoop (hash : list Z) (a n : nat) (accumulator : list Z) : list Z :=
  fold_left
    (fun acc i => <[ i := Z.lxor (nth i acc 0) (nth i hash 0) mod 256 ]> acc)
    (seq a n) accumulator.

(** The contents of a [Uint8Array(32)]. *)
Definition bytes32 (l : list Z) : Prop :=
  length l = 32%nat /\ Forall (fun b => 0 <= b < 256) l.

(** ** The payload cache *)

(** The message IDs of [messages] that the cache does not hold yet. *)
Definition newIds (cached : SyncPayloadCache) (messages : list Message) : list string :=
  List.filter (fun id => negb (JsMap.has (messageMap cached) id))
    (map m_messageId messages).

(** The dates of creation of the messages a cache holds. *)
Definition createdDates (cache : SyncPayloadCache) : list Z :=
  map m_createdDate (JsMap.values (messageMap cache)).

(** The boundary timestamps are exact: the minimum and the maximum of the
    dates of creation, or both 0 for a cache without messages. *)
Definition timestampsExact (cache : SyncPayloadCache) : Prop :=
  match createdDates cache with
  | [] => oldestTimestamp cache = Num 0 /\ newestTimestamp cache = 0
  | d :: ds =>
      oldestTimestamp cache = Num (fold_right Z.min d ds) /\
      newestTimestamp cache = fold_right Z.max d ds
  end.


(** ** Outcomes and payload sequences *)

(** The outcome of a call of [computeContentHash]. The function has no
    [throw] and awaits nothing: a call completes with the hash. *)
Definition computeContentHashOutcome (sha256 : list Z -> list Z) (message : Message)
    : Result string :=
  Ok (computeContentHash sha256 message).

(** Exactly one payload of the sequence has [isFinal = true], and it is the
    last one. *)
Definition oneFinalLast (payloads : list SyncDeltaPayload) : Prop :=
  exists init last,
    payloads = init ++ [last] /\ isFinal last = Some true /\
    Forall (fun p => isFinal p <> Some true) init.

(** The payload at index [i] is the last message chunk of the sequence. *)
Definition lastMessageChunk (payloads : list SyncDeltaPayload) (i : nat) : Prop :=
  (exists p, payloads !! i = Some p /\ is_Some (messageDelta p)) /\
  (forall j q, (i < j)%nat -> payloads !! j = Some q -> messageDelta q = None).

(** A payload carries a reaction delta only if it is the last message chunk,
    the reaction delta it carries is not empty, and at most one payload
    carries one. *)
Definition reactionOnLastChunk (payloads : list SyncDeltaPayload) : Prop :=
  (forall i p rd,
     payloads !! i = Some p -> reactionDelta p = Some rd ->
     rdl_added rd <> [] /\ lastMessageChunk payloads i) /\
  (forall i j p q,
     payloads !! i = Some p -> payloads !! j = Some q ->
     is_Some (reactionDelta p) -> is_Some (reactionDelta q) -> i = j).

(** The deleted message IDs a payload carries. *)
Definition deletedIdsOf (p : SyncDeltaPayload) : list string :=
  match messageDelta p with
  | Some delta => mdl_deletedMessageIds delta
  | None => []
  end.

(** The last steps of [buildSyncDelta]: from the payloads of the message
    chunks, push the trailing payload when it is needed, else mark the last
    chunk final; and send an empty final payload if nothing is there. *)
Definition assemblePayloads (chunkPayloads : list SyncDeltaPayload)
    (trailingNeeded : bool) (trailing : SyncDeltaPayload) : list SyncDeltaPayload :=
  let payloads :=
    if trailingNeeded then push chunkPayloads trailing
    else if nonEmpty chunkPayloads then markLastFinal chunkPayloads
    else chunkPayloads in
  if (length payloads =? 0)%nat
  then push payloads
         {| messageDelta := None; reactionDelta := None; memberDelta := None;
            peerMapDelta := None; isFinal := Some true |}
  else payloads.

(** What the payloads of the message chunks have in common: they carry a
    message delta and are not final, and only the last of them can carry a
    reaction delta, which is then not empty. *)
Definition chunkPayloadsShape (chunkPayloads : list SyncDeltaPayload) : Prop :=
  Forall (fun p => isFinal p = Some false /\ is_Some (messageDelta p)) chunkPayloads /\
  (forall i p rd,
     chunkPayloads !! i = Some p -> reactionDelta p = Some rd ->
     S i = length chunkPayloads /\ rdl_added rd <> []).

(** ** Sample data *)

(** A 32-byte function standing in for SHA-256 in the examples. *)
Definition sampleSha256 (bytes : list Z) : list Z :=
  map (fun i => fold_left Z.add bytes (Z.of_nat i) mod 256) (seq 0 32).

(** Every sample message serialises to 3 MB: two of them do not fit a chunk. *)
Definition sampleJsonLength (m : Message) : Z := 3 * 1024 * 1024.

Definition sampleMessage (messageId : string) (createdDate : Z) : Message :=
  {| m_channelId := "channel-1"; m_spaceId := "space-1"; m_messageId := messageId;
     m_digestAlgorithm := "sha256"; m_nonce := "test-nonce";
     m_createdDate := createdDate; m_modifiedDate := createdDate;
     m_lastModifiedHash := "hash";
     m_content := PostMessage "sender-address" (TextString "Hello") None;
     m_reactions := Some [] |}.

(** A message with a reaction. *)
Definition sampleReactedMessage (messageId : string) (createdDate : Z) : Message :=
  withReactions (sampleMessage messageId createdDate)
    (Some [ {| r_emojiId := "thumbs-up"; r_spaceId := "space-1";
               r_emojiName := "thumbs-up"; r_count := 1;
               r_memberIds := ["addr1"] |} ]).

(** A message whose content carries a type tag the code has no case for. *)
Definition samplePoll : Message :=
  {| m_channelId := "channel-1"; m_spaceId := "space-1"; m_messageId := "msg-poll";
     m_digestAlgorithm := "sha256"; m_nonce := "test-nonce";
     m_createdDate := 1000; m_modifiedDate := 1000;
     m_lastModifiedHash := "hash";
     m_content := OtherContent "sender-address" "poll";
     m_reactions := Some [] |}.

Definition sampleMember (address : string) : SpaceMember :=
  {| sm_address := address; sm_inbox_address := Some ("inbox-" +:+ address);
     sm_display_name := None; sm_profile_image := None |}.

(** An in-memory store that never rejects, as the mock storage of the tests
    of the service. *)
Record MemoryStore := mkMemoryStore {
  stored_messages : list Message;
  stored_members : list SpaceMember;
}.

#[global] Instance memoryStorage : StorageAdapter MemoryStore := {|
  getMessages st spaceId channelId limit :=
    (Ok (firstn (Z.to_nat limit) (stored_messages st)), st);
  getMessage st spaceId channelId messageId :=
    (Ok (List.find (fun m => String.eqb (m_messageId m) messageId) (stored_messages st)),
     st);
  saveMessage st message lastMessageTimestamp address conversationType icon displayName :=
    (Ok tt,
     mkMemoryStore
       (List.filter (fun m => negb (String.eqb (m_messageId m) (m_messageId message)))
          (stored_messages st) ++ [message])
       (stored_members st));
  deleteMessage st messageId :=
    (Ok tt,
     mkMemoryStore
       (List.filter (fun m => negb (String.eqb (m_messageId m) messageId))
          (stored_messages st))
       (stored_members st));
  getSpaceMembers st spaceId := (Ok (stored_members st), st);
  saveSpaceMember st spaceId member :=
    (Ok tt,
     mkMemoryStore (stored_messages st)
       (List.filter (fun m => negb (String.eqb (sm_address m) (sm_address member)))
          (stored_members st) ++ [member]));
|}.

(** The cache built from one message. *)
Definition sampleCache : SyncPayloadCache :=
  buildPayloadCache sampleSha256 "space-1" "channel-1" [sampleMessage "msg1" 1000] [].

(** A service over a store of two messages, the second with a reaction, and
    one member; the cache is not loaded yet. *)
Definition sampleService : SyncService MemoryStore :=
  {| storage :=
       mkMemoryStore [sampleMessage "msg1" 1000; sampleReactedMessage "msg2" 2000]
         [sampleMember "addr1"];
     maxMessages := 1000;
     requestExpiry := DEFAULT_SYNC_EXPIRY_MS;
     sessions := ∅;
     tombstones := [];
     payloadCache := ∅ |}.

(** The manifest of a peer that has no message. *)
Definition emptyManifest : SyncManifest :=
  {| sman_spaceId := "space-1"; sman_channelId := "channel-1";
     sman_messageCount := 0; sman_oldestTimestamp := Num 0;
     sman_newestTimestamp := 0; sman_digests := []; sman_reactionDigests := [] |}.

(** The final payload [buildSyncDelta] sends when there is nothing to send,
    with the peer-map part left open. *)
Definition finalWithoutSpace (peers : option PeerMapDelta) : SyncDeltaPayload :=
  {| messageDelta := None; reactionDelta := None; memberDelta := None;
     peerMapDelta := peers; isFinal := Some true |}.

(** A tombstone of the sample space and channel. *)
Definition sampleTombstone : DeletedMessageTombstone :=
  {| ts_messageId := "msg0"; ts_spaceId := "space-1"; ts_channelId := "channel-1";
     ts_deletedAt := 500 |}.

(** The cache [sampleService] loads on first access. *)
Definition sampleLoadedCache : SyncPayloadCache :=
  buildPayloadCache sampleSha256 "space-1" "channel-1"
    (stored_messages (storage sampleService)) (stored_members (storage sampleService)).

(** A first sync towards a peer that has nothing: both messages and the
    member are sent. *)
Definition sampleDeltaRun : Result (list SyncDeltaPayload) * SyncService MemoryStore :=
  buildSyncDelta sampleSha256 sampleJsonLength "space-1" "channel-1" emptyManifest
    [] [] [] sampleService.

Definition samplePayloads : list SyncDeltaPayload :=
  match fst sampleDeltaRun with
  | Ok payloads => payloads
  | Err _ => []
  end.

(** A sync towards a peer that has the same messages, by a service that
    holds a tombstone of the space and channel. *)
Definition sampleQuietRun : Result (list SyncDeltaPayload) * SyncService MemoryStore :=
  buildSyncDelta sampleSha256 sampleJsonLength "space-1" "channel-1"
    (getManifest sampleSha256 sampleLoadedCache) [] [] []
    (addTombstone sampleService sampleTombstone).

Definition sampleQuietPayloads : list SyncDeltaPayload :=
  match fst sampleQuietRun with
  | Ok payloads => payloads
  | Err _ => []
  end.

(** The sample service after it has asked for a sync of its channel: it
    holds a session for the space. *)
Definition sampleRequester : SyncService MemoryStore :=
  snd (buildSyncRequest sampleSha256 0 "space-1" "channel-1" "inbox-requester"
         sampleService).

(** The answer of a peer with the same messages and the same member to the
    manifest of the requester. *)
Definition sampleInSyncRun : Result (list SyncDeltaPayload) * SyncService MemoryStore :=
  buildSyncDelta sampleSha256 sampleJsonLength "space-1" "channel-1"
    (getManifest sampleSha256 sampleLoadedCache) (getMemberDigests sampleLoadedCache)
    [] [] sampleService.

(** A method of the service that leaves the sessions alone. *)
Definition keepsSessions {St A : Type} (m : M St A) : Prop :=
  forall svc r svc', m svc = (r, svc') -> sessions svc' = sessions svc.

(** * More of the sync code *)

(** ** Encoding ([src/utils/encoding.ts]) *)

(** The value of a hexadecimal digit. *)
Definition hexDigitValue (c : ascii) : option Z :=
  let n := Z.of_N (N_of_ascii c) in
  if (48 <=? n) && (n <=? 57) then Some (n - 48)
  else if (97 <=? n) && (n <=? 102) then Some (n - 87)
  else if (65 <=? n) && (n <=? 70) then Some (n - 55)
  else None.

(** The white space [parseInt] skips, among the ASCII characters. *)
Definition isWhiteSpace (c : ascii) : bool :=
  let n := N_of_ascii c in
  ((9 <=? n) && (n <=? 13))%N || (n =? 32)%N.

Fixpoint skipWhiteSpace (s : list ascii) : list ascii :=
  match s with
  | c :: s' => if isWhiteSpace c then skipWhiteSpace s' else s
  | [] => []
  end.

(** The number the longest prefix of hexadecimal digits of [s] denotes after
    the digits of value [acc]; [seen] tells whether a digit was read. *)
Fixpoint hexDigits (s : list ascii) (seen : bool) (acc : Z) : option Z :=
  match s with
  | c :: s' =>
      match hexDigitValue c with
      | Some d => hexDigits s' true (16 * acc + d)
      | None => if seen then Some acc else None
      end
  | [] => if seen then Some acc else None
  end.

(** [parseInt(s, 16)] on a string of ASCII characters: leading white space, a
    sign, a [0x] or [0X] prefix, then the longest run of hexadecimal digits.
    [None] is [NaN]. *)
Definition parseInt16 (s : list ascii) : option Z :=
  let s := skipWhiteSpace s in
  let '(negative, s) :=
    match s with
    | "-"%char :: s' => (true, s')
    | "+"%char :: s' => (false, s')
    | _ => (false, s)
    end in
  let s :=
    match s with
    | "0"%char :: "x"%char :: s' => s'
    | "0"%char :: "X"%char :: s' => s'
    | _ => s
    end in
  match hexDigits s false 0 with
  | Some n => Some (if negative then - n else n)
  | None => None
  end.

(** The pieces [hex.substr(i, 2)] for [i = 0, 2, 4, ...]. *)
Fixpoint pairsOf (s : list ascii) : list (list ascii) :=
  match s with
  | a :: b :: s' => [a; b] :: pairsOf s'
  | [a] => [[a]]
  | [] => []
  end.

(** Convert a hex string to a byte array; an element [None] is a [NaN]. *)
Definition hexToBytes (hex : string) : list (option Z) :=
  let cleanHex :=
    match list_ascii_of_string hex with
    | "0"%char :: "x"%char :: rest => rest
    | all => all
    end in
  map parseInt16 (pairsOf cleanHex).

(** Convert a number to an 8-byte big-endian array (int64):
    [setBigInt64(0, BigInt(num), false)] stores the 64 low bits of the two's
    complement of [num], the high byte first. *)
Definition int64ToBytes (num : Z) : list Z :=
  map (fun i => Z.land (Z.shiftr (num mod 2 ^ 64) (8 * (7 - Z.of_nat i))) 255) (seq 0 8).

(** ** More sync utilities ([src/sync/utils.ts]) *)

Section MemberChunking.
(** [JSON.stringify(member).length] *)
Variable memberJsonLength : SpaceMember -> Z.

(** The body of the [for] loop of [chunkMembers]. *)
Definition chunkMembersStep (st : list (list SpaceMember) * list SpaceMember * Z)
    (member : SpaceMember) : list (list SpaceMember) * list SpaceMember * Z :=
  let '(chunks, currentChunk, currentSize) := st in
  let memberSize := memberJsonLength member in
  let '(chunks, currentChunk, currentSize) :=
    if (currentSize + memberSize >? MAX_CHUNK_SIZE) && nonEmpty currentChunk
    then (push chunks currentChunk, [], 0)
    else (chunks, currentChunk, currentSize) in
  (chunks, push currentChunk member, currentSize + memberSize).

(** Chunk members for transmission *)
Definition chunkMembers (members : list SpaceMember) : list (list SpaceMember) :=
  let '(chunks, currentChunk, _) := fold_left chunkMembersStep members ([], [], 0) in
  if nonEmpty currentChunk then push chunks currentChunk else chunks.
End MemberChunking.

Record ReactionDiffResult := mkReactionDiffResult {
  toAdd : list ReactionChange;
  toRemove : list ReactionChange;
}.

Section MoreHashing.
Variable sha256 : list Z -> list Z.

(** Create manifest from messages *)
Definition createManifest (spaceId channelId : string) (messages : list Message)
    : SyncManifest :=
  let sorted := sortBy (fun a b => m_createdDate a - m_createdDate b) messages in
  let digests := map (createMessageDigest sha256) sorted in
  let reactionDigests :=
    fold_left
      (fun reactionDigests msg =>
         match m_reactions msg with
         | Some (_ :: _) =>
             pushAll reactionDigests
               (createReactionDigest sha256 (m_messageId msg) (m_reactions msg))
         | _ => reactionDigests
         end)
      sorted [] in
  {| sman_spaceId := spaceId;
     sman_channelId := channelId;
     sman_messageCount := Z.of_nat (length messages);
     sman_oldestTimestamp := Num (or_number (m_createdDate <$> list.head sorted) 0);
     sman_newestTimestamp := or_number (m_createdDate <$> list.last sorted) 0;
     sman_digests := digests;
     sman_reactionDigests := reactionDigests |}.

(** Compare reaction digests and determine differences. Neither loop pushes
    to [toAdd] or [toRemove]: the body of the inner loop ends in a
    [continue] or in an [if] without statements. *)
Definition computeReactionDiff (ourReactions : JsMap string (list Reaction))
    (theirDigests : list ReactionDigest) : ReactionDiffResult :=
  let theirByMessage :=
    fold_left
      (fun (theirByMessage : JsMap string (list ReactionDigest)) digest =>
         let existing := default [] (JsMap.get theirByMessage (rd_messageId digest)) in
         JsMap.set theirByMessage (rd_messageId digest) (push existing digest))
      theirDigests [] in
  let '(toAdd, toRemove) :=
    fold_left
      (fun (acc : list ReactionChange * list ReactionChange)
           (entry : string * list ReactionDigest) =>
         let '(messageId, theirMsgDigests) := entry in
         let ourMsgReactions := default [] (JsMap.get ourReactions messageId) in
         let ourByEmoji :=
           JsMap.fromEntries (map (fun r => (r_emojiId r, r)) ourMsgReactions) in
         fold_left
           (fun (acc : list ReactionChange * list ReactionChange) theirDigest =>
              match JsMap.get ourByEmoji (rd_emojiId theirDigest) with
              | None => acc
              | Some ourReaction =>
                  let ourMembersHash :=
                    computeHash sha256
                      (join "," (sortBy defaultCompare (r_memberIds ourReaction))) in
                  if negb (String.eqb ourMembersHash (rd_membersHash theirDigest))
                  then acc
                  else acc
              end)
           theirMsgDigests acc)
      theirByMessage ([], []) in
  {| toAdd := toAdd; toRemove := toRemove |}.
End MoreHashing.

(** ** More of the service ([class SyncService]) *)

Record SyncInfoPayload := mkSyncInfoPayload {
  sinf_inboxAddress : string;
  sinf_summary : SyncSummary;
}.

Record SyncInitiatePayload := mkSyncInitiatePayload {
  sini_inboxAddress : string;
  sini_manifest : option SyncManifest;
  sini_memberDigests : option (list MemberDigest);
  sini_peerIds : option (list Z);
}.

Record SyncManifestPayload := mkSyncManifestPayload {
  smp_inboxAddress : string;
  smp_manifest : SyncManifest;
  smp_memberDigests : list MemberDigest;
  smp_peerIds : list Z;
}.

(** [a < b] on two numbers. *)
Definition ltNumbers (a b : number) : bool :=
  match a, b with
  | Num x, Num y => x <? y
  | Num _, Infinity => true
  | Infinity, _ => false
  end.

(** [a === b] on two optional strings. *)
Definition sameHash (a b : option string) : bool :=
  match a, b with
  | Some x, Some y => String.eqb x y
  | None, None => true
  | _, _ => false
  end.

(** The comparator of [selectBestCandidate]: message count descending, then
    member count. *)
Definition candidateCompare (a b : SyncCandidate) : Z :=
  let msgDiff :=
    sum_messageCount (cand_summary b) - sum_messageCount (cand_summary a) in
  if negb (msgDiff =? 0) then msgDiff
  else sum_memberCount (cand_summary b) - sum_memberCount (cand_summary a).

Definition withCandidates (session : SyncSession) (candidates : list SyncCandidate)
    : SyncSession :=
  {| ss_spaceId := ss_spaceId session; ss_channelId := ss_channelId session;
     ss_expiry := ss_expiry session; ss_candidates := candidates;
     ss_inProgress := ss_inProgress session; ss_syncTarget := ss_syncTarget session |}.

Definition withInProgress (session : SyncSession) (inProgress : bool) : SyncSession :=
  {| ss_spaceId := ss_spaceId session; ss_channelId := ss_channelId session;
     ss_expiry := ss_expiry session; ss_candidates := ss_candidates session;
     ss_inProgress := inProgress; ss_syncTarget := ss_syncTarget session |}.

Definition withSyncTarget (session : SyncSession) (target : string) : SyncSession :=
  {| ss_spaceId := ss_spaceId session; ss_channelId := ss_channelId session;
     ss_expiry := ss_expiry session; ss_candidates := ss_candidates session;
     ss_inProgress := ss_inProgress session; ss_syncTarget := Some target |}.

Section MoreService.
Variable sha256 : list Z -> list Z.
Context {St : Type} `{StorageAdapter St}.

Definition modifyService (f : SyncService St -> SyncService St) : M St unit :=
  fun svc => (Ok tt, f svc).

(** Invalidate cache for a space/channel. Without a channel (or with the
    empty string, which is as falsy) every cache whose key starts with
    [spaceId:] goes. *)
Definition invalidateCache (svc : SyncService St) (spaceId : string)
    (channelId : option string) : SyncService St :=
  if truthy channelId then
    withPayloadCache svc
      (delete (getCacheKey spaceId (or_string channelId "")) (payloadCache svc))
  else
    withPayloadCache svc
      (base.filter
         (fun entry : string * SyncPayloadCache =>
            String.prefix (spaceId +:+ ":") (fst entry) = false)
         (payloadCache svc)).

(** Check if cache exists for a space/channel *)
Definition hasCachedPayload (svc : SyncService St) (spaceId channelId : string) : bool :=
  bool_decide (is_Some (payloadCache svc !! getCacheKey spaceId channelId)).

(** Check if a sync session is active for a space; an expired one is
    deleted. [now] is what [Date.now()] returns. *)
Definition hasActiveSession (now : Z) (svc : SyncService St) (spaceId : string)
    : bool * SyncService St :=
  match sessions svc !! spaceId with
  | None => (false, svc)
  | Some session =>
      if now >? ss_expiry session
      then (false, withSessions svc (delete spaceId (sessions svc)))
      else (true, svc)
  end.

(** Check if sync is in progress for a space *)
Definition isSyncInProgress (svc : SyncService St) (spaceId : string) : bool :=
  match sessions svc !! spaceId with
  | Some session => ss_inProgress session
  | None => false
  end.

(** Mark sync as in progress *)
Definition setSyncInProgress (svc : SyncService St) (spaceId : string)
    (inProgress : bool) : SyncService St :=
  match sessions svc !! spaceId with
  | Some session =>
      withSessions svc (<[ spaceId := withInProgress session inProgress ]> (sessions svc))
  | None => svc
  end.

(** Set the sync target (who we're syncing with) *)
Definition setSyncTarget (svc : SyncService St) (spaceId targetInbox : string)
    : SyncService St :=
  match sessions svc !! spaceId with
  | Some session =>
      withSessions svc (<[ spaceId := withSyncTarget session targetInbox ]> (sessions svc))
  | None => svc
  end.

(** Get the sync target for a space *)
Definition getSyncTarget (svc : SyncService St) (spaceId : string) : option string :=
  match sessions svc !! spaceId with
  | Some session => ss_syncTarget session
  | None => None
  end.

(** Add candidate from sync-info response: what the call does to the
    candidates of the session. When the accepted candidate is the first and
    [onInitiateSync] is set, the source also calls [scheduleSyncInitiation],
    which starts a timer and keeps its handle in the session; timers and
    their handles are left out. *)
Definition addCandidate (now : Z) (svc : SyncService St) (spaceId : string)
    (candidate : SyncCandidate) : SyncService St :=
  match sessions svc !! spaceId with
  | None => svc
  | Some session =>
      if now >? ss_expiry session then svc
      else
        withSessions svc
          (<[ spaceId := withCandidates session (push (ss_candidates session) candidate) ]>
             (sessions svc))
  end.

(** Select best candidate based on data availability *)
Definition selectBestCandidate (svc : SyncService St) (spaceId : string)
    : option SyncCandidate :=
  match sessions svc !! spaceId with
  | None => None
  | Some session =>
      if (length (ss_candidates session) =? 0)%nat then None
      else list.head (sortBy candidateCompare (ss_candidates session))
  end.

(** Build sync-info response if we have useful data. *)
Definition buildSyncInfo (spaceId channelId inboxAddress : string)
    (theirSummary : SyncSummary) : M St (option SyncInfoPayload) :=
  let! cache := getPayloadCache sha256 spaceId channelId in
  let ourSummary := getSummary cache in
  if (JsMap.size (messageMap cache) =? 0) && (JsMap.size (memberMap cache) =? 0)
  then ret None
  else if sameHash (sum_manifestHash ourSummary) (sum_manifestHash theirSummary)
          && (sum_memberCount ourSummary =? sum_memberCount theirSummary)
  then ret None
  else
    let hasMoreMessages :=
      sum_messageCount ourSummary >? sum_messageCount theirSummary in
    let hasMoreMembers :=
      sum_memberCount ourSummary >? sum_memberCount theirSummary in
    let hasNewerMessages :=
      sum_newestMessageTimestamp ourSummary >? sum_newestMessageTimestamp theirSummary in
    let hasOlderMessages :=
      ltNumbers (sum_oldestMessageTimestamp ourSummary)
        (sum_oldestMessageTimestamp theirSummary) in
    let hasDifferentMessages :=
      negb (sameHash (sum_manifestHash ourSummary) (sum_manifestHash theirSummary)) in
    if negb hasMoreMessages && negb hasMoreMembers && negb hasNewerMessages
       && negb hasOlderMessages && negb hasDifferentMessages
    then ret None
    else ret (Some {| sinf_inboxAddress := inboxAddress; sinf_summary := ourSummary |}).

(** Build sync-initiate payload for selected peer *)
Definition buildSyncInitiate (spaceId channelId inboxAddress : string)
    (peerIds : list Z) : M St (option (string * SyncInitiatePayload)) :=
  let! svc := getService in
  match selectBestCandidate svc spaceId with
  | None =>
      do! setSessions (delete spaceId (sessions svc)) in
      ret None
  | Some candidate =>
      let! cache := getPayloadCache sha256 spaceId channelId in
      do! modifyService (fun svc => setSyncInProgress svc spaceId true) in
      do! modifyService
            (fun svc => setSyncTarget svc spaceId (cand_inboxAddress candidate)) in
      ret (Some (cand_inboxAddress candidate,
                 {| sini_inboxAddress := inboxAddress;
                    sini_manifest := Some (getManifest sha256 cache);
                    sini_memberDigests := Some (getMemberDigests cache);
                    sini_peerIds := Some peerIds |}))
  end.

(** Build sync-manifest response to sync-initiate *)
Definition buildSyncManifest (spaceId channelId : string) (peerIds : list Z)
    (inboxAddress : string) : M St SyncManifestPayload :=
  let! cache := getPayloadCache sha256 spaceId channelId in
  ret {| smp_inboxAddress := inboxAddress;
         smp_manifest := getManifest sha256 cache;
         smp_memberDigests := getMemberDigests cache;
         smp_peerIds := peerIds |}.

(** Get all tombstones (for persistence by caller) *)
Definition getTombstones (svc : SyncService St) : list DeletedMessageTombstone :=
  tombstones svc.

(** Load tombstones (from caller's persistence) *)
Definition loadTombstones (svc : SyncService St)
    (loaded : list DeletedMessageTombstone) : SyncService St :=
  mkSyncService (storage svc) (maxMessages svc) (requestExpiry svc) (sessions svc)
    loaded (payloadCache svc).

(** Clean up old tombstones; [maxAgeMs] defaults to 30 days. *)
Definition cleanupTombstones (now : Z) (svc : SyncService St) (maxAgeMs : Z)
    : SyncService St :=
  let cutoff := now - maxAgeMs in
  loadTombstones svc (List.filter (fun t => ts_deletedAt t >? cutoff) (tombstones svc)).

(** Clean up expired sessions *)
Definition cleanupSessions (now : Z) (svc : SyncService St) : SyncService St :=
  withSessions svc
    (base.filter (fun entry : string * SyncSession => ~ (now > ss_expiry (snd entry)))
       (sessions svc)).
End MoreService.

(** * Vocabulary of the further properties *)

(** An operation on a payload cache. *)
Inductive CacheOp :=
| OpMessage (message : Message)
| OpRemove (messageId : string)
| OpMember (member : SpaceMember).

Definition applyCacheOp (sha256 : list Z -> list Z) (cached : SyncPayloadCache)
    (op : CacheOp) : SyncPayloadCache :=
  match op with
  | OpMessage message => updateCacheWithMessageIn sha256 cached message
  | OpRemove messageId => removeCacheMessageIn sha256 cached messageId
  | OpMember member => updateCacheWithMemberIn sha256 cached member
  end.

(** The XOR of the hashes of the given message IDs, from 32 zero bytes. *)
Definition xorOfIds (sha256 : list Z -> list Z) (ids : list string) : list Z :=
  fold_left xorIntoHash (map (hashMessageId sha256) ids) (repeat 0 32).

(** The maps of a cache agree: digests and messages have the same keys, in
    the same order and without repetition, every message is filed under its
    own ID next to its digest, and likewise for the members. *)
Definition mapsAgree (sha256 : list Z -> list Z) (cache : SyncPayloadCache) : Prop :=
  JsMap.keys (digestMap cache) = JsMap.keys (messageMap cache) /\
  JsMap.keys (memberDigestMap cache) = JsMap.keys (memberMap cache) /\
  NoDup (JsMap.keys (messageMap cache)) /\
  NoDup (JsMap.keys (memberMap cache)) /\
  (forall id message,
     JsMap.get (messageMap cache) id = Some message ->
     m_messageId message = id /\
     JsMap.get (digestMap cache) id = Some (createMessageDigest sha256 message)) /\
  (forall address member,
     JsMap.get (memberMap cache) address = Some member ->
     sm_address member = address /\
     JsMap.get (memberDigestMap cache) address = Some (createMemberDigest sha256 member)).

(** The boundary timestamps enclose the dates of creation of the messages
    held. *)
Definition timestampsEnclose (cache : SyncPayloadCache) : Prop :=
  exists oldest,
    oldestTimestamp cache = Num oldest /\
    forall message,
      In message (JsMap.values (messageMap cache)) ->
      oldest <= m_createdDate message <= newestTimestamp cache.

(** Candidate [c] offers no more than candidate [best]: fewer messages, or
    as many messages and no more members. *)
Definition offersNoMore (c best : SyncCandidate) : Prop :=
  sum_messageCount (cand_summary c) < sum_messageCount (cand_summary best) \/
  (sum_messageCount (cand_summary c) = sum_messageCount (cand_summary best) /\
   sum_memberCount (cand_summary c) <= sum_memberCount (cand_summary best)).

(** Candidate [c] offers less than candidate [best]. *)
Definition offersLess (c best : SyncCandidate) : Prop :=
  sum_messageCount (cand_summary c) < sum_messageCount (cand_summary best) \/
  (sum_messageCount (cand_summary c) = sum_messageCount (cand_summary best) /\
   sum_memberCount (cand_summary c) < sum_memberCount (cand_summary best)).

Definition sampleCandidate (inbox : string) (messageCount memberCount : Z)
    : SyncCandidate :=
  {| cand_inboxAddress := inbox;
     cand_summary :=
       {| sum_memberCount := memberCount; sum_messageCount := messageCount;
          sum_newestMessageTimestamp := 0; sum_oldestMessageTimestamp := Num 0;
          sum_manifestHash := None |} |}.

(** The requester after three peers have answered in time: the second and
    the third offer the same, and more than the first. *)
Definition sampleCollecting : SyncService MemoryStore :=
  addCandidate 10
    (addCandidate 10
       (addCandidate 10 sampleRequester "space-1" (sampleCandidate "inbox-a" 3 9))
       "space-1" (sampleCandidate "inbox-b" 5 2))
    "space-1" (sampleCandidate "inbox-c" 5 2).

Section MemberChunkVocabulary.
Variable memberJsonLength : SpaceMember -> Z.

(** The serialised size of a chunk of members. *)
Definition memberChunkSize (chunk : list SpaceMember) : Z :=
  fold_right (fun m acc => memberJsonLength m + acc) 0 chunk.

(** A finished chunk of members is not empty, and holds one member or
    members that fit the limit together. *)
Definition goodMemberChunk (chunk : list SpaceMember) : Prop :=
  chunk <> [] /\
  ((exists m, chunk = [m]) \/ memberChunkSize chunk <= MAX_CHUNK_SIZE).

(** Each chunk but the last was closed because the first member of the next
    one did not fit. *)
Fixpoint greedyChunks (chunks : list (list SpaceMember)) : Prop :=
  match chunks with
  | chunk :: rest =>
      match rest with
      | next :: _ =>
          match next with
          | m :: _ => memberChunkSize chunk + memberJsonLength m > MAX_CHUNK_SIZE
          | [] => True
          end
      | [] => True
      end /\ greedyChunks rest
  | [] => True
  end.

(** The invariant of the loop of [chunkMembers], after the members [done]
    have been walked. *)
Definition memberChunkInv (done : list SpaceMember)
    (st : list (list SpaceMember) * list SpaceMember * Z) : Prop :=
  let '(chunks, currentChunk, currentSize) := st in
  concat chunks ++ currentChunk = done /\
  Forall goodMemberChunk chunks /\
  currentSize = memberChunkSize currentChunk /\
  ((currentChunk = [] /\ chunks = []) \/ goodMemberChunk currentChunk) /\
  greedyChunks (chunks ++ [currentChunk]).

End MemberChunkVocabulary.

(** ** Member diffs *)

(** The digest a list of member digests holds for an address: the last one,
    as in the [Map] built from them. *)
Definition memberDigestFor (digests : list MemberDigest) (address : string)
    : option MemberDigest :=
  List.find (fun d => String.eqb (mbd_address d) address) (rev digests).

Definition memberDigestEntries (digests : list MemberDigest)
    : list (string * MemberDigest) :=
  JsMap.fromEntries (map (fun d => (mbd_address d, d)) digests).

Definition memberIsMissing (ourMap : list (string * MemberDigest))
    (entry : string * MemberDigest) : bool :=
  negb (JsMap.has ourMap (fst entry)).

Definition memberIsOutdated (ourMap : list (string * MemberDigest))
    (entry : string * MemberDigest) : bool :=
  match JsMap.get ourMap (fst entry) with
  | Some ourDigest =>
      negb (String.eqb (mbd_displayNameHash ourDigest) (mbd_displayNameHash (snd entry)))
      || negb (String.eqb (mbd_iconHash ourDigest) (mbd_iconHash (snd entry)))
  | None => false
  end.

(** ** The payloads of [buildSyncDelta] *)

(** The new and the updated messages a payload carries. *)
Definition newMessagesOf (p : SyncDeltaPayload) : list Message :=
  match messageDelta p with
  | Some delta => mdl_newMessages delta
  | None => []
  end.

Definition updatedMessagesOf (p : SyncDeltaPayload) : list Message :=
  match messageDelta p with
  | Some delta => mdl_updatedMessages delta
  | None => []
  end.

(** The IDs of the tombstones of a channel, oldest first. *)
Definition channelTombstoneIds (tombstones : list DeletedMessageTombstone)
    (spaceId channelId : string) : list string :=
  map ts_messageId
    (List.filter
       (fun t => String.eqb (ts_spaceId t) spaceId && String.eqb (ts_channelId t) channelId)
       tombstones).

Section DeltaVocabulary.
Variable sha256 : list Z -> list Z.
Variable jsonLength : Message -> Z.

(** The payloads [buildSyncDelta] makes of the message chunks, before the
    trailing payload is decided. *)
Definition chunkPayloadsOf (cache : SyncPayloadCache)
    (tombstones : list DeletedMessageTombstone) (spaceId channelId : string)
    (theirManifest : SyncManifest) : list SyncDeltaPayload :=
  let messageDiff := computeMessageDiff (getManifest sha256 cache) theirManifest in
  let messageDelta :=
    buildMessageDelta spaceId channelId messageDiff (messageMap cache) tombstones in
  let reactionDelta :=
    buildReactionDelta spaceId channelId (messageMap cache)
      (extraIds messageDiff ++ outdatedIds messageDiff) in
  let allMessages := mdl_newMessages messageDelta ++ mdl_updatedMessages messageDelta in
  if nonEmpty allMessages then
    imap (chunkPayload spaceId channelId messageDiff messageDelta reactionDelta
            (chunkMessages jsonLength allMessages))
      (chunkMessages jsonLength allMessages)
  else [].

(** A member of ours has to be sent to a peer: the peer has no digest for
    its address, or one with another hash of the display name or the icon. *)
Definition memberToSend (theirMemberDigests : list MemberDigest) (member : SpaceMember)
    : Prop :=
  ~ In (sm_address member) (map mbd_address theirMemberDigests) \/
  exists theirDigest,
    memberDigestFor theirMemberDigests (sm_address member) = Some theirDigest /\
    (mbd_displayNameHash theirDigest <>
       mbd_displayNameHash (createMemberDigest sha256 member) \/
     mbd_iconHash theirDigest <> mbd_iconHash (createMemberDigest sha256 member)).

End DeltaVocabulary.

Definition samplePeer (peerId : Z) : PeerEntry :=
  {| pe_peerId := peerId; pe_publicKey := "key"; pe_identityPublicKey := None;
     pe_signedPrePublicKey := None |}.

(** A sync towards a peer that knows the peers 1 and 2, by a service that
    knows the peers 2 and 3. *)
Definition samplePeerRun : Result (list SyncDeltaPayload) * SyncService MemoryStore :=
  buildSyncDelta sampleSha256 sampleJsonLength "space-1" "channel-1" emptyManifest
    [] [1; 2] [(2, samplePeer 2); (3, samplePeer 3)] sampleService.

Definition samplePeerPayloads : list SyncDeltaPayload :=
  match fst samplePeerRun with
  | Ok payloads => payloads
  | Err _ => []
  end.

(** A first sync towards a peer that has nothing, by a service that holds a
    tombstone of the channel: two message chunks and the member. *)
Definition sampleDeletionRun : Result (list SyncDeltaPayload) * SyncService MemoryStore :=
  buildSyncDelta sampleSha256 sampleJsonLength "space-1" "channel-1" emptyManifest
    [] [] [] (addTombstone sampleService sampleTombstone).

Definition sampleDeletionPayloads : list SyncDeltaPayload :=
  match fst sampleDeletionRun with
  | Ok payloads => payloads
  | Err _ => []
  end.

(** ** Frames *)

(** A method of the service that changes nothing but the store. *)
Definition onlyStorage {St A : Type} (m : M St A) : Prop :=
  forall svc r svc', m svc = (r, svc') -> svc' = withStorage svc (storage svc').

(** The space a delta names, if it names one: the space of its message
    delta, or else of its member delta, an empty ID counting for none. *)
Definition deltaSpaceId (delta : SyncDeltaPayload) : option string :=
  let ofMembers :=
    match memberDelta delta with
    | Some members =>
        if String.eqb (mbl_spaceId members) "" then None else Some (mbl_spaceId members)
    | None => None
    end in
  match messageDelta delta with
  | Some messages =>
      if String.eqb (mdl_spaceId messages) "" then ofMembers
      else Some (mdl_spaceId messages)
  | None => ofMembers
  end.

(** The session [buildSyncRequest] opens. *)
Definition freshSession (spaceId channelId : string) (expiry : Z) : SyncSession :=
  {| ss_spaceId := spaceId; ss_channelId := channelId; ss_expiry := expiry;
     ss_candidates := []; ss_inProgress := false; ss_syncTarget := None |}.

(** The arrival of a sync-info answer: [addCandidate] at the time the clock
    shows. *)
Definition candidateArrives {St : Type} (spaceId : string) (svc : SyncService St)
    (arrival : Z * SyncCandidate) : SyncService St :=
  addCandidate (fst arrival) svc spaceId (snd arrival).

(** The sample service on its first look at the cache of its channel. *)
Definition sampleLoadRun : Result SyncPayloadCache * SyncService MemoryStore :=
  getPayloadCache sampleSha256 "space-1" "channel-1" sampleService.

(** The request of [sampleRequester]. *)
Definition sampleRequestRun : Result SyncRequestPayload * SyncService MemoryStore :=
  buildSyncRequest sampleSha256 0 "space-1" "channel-1" "inbox-requester" sampleService.

(** The requester picks one of the three peers that answered. *)
Definition sampleInitiateRun
    : Result (option (string * SyncInitiatePayload)) * SyncService MemoryStore :=
  buildSyncInitiate sampleSha256 "space-1" "channel-1" "inbox-requester" [1; 2]
    sampleCollecting.

(** The requester applies the last payload of [samplePayloads], which is
    final and carries the member of the space. *)
Definition sampleApplyRun : Result unit * SyncService MemoryStore :=
  applySyncDelta (nth 2 samplePayloads (finalWithoutSpace None)) sampleRequester.

(** ** Cache keys *)

(** A string without [:]. *)
Fixpoint colonFree (s : string) : bool :=
  match s with
  | EmptyString => true
  | String c s' => negb (Ascii.eqb c ":"%char) && colonFree s'
  end.

(** ** Answering a request *)

(** The summary of a peer that holds nothing. *)
Definition emptySummary : SyncSummary :=
  getSummary (buildPayloadCache sampleSha256 "space-1" "channel-1" [] []).

(** The sample service answers the request of a peer that holds nothing. *)
Definition sampleInfoRun : Result (option SyncInfoPayload) * SyncService MemoryStore :=
  buildSyncInfo sampleSha256 "space-1" "channel-1" "inbox-peer" emptySummary sampleService.

(** ** Reactions *)

(** Two reactions that differ in the order of their members at most. *)
Definition sameReaction (r r' : Reaction) : Prop :=
  r_emojiId r = r_emojiId r' /\ r_count r = r_count r' /\
  Permutation (r_memberIds r) (r_memberIds r').

Definition sampleReaction (memberIds : list string) : Reaction :=
  {| r_emojiId := "thumbs-up"; r_spaceId := "space-1"; r_emojiName := "thumbs-up";
     r_count := Z.of_nat (length memberIds); r_memberIds := memberIds |}.

(** ** Hexadecimal strings *)

(** The two characters [bytesToHex] writes for a byte. *)
Definition hexPair (b : Z) : string := padStart 2 "0"%char (toString16 b).

(** A byte is written as two characters that [parseInt] reads back, the
    second of which is not an [x]. *)
Definition hexPairReadsBack (b : Z) : bool :=
  match list_ascii_of_string (hexPair b) with
  | [c1; c2] =>
      match parseInt16 [c1; c2] with
      | Some n => (n =? b) && negb (Ascii.eqb c2 "x"%char)
      | None => false
      end
  | _ => false
  end.

(** The first reaction of a message with the emoji of a change. *)
Definition reactionFor (message : Message) (change : ReactionChange) : option Reaction :=
  List.find (fun r => String.eqb (r_emojiId r) (rc_emojiId change))
    (default [] (m_reactions message)).

(** The reactions of a message with another emoji than that of a change. *)
Definition otherReactions (message : Message) (change : ReactionChange) : list Reaction :=
  List.filter (fun r => negb (String.eqb (r_emojiId r) (rc_emojiId change)))
    (default [] (m_reactions message)).

(** An addition that lists a member twice. *)
Definition sampleDoubleAddition : ReactionChange :=
  {| rc_messageId := "msg1"; rc_emojiId := "heart"; rc_memberIds := ["addr1"; "addr1"] |}.

(** ** Timestamps as bytes *)

(** The number a sequence of bytes denotes, the high byte first. *)
Definition bigEndian (bytes : list Z) : Z :=
  fold_left (fun acc b => 256 * acc + b) bytes 0.

(** * Properties *)

(** ** Insertion-ordered maps *)

Module JsMapFacts.
Section JsMapFacts.
Context {K V : Type} `{EqDecision K}.
Implicit Types (m : list (K * V)) (k : K) (v : V).

Lemma get_set_eq m k v : JsMap.get (JsMap.set m k v) k = Some v.
Proof.
  induction m as [|[k' v'] m IH]; simpl.
  - destruct (decide (k = k)); congruence.
  - destruct (decide (k' = k)); simpl.
    + destruct (decide (k = k)); congruence.
    + destruct (decide (k' = k)); congruence.
Qed.

Lemma get_set_ne m k k' v :
  k <> k' -> JsMap.get (JsMap.set m k v) k' = JsMap.get m k'.
Proof.
  intros Hne. induction m as [|[k0 v0] m IH]; simpl.
  - destruct (decide (k = k')); congruence.
  - destruct (decide (k0 = k)) as [->|]; simpl.
    + destruct (decide (k = k')); congruence.
    + destruct (decide (k0 = k')); congruence.
Qed.

Lemma get_None_keys m k : JsMap.get m k = None <-> ~ In k (JsMap.keys m).
Proof.
  induction m as [|[k' v'] m IH]; simpl.
  - tauto.
  - destruct (decide (k' = k)).
    + split; [discriminate | tauto].
    + rewrite IH. tauto.
Qed.

Lemma get_Some_keys m k : is_Some (JsMap.get m k) <-> In k (JsMap.keys m).
Proof.
  pose proof (get_None_keys m k) as Hn.
  destruct (JsMap.get m k) as [v|] eqn:Hg.
  - split; [intros _ | intros _; eexists; reflexivity].
    destruct (in_dec (fun a b => decide (a = b)) k (JsMap.keys m)) as [Hin|Hin];
      [assumption|].
    apply Hn in Hin. discriminate.
  - split; [intros [v Hv]; discriminate|].
    intros Hin. exfalso. apply Hn; [reflexivity | assumption].
Qed.

Lemma has_true m k : JsMap.has m k = true <-> In k (JsMap.keys m).
Proof.
  unfold JsMap.has. rewrite <- get_Some_keys.
  destruct (JsMap.get m k); split; intros Hx;
    try discriminate; try reflexivity; try (eexists; reflexivity).
  destruct Hx; discriminate.
Qed.

Lemma has_false m k : JsMap.has m k = false <-> JsMap.get m k = None.
Proof. unfold JsMap.has. destruct (JsMap.get m k); split; congruence. Qed.

Lemma keys_set m k v :
  JsMap.keys (JsMap.set m k v) =
  if JsMap.has m k then JsMap.keys m else JsMap.keys m ++ [k].
Proof.
  unfold JsMap.has. induction m as [|[k' v'] m IH]; simpl; [reflexivity|].
  destruct (decide (k' = k)) as [->|]; simpl; [reflexivity|].
  rewrite IH. destruct (JsMap.get m k); reflexivity.
Qed.

Lemma NoDup_keys_set m k v :
  NoDup (JsMap.keys m) -> NoDup (JsMap.keys (JsMap.set m k v)).
Proof.
  intros Hnd. rewrite keys_set. destruct (JsMap.has m k) eqn:Hh; [assumption|].
  apply has_false, get_None_keys in Hh.
  apply NoDup_app; [assumption | repeat constructor; simpl; tauto |].
  intros x Hx [<-|[]]. contradiction.
Qed.

Lemma in_keys_set m k v k' :
  In k' (JsMap.keys (JsMap.set m k v)) <-> k' = k \/ In k' (JsMap.keys m).
Proof.
  rewrite keys_set. destruct (JsMap.has m k) eqn:Hh.
  - apply has_true in Hh. split; [tauto|]. intros [->|]; assumption.
  - rewrite in_app_iff. simpl. intuition congruence.
Qed.

(** [new Map(entries)] holds, for a key, the last entry given for it. *)
Lemma get_fold_set (entries : list (K * V)) m k :
  JsMap.get (fold_left (fun m e => JsMap.set m (fst e) (snd e)) entries m) k =
  match JsMap.get (rev entries) k with
  | Some v => Some v
  | None => JsMap.get m k
  end.
Proof.
  revert m. induction entries as [|[k' v'] entries IH]; intros m; simpl.
  - reflexivity.
  - rewrite IH. clear IH.
    assert (Happ : forall (a b : list (K * V)),
               JsMap.get (a ++ b) k =
               match JsMap.get a k with Some v => Some v | None => JsMap.get b k end).
    { induction a as [|[ka va] a IHa]; intros b; simpl; [reflexivity|].
      destruct (decide (ka = k)); [reflexivity | apply IHa]. }
    rewrite Happ. destruct (JsMap.get (rev entries) k); [reflexivity|].
    simpl. destruct (decide (k' = k)) as [->|Hne].
    + apply get_set_eq.
    + apply get_set_ne. assumption.
Qed.

Lemma get_fromEntries (entries : list (K * V)) k :
  JsMap.get (JsMap.fromEntries entries) k = JsMap.get (rev entries) k.
Proof.
  unfold JsMap.fromEntries. rewrite get_fold_set.
  destruct (JsMap.get (rev entries) k); reflexivity.
Qed.

Lemma NoDup_keys_fromEntries (entries : list (K * V)) : NoDup (JsMap.keys (JsMap.fromEntries entries)).
Proof.
  unfold JsMap.fromEntries.
  assert (Hgen : forall m, NoDup (JsMap.keys m) ->
            NoDup (JsMap.keys (fold_left (fun m e => JsMap.set m (fst e) (snd e)) entries m))).
  { induction entries as [|e entries IH]; intros m Hm; simpl; [assumption|].
    apply IH, NoDup_keys_set, Hm. }
  apply Hgen. constructor.
Qed.

Lemma in_keys_fromEntries (entries : list (K * V)) k :
  In k (JsMap.keys (JsMap.fromEntries entries)) <-> In k (map fst entries).
Proof.
  rewrite <- get_Some_keys, get_fromEntries, get_Some_keys.
  unfold JsMap.keys. rewrite map_rev, <- in_rev. reflexivity.
Qed.

(** With distinct keys, the entries of a map are its lookups. *)
Lemma in_get m k v :
  NoDup (JsMap.keys m) -> In (k, v) m <-> JsMap.get m k = Some v.
Proof.
  induction m as [|[k' v'] m IH]; simpl; intros Hnd.
  - split; [tauto | discriminate].
  - apply NoDup_cons_iff in Hnd as [Hnotin Hnd].
    destruct (decide (k' = k)) as [->|Hne].
    + split.
      * intros [Heq|Hin]; [congruence|].
        exfalso. apply Hnotin.
        apply (in_map fst) in Hin. exact Hin.
      * intros [= ->]. left. reflexivity.
    + rewrite <- (IH Hnd). split.
      * intros [Heq|Hin]; [congruence | assumption].
      * tauto.
Qed.

Lemma get_delete_eq m k : JsMap.get (JsMap.delete m k) k = None.
Proof.
  apply get_None_keys. unfold JsMap.delete, JsMap.keys.
  rewrite in_map_iff. intros [[k' v'] [Hk Hin]]. simpl in Hk. subst k'.
  apply List.filter_In in Hin as [_ Hin]. simpl in Hin.
  rewrite bool_decide_eq_true_2 in Hin by reflexivity. discriminate.
Qed.

Lemma get_delete_ne m k k' :
  k <> k' -> JsMap.get (JsMap.delete m k) k' = JsMap.get m k'.
Proof.
  intros Hne. unfold JsMap.delete.
  induction m as [|[k0 v0] m IH]; simpl; [reflexivity|].
  destruct (decide (k0 = k)) as [->|Hk0].
  - rewrite bool_decide_eq_true_2 by reflexivity. simpl.
    destruct (decide (k = k')); [congruence | exact IH].
  - rewrite bool_decide_eq_false_2 by assumption. simpl.
    destruct (decide (k0 = k')); [reflexivity | exact IH].
Qed.
End JsMapFacts.
End JsMapFacts.

(** ** The message diff *)

Section MessageDiff.
Import JsMapFacts.
Lemma get_digestEntries manifest id :
  JsMap.get (digestEntries manifest) id = digestFor manifest id.
Proof.
  unfold digestEntries, digestFor. rewrite get_fromEntries, <- map_rev.
  induction (rev (sman_digests manifest)) as [|d l IH]; simpl; [reflexivity|].
  destruct (decide (md_messageId d = id)) as [->|Hne].
  - rewrite String.eqb_refl. reflexivity.
  - apply String.eqb_neq in Hne. rewrite Hne. exact IH.
Qed.

Lemma digestFor_present manifest id :
  is_Some (digestFor manifest id) <-> In id (map md_messageId (sman_digests manifest)).
Proof.
  rewrite <- get_digestEntries, get_Some_keys. unfold digestEntries.
  rewrite in_keys_fromEntries, map_map. reflexivity.
Qed.

Lemma digestFor_absent manifest id :
  digestFor manifest id = None <-> ~ In id (map md_messageId (sman_digests manifest)).
Proof.
  rewrite <- digestFor_present. destruct (digestFor manifest id); split.
  - discriminate.
  - intros Hn. exfalso. apply Hn. eexists. reflexivity.
  - intros _ [d Hd]. discriminate.
  - reflexivity.
Qed.

(** The first loop of [computeMessageDiff] selects, in order, the entries
    that are missing and the entries that are outdated. *)
Lemma fold_diffStep ourDigests entries missing outdated :
  fold_left (diffStep ourDigests) entries (missing, outdated) =
  (missing ++ map fst (List.filter (isMissing ourDigests) entries),
   outdated ++ map fst (List.filter (isOutdated ourDigests) entries)).
Proof.
  revert missing outdated.
  induction entries as [|[id theirDigest] entries IH]; intros missing outdated; simpl.
  - rewrite !app_nil_r. reflexivity.
  - unfold isMissing, isOutdated, JsMap.has, effectiveModified, or_number, push; simpl.
    destruct (JsMap.get ourDigests id) as [ourDigest|]; simpl.
    + destruct (String.eqb (md_contentHash ourDigest) (md_contentHash theirDigest));
        simpl; [apply IH|].
      match goal with |- context [if ?c then _ else _] => destruct c end;
        rewrite IH; simpl; rewrite <- ?app_assoc; reflexivity.
    + rewrite IH. simpl. rewrite <- app_assoc. reflexivity.
Qed.

Lemma fold_extra (theirDigests entries : list (string * MessageDigest)) extra :
  fold_left
    (fun extra (entry : string * MessageDigest) =>
       if negb (JsMap.has theirDigests (fst entry)) then push extra (fst entry)
       else extra)
    entries extra =
  extra ++ map fst (List.filter (isMissing theirDigests) entries).
Proof.
  revert extra. induction entries as [|e entries IH]; intros extra; simpl.
  - rewrite app_nil_r. reflexivity.
  - unfold isMissing at 1. rewrite IH.
    destruct (negb (JsMap.has theirDigests (fst e))); simpl; [|reflexivity].
    unfold push. rewrite <- app_assoc. reflexivity.
Qed.

Lemma computeMessageDiff_eq ourManifest theirManifest :
  computeMessageDiff ourManifest theirManifest =
  {| missingIds :=
       map fst (List.filter (isMissing (digestEntries ourManifest))
                  (digestEntries theirManifest));
     outdatedIds :=
       map fst (List.filter (isOutdated (digestEntries ourManifest))
                  (digestEntries theirManifest));
     extraIds :=
       map fst (List.filter (isMissing (digestEntries theirManifest))
                  (digestEntries ourManifest)) |}.
Proof.
  unfold computeMessageDiff. fold (digestEntries ourManifest).
  fold (digestEntries theirManifest).
  rewrite fold_diffStep, fold_extra. reflexivity.
Qed.

Lemma in_selected (p : string * MessageDigest -> bool) manifest id :
  In id (map fst (List.filter p (digestEntries manifest))) <->
  exists d, digestFor manifest id = Some d /\ p (id, d) = true.
Proof.
  rewrite in_map_iff. split.
  - intros [[k d] [Hk Hin]]. simpl in Hk. subst k.
    apply List.filter_In in Hin as [Hin Hp].
    exists d. split; [|assumption].
    rewrite <- get_digestEntries. apply in_get; [|assumption].
    apply NoDup_keys_fromEntries.
  - intros [d [Hd Hp]]. exists (id, d). split; [reflexivity|].
    apply List.filter_In. split; [|assumption].
    rewrite <- get_digestEntries in Hd. apply in_get in Hd; [assumption|].
    apply NoDup_keys_fromEntries.
Qed.

Lemma NoDup_selected (p : string * MessageDigest -> bool) manifest :
  NoDup (map fst (List.filter p (digestEntries manifest))).
Proof.
  pose proof (NoDup_keys_fromEntries
                (map (fun d => (md_messageId d, d)) (sman_digests manifest))) as Hnd.
  fold (digestEntries manifest) in Hnd. unfold JsMap.keys in Hnd.
  induction (digestEntries manifest) as [|e l IH]; simpl; [constructor|].
  simpl in Hnd. apply NoDup_cons_iff in Hnd as [Hnotin Hnd].
  destruct (p e); simpl; [|apply IH; assumption].
  constructor; [|apply IH; assumption].
  intros Hin. apply Hnotin. apply in_map_iff in Hin as [e' [He' Hin]].
  apply List.filter_In in Hin as [Hin _]. apply in_map_iff. eauto.
Qed.

(** C2. [computeMessageDiff] returns exactly: as [missingIds] the IDs of
    their digests that ours lack, as [extraIds] the IDs of ours that theirs
    lack, as [outdatedIds] the IDs both have with different content hashes
    and a strictly greater date of last change on their side ([modifiedDate],
    falling back to [createdDate]); none of the three lists repeats an ID,
    and an ID both have with different hashes whose date on their side is
    not strictly greater is in none of them. *)
Theorem computeMessageDiff_exact ourManifest theirManifest :
  let diff := computeMessageDiff ourManifest theirManifest in
  let ours := map md_messageId (sman_digests ourManifest) in
  let theirs := map md_messageId (sman_digests theirManifest) in
  (forall id, In id (missingIds diff) <-> In id theirs /\ ~ In id ours) /\
  (forall id, In id (extraIds diff) <-> In id ours /\ ~ In id theirs) /\
  (forall id, In id (outdatedIds diff) <->
     exists ourDigest theirDigest,
       digestFor ourManifest id = Some ourDigest /\
       digestFor theirManifest id = Some theirDigest /\
       md_contentHash ourDigest <> md_contentHash theirDigest /\
       effectiveModified theirDigest > effectiveModified ourDigest) /\
  NoDup (missingIds diff) /\ NoDup (extraIds diff) /\ NoDup (outdatedIds diff) /\
  (forall id ourDigest theirDigest,
     digestFor ourManifest id = Some ourDigest ->
     digestFor theirManifest id = Some theirDigest ->
     md_contentHash ourDigest <> md_contentHash theirDigest ->
     effectiveModified theirDigest <= effectiveModified ourDigest ->
     ~ In id (missingIds diff) /\ ~ In id (outdatedIds diff) /\
     ~ In id (extraIds diff)).
Proof.
  intros diff ours theirs. subst diff ours theirs.
  rewrite computeMessageDiff_eq. simpl.
  assert (Hmiss : forall a b id,
            In id (map fst (List.filter (isMissing (digestEntries a)) (digestEntries b)))
            <-> In id (map md_messageId (sman_digests b)) /\
                ~ In id (map md_messageId (sman_digests a))).
  { intros a b id. rewrite in_selected, <- digestFor_present, <- digestFor_absent.
    unfold isMissing. simpl. split.
    - intros [d [Hd Hp]]. split; [eexists; exact Hd|].
      apply negb_true_iff, has_false in Hp. rewrite <- get_digestEntries. exact Hp.
    - intros [[d Hd] Hn]. exists d. split; [assumption|].
      apply negb_true_iff, has_false. rewrite get_digestEntries. exact Hn. }
  assert (Hout : forall id,
            In id (map fst (List.filter (isOutdated (digestEntries ourManifest))
                              (digestEntries theirManifest))) <->
            exists ourDigest theirDigest,
              digestFor ourManifest id = Some ourDigest /\
              digestFor theirManifest id = Some theirDigest /\
              md_contentHash ourDigest <> md_contentHash theirDigest /\
              effectiveModified theirDigest > effectiveModified ourDigest).
  { intros id. rewrite in_selected. unfold isOutdated. simpl.
    rewrite get_digestEntries. split.
    - intros [t [Ht Hp]]. destruct (digestFor ourManifest id) as [o|]; [|discriminate].
      apply andb_true_iff in Hp as [Hh Hd]. exists o, t.
      apply negb_true_iff, String.eqb_neq in Hh. repeat split; try assumption.
      apply Z.gtb_lt in Hd. lia.
    - intros [o [t [Ho [Ht [Hh Hd]]]]]. exists t. split; [assumption|].
      rewrite Ho. apply andb_true_iff. split.
      + apply negb_true_iff, String.eqb_neq. assumption.
      + apply Z.gtb_lt. lia. }
  split; [intros id; apply Hmiss|].
  split; [intros id; apply Hmiss|].
  split; [exact Hout|].
  do 3 (split; [apply NoDup_selected|]).
  intros id ourDigest theirDigest Ho Ht Hh Hd.
  split; [|split].
  - rewrite Hmiss. intros [_ Hn]. apply Hn. apply digestFor_present.
    eexists; eassumption.
  - rewrite Hout. intros [o [t [Ho' [Ht' [_ Hd']]]]].
    assert (o = ourDigest) by congruence. assert (t = theirDigest) by congruence.
    subst. lia.
  - rewrite Hmiss. intros [_ Hn]. apply Hn. apply digestFor_present.
    eexists; eassumption.
Qed.
End MessageDiff.

(** ** Chunking *)

Section ChunkingFacts.
Variable jsonLength : Message -> Z.

Lemma chunkSize_push chunk msg :
  chunkSize jsonLength (push chunk msg) = chunkSize jsonLength chunk + jsonLength msg.
Proof.
  unfold push. induction chunk as [|m chunk IH]; simpl; [lia|].
  rewrite IH. lia.
Qed.

Lemma MAX_CHUNK_SIZE_pos : 0 <= MAX_CHUNK_SIZE.
Proof. unfold MAX_CHUNK_SIZE. lia. Qed.

Lemma concat_push (chunks : list (list Message)) chunk :
  concat (push chunks chunk) = concat chunks ++ chunk.
Proof. unfold push. rewrite concat_app. simpl. rewrite app_nil_r. reflexivity. Qed.

Lemma goodChunk_current chunk :
  chunk <> [] -> chunkSize jsonLength chunk <= MAX_CHUNK_SIZE ->
  Forall (fun m => jsonLength m <= MAX_CHUNK_SIZE) chunk -> goodChunk jsonLength chunk.
Proof. intros. right. auto. Qed.

Lemma nonEmpty_true {A} (l : list A) : nonEmpty l = true <-> l <> [].
Proof. destruct l; simpl; split; congruence. Qed.

Lemma nonEmpty_false {A} (l : list A) : nonEmpty l = false <-> l = [].
Proof. destruct l; simpl; split; congruence. Qed.

Ltac chunk_concat :=
  unfold push; rewrite ?concat_app; simpl; rewrite ?app_nil_r;
  repeat match goal with H : _ ++ _ = ?d |- _ => rewrite <- H; clear H end;
  rewrite ?app_nil_r, <- ?app_assoc; simpl; reflexivity.

Lemma chunkStep_inv done st msg :
  chunkInv jsonLength done st -> chunkInv jsonLength (push done msg) (chunkStep jsonLength st msg).
Proof.
  destruct st as [[chunks currentChunk] currentSize].
  intros (Hcat & Hgood & Hsize & Hle & Hall). unfold chunkStep.
  pose proof MAX_CHUNK_SIZE_pos as Hpos.
  destruct (jsonLength msg >? MAX_CHUNK_SIZE) eqn:Hbig.
  - apply Z.gtb_lt in Hbig.
    assert (Hsingle : goodChunk jsonLength [msg]) by (left; exists msg; split; [reflexivity | lia]).
    destruct (nonEmpty currentChunk) eqn:Hne; simpl.
    + apply nonEmpty_true in Hne.
      split; [chunk_concat|]. split; [|split; [reflexivity|split; [assumption|constructor]]].
      unfold push. apply Forall_app. split; [apply Forall_app; split|]; auto.
      constructor; [|constructor]. apply goodChunk_current; assumption.
    + apply nonEmpty_false in Hne. subst currentChunk.
      split; [chunk_concat|]. split; [|split; [assumption|split; [assumption|constructor]]].
      unfold push. apply Forall_app. split; auto.
  - assert (Hfit : jsonLength msg <= MAX_CHUNK_SIZE).
    { destruct (Z.gtb_spec (jsonLength msg) MAX_CHUNK_SIZE); [discriminate | lia]. }
    destruct ((currentSize + jsonLength msg >? MAX_CHUNK_SIZE) && nonEmpty currentChunk)
      eqn:Hflush; simpl.
    + apply andb_true_iff in Hflush as [_ Hne]. apply nonEmpty_true in Hne.
      split; [chunk_concat|]. split; [|split; [|split]].
      * unfold push. apply Forall_app. split; [assumption|].
        constructor; [|constructor]. apply goodChunk_current; assumption.
      * unfold chunkSize. simpl. lia.
      * unfold chunkSize. simpl. lia.
      * unfold push. simpl. constructor; [assumption | constructor].
    + assert (Hroom : chunkSize jsonLength currentChunk + jsonLength msg <= MAX_CHUNK_SIZE).
      { apply andb_false_iff in Hflush as [Hsum|Hemp].
        - subst currentSize.
          destruct (Z.gtb_spec (chunkSize jsonLength currentChunk + jsonLength msg) MAX_CHUNK_SIZE);
            [discriminate | lia].
        - apply nonEmpty_false in Hemp. subst currentChunk. simpl. lia. }
      split; [chunk_concat|]. split; [assumption|split; [|split]].
      * rewrite chunkSize_push. lia.
      * rewrite chunkSize_push. lia.
      * unfold push. apply Forall_app. split; [assumption|].
        constructor; [assumption | constructor].
Qed.

Lemma chunkLoop_inv messages done st :
  chunkInv jsonLength done st ->
  chunkInv jsonLength (done ++ messages) (fold_left (chunkStep jsonLength) messages st).
Proof.
  revert done st. induction messages as [|msg messages IH]; intros done st Hinv; simpl.
  - rewrite app_nil_r. assumption.
  - replace (done ++ msg :: messages) with (push done msg ++ messages)
      by (unfold push; rewrite <- app_assoc; reflexivity).
    apply IH, chunkStep_inv, Hinv.
Qed.

Lemma chunkMessages_good messages :
  concat (chunkMessages jsonLength messages) = messages /\
  Forall (goodChunk jsonLength) (chunkMessages jsonLength messages).
Proof.
  unfold chunkMessages.
  pose proof (chunkLoop_inv messages [] ([], [], 0)) as Hinv.
  destruct (fold_left (chunkStep jsonLength) messages ([], [], 0))
    as [[chunks currentChunk] currentSize].
  simpl in Hinv. destruct Hinv as (Hcat & Hgood & _ & Hle & Hall).
  { repeat split; try constructor. apply MAX_CHUNK_SIZE_pos. }
  destruct (nonEmpty currentChunk) eqn:Hne.
  - apply nonEmpty_true in Hne. split.
    + rewrite concat_push. assumption.
    + unfold push. apply Forall_app. split; [assumption|].
      constructor; [|constructor]. apply goodChunk_current; assumption.
  - apply nonEmpty_false in Hne. subst currentChunk.
    rewrite app_nil_r in Hcat. split; assumption.
Qed.

(** What [chunkMessages] guarantees in the measure it uses, [jsonLength],
    the length of [JSON.stringify(msg)] in UTF-16 code units: the chunks,
    concatenated, are the input list in its order; a chunk of two or more
    messages measures at most [MAX_CHUNK_SIZE]; a message that measures more
    is the only message of its chunk; and no chunk is empty. *)
Theorem chunkMessages_correct (messages : list Message) :
  let chunks := chunkMessages jsonLength messages in
  concat chunks = messages /\
  (forall chunk, In chunk chunks -> (2 <= length chunk)%nat ->
     chunkSize jsonLength chunk <= MAX_CHUNK_SIZE) /\
  (forall chunk m, In chunk chunks -> In m chunk ->
     jsonLength m > MAX_CHUNK_SIZE -> chunk = [m]) /\
  (forall chunk, In chunk chunks -> chunk <> []).
Proof.
  intros chunks. subst chunks.
  destruct (chunkMessages_good messages) as [Hcat Hgood].
  rewrite List.Forall_forall in Hgood.
  split; [assumption|]. split; [|split].
  - intros chunk Hin Hlen. destruct (Hgood chunk Hin) as [[m [-> _]]|[_ [Hle _]]].
    + simpl in Hlen. lia.
    + assumption.
  - intros chunk m Hin Hm Hbig.
    destruct (Hgood chunk Hin) as [[m' [-> _]]|[_ [_ Hall]]].
    + destruct Hm as [->|[]]. reflexivity.
    + rewrite List.Forall_forall in Hall. specialize (Hall m Hm). lia.
  - intros chunk Hin. destruct (Hgood chunk Hin) as [[m [-> _]]|[Hne _]].
    + discriminate.
    + assumption.
Qed.
End ChunkingFacts.

(** ** Bytes and code units *)

Lemma append_cons (c : ascii) (s t : string) : String c s +:+ t = String c (s +:+ t).
Proof. reflexivity. Qed.

Lemma append_nil (t : string) : EmptyString +:+ t = t.
Proof. reflexivity. Qed.

Lemma codeUnits_app (s t : string) : codeUnits (s +:+ t) = codeUnits s + codeUnits t.
Proof.
  induction s as [|c s IH]; [reflexivity|].
  rewrite append_cons. cbn [codeUnits]. rewrite IH. lia.
Qed.

Lemma utf8Bytes_app (s t : string) : utf8Bytes (s +:+ t) = utf8Bytes s + utf8Bytes t.
Proof.
  unfold utf8Bytes. induction s as [|c s IH]; [reflexivity|].
  rewrite append_cons. cbn [String.length]. lia.
Qed.

Lemma jsonEscapeAll_app (s t : string) :
  jsonEscapeAll (s +:+ t) = jsonEscapeAll s +:+ jsonEscapeAll t.
Proof.
  induction s as [|c s IH]; [reflexivity|].
  rewrite append_cons. cbn [jsonEscapeAll]. rewrite IH.
  generalize (jsonEscape c) (jsonEscapeAll s) (jsonEscapeAll t). clear.
  intros a b d. induction a as [|x a IH]; [reflexivity|].
  rewrite !append_cons, IH. reflexivity.
Qed.

Lemma repeatDoubling_escape (k : nat) (s : string) :
  jsonEscapeAll (repeatDoubling k s) = repeatDoubling k (jsonEscapeAll s).
Proof.
  revert s. induction k as [|k IH]; intros s; [reflexivity|].
  cbn [repeatDoubling]. rewrite IH, jsonEscapeAll_app. reflexivity.
Qed.

Lemma repeatDoubling_codeUnits (k : nat) (s : string) :
  codeUnits (repeatDoubling k s) = 2 ^ Z.of_nat k * codeUnits s.
Proof.
  revert s. induction k as [|k IH]; intros s.
  - cbn [repeatDoubling]. change (2 ^ Z.of_nat 0) with 1. lia.
  - cbn [repeatDoubling]. rewrite IH, codeUnits_app, Nat2Z.inj_succ, Z.pow_succ_r by lia.
    lia.
Qed.

Lemma repeatDoubling_utf8Bytes (k : nat) (s : string) :
  utf8Bytes (repeatDoubling k s) = 2 ^ Z.of_nat k * utf8Bytes s.
Proof.
  revert s. induction k as [|k IH]; intros s.
  - cbn [repeatDoubling]. change (2 ^ Z.of_nat 0) with 1. lia.
  - cbn [repeatDoubling]. rewrite IH, utf8Bytes_app, Nat2Z.inj_succ, Z.pow_succ_r by lia.
    lia.
Qed.

(** The serialisation of a test message is that of the message with an
    empty text, with the escaped text put in. *)
Lemma testJson_sizes (measure : string -> Z) (messageId text : string) (createdDate : Z) :
  (forall s t, measure (s +:+ t) = measure s + measure t) ->
  exists json empty,
    testMessageJson (testMessage messageId text createdDate) = Some json /\
    testMessageJson (testMessage messageId "" createdDate) = Some empty /\
    measure json = measure empty + measure (jsonEscapeAll text).
Proof.
  intros Happ. unfold testMessageJson, testMessage. cbn [m_content m_reactions].
  eexists. eexists. split; [reflexivity|]. split; [reflexivity|].
  assert (Hnil : measure EmptyString = 0).
  { pose proof (Happ EmptyString EmptyString) as Hnil. rewrite append_nil in Hnil. lia. }
  cbn [m_messageId m_spaceId m_channelId m_digestAlgorithm m_nonce m_createdDate
       m_modifiedDate m_lastModifiedHash].
  unfold jsonString. cbn [jsonEscapeAll]. rewrite !Happ, Hnil. lia.
Qed.

Lemma wideMessage_sizes :
  testJsonLength wideMessage = 2097465 /\ testJsonBytes wideMessage = 6291769.
Proof.
  unfold testJsonLength, testJsonBytes, wideMessage.
  destruct (testJson_sizes codeUnits "msg1" (repeatDoubling 21 wideChar) 1000 codeUnits_app)
    as (json & empty & Hjson & Hempty & Hunits).
  destruct (testJson_sizes utf8Bytes "msg1" (repeatDoubling 21 wideChar) 1000 utf8Bytes_app)
    as (json' & empty' & Hjson' & Hempty' & Hbytes).
  rewrite Hjson in Hjson' |- *. injection Hjson' as <-.
  rewrite Hempty in Hempty'. injection Hempty' as <-.
  assert (Hvalue : empty =
                   match testMessageJson (testMessage "msg1" "" 1000) with
                   | Some e => e
                   | None => EmptyString
                   end) by (rewrite Hempty; reflexivity).
  rewrite Hunits, Hbytes, repeatDoubling_escape, repeatDoubling_codeUnits,
    repeatDoubling_utf8Bytes, Hvalue.
  split; vm_compute; reflexivity.
Qed.

(** Two messages that fit the limit together go into one chunk. *)
Lemma chunkMessages_pair (jsonLength : Message -> Z) (m1 m2 : Message) :
  0 <= jsonLength m1 -> 0 <= jsonLength m2 ->
  jsonLength m1 + jsonLength m2 <= MAX_CHUNK_SIZE ->
  chunkMessages jsonLength [m1; m2] = [[m1; m2]].
Proof.
  intros H1 H2 Hsum. unfold chunkMessages. cbn [fold_left]. unfold chunkStep at 2.
  cbv zeta.
  destruct (Z.gtb_spec (jsonLength m1) MAX_CHUNK_SIZE); [lia|].
  cbn [nonEmpty andb]. rewrite andb_false_r. unfold push at 1. cbn [app].
  unfold chunkStep. cbv zeta.
  destruct (Z.gtb_spec (jsonLength m2) MAX_CHUNK_SIZE); [lia|].
  destruct (Z.gtb_spec (0 + jsonLength m1 + jsonLength m2) MAX_CHUNK_SIZE); [lia|].
  reflexivity.
Qed.

(** C7. On two messages built as the tests of the service build them, the
    first with a text of 2^21 characters of three bytes each, [chunkMessages]
    returns one chunk of both: it measures 2,097,783 UTF-16 code units, within
    [MAX_CHUNK_SIZE], and 6,292,087 bytes, beyond it; and the first message
    alone, 6,291,769 bytes, is beyond the limit and not alone in its
    chunk. *)
Theorem chunkMessages_counts_code_units_not_bytes :
  let messages := [wideMessage; testMessage "msg2" "Hello" 2000] in
  chunkMessages testJsonLength messages = [messages] /\
  chunkSize testJsonLength messages = 2097783 /\
  chunkBytes messages = 6292087 /\
  chunkBytes messages > MAX_CHUNK_SIZE /\
  testJsonBytes wideMessage > MAX_CHUNK_SIZE.
Proof.
  intros messages. subst messages.
  destruct wideMessage_sizes as [Hunits Hbytes].
  assert (Hsmall : testJsonLength (testMessage "msg2" "Hello" 2000) = 318 /\
                   testJsonBytes (testMessage "msg2" "Hello" 2000) = 318)
    by (split; vm_compute; reflexivity).
  destruct Hsmall as [Hsmall Hsmallb].
  split; [|split; [|split; [|split]]].
  - apply chunkMessages_pair; rewrite ?Hunits, ?Hsmall; unfold MAX_CHUNK_SIZE; lia.
  - cbn [chunkSize fold_right]. rewrite Hunits, Hsmall. reflexivity.
  - cbn [chunkBytes fold_right]. rewrite Hbytes, Hsmallb. reflexivity.
  - cbn [chunkBytes fold_right]. rewrite Hbytes, Hsmallb. unfold MAX_CHUNK_SIZE. lia.
  - rewrite Hbytes. unfold MAX_CHUNK_SIZE. lia.
Qed.

(** ** The XOR accumulator *)

Section XorFacts.
Lemma byteXor_land a h : byteXor a h = Z.land (Z.lxor a h) (Z.ones 8).
Proof. unfold byteXor. rewrite Z.land_ones by lia. reflexivity. Qed.

Lemma byteXor_range a h : 0 <= byteXor a h < 256.
Proof. unfold byteXor. apply Z.mod_pos_bound. lia. Qed.

Lemma byteXor_comm a h1 h2 :
  byteXor (byteXor a h1) h2 = byteXor (byteXor a h2) h1.
Proof.
  rewrite !byteXor_land. apply Z.bits_inj'. intros n Hn.
  rewrite !Z.land_spec, !Z.lxor_spec, !Z.land_spec, !Z.lxor_spec.
  destruct (Z.testbit a n), (Z.testbit h1 n), (Z.testbit h2 n),
    (Z.testbit (Z.ones 8) n); reflexivity.
Qed.

Lemma byteXor_involutive a h : 0 <= a < 256 -> byteXor (byteXor a h) h = a.
Proof.
  intros Ha. rewrite !byteXor_land.
  rewrite <- (Z.mod_small a 256) at 2 by lia.
  change 256 with (2 ^ 8). rewrite <- Z.land_ones by lia.
  apply Z.bits_inj'. intros n Hn.
  rewrite !Z.land_spec, !Z.lxor_spec, !Z.land_spec, !Z.lxor_spec.
  destruct (Z.testbit a n), (Z.testbit h n), (Z.testbit (Z.ones 8) n); reflexivity.
Qed.

Lemma nth_insert (l : list Z) (i j : nat) (x : Z) :
  nth j (<[ i := x ]> l) 0 =
  if decide (i = j /\ (i < length l)%nat) then x else nth j l 0.
Proof.
  rewrite !nth_lookup. destruct (decide (i = j /\ (i < length l)%nat)) as [[-> Hlt]|Hn].
  - rewrite list_lookup_insert_eq by assumption. reflexivity.
  - destruct (decide (i = j)) as [->|Hne].
    + assert (Hge : (length l <= j)%nat) by lia.
      rewrite list_insert_ge by assumption. reflexivity.
    + rewrite list_lookup_insert_ne by assumption. reflexivity.
Qed.

Lemma xorLoop_length hash a n acc : length (xorLoop hash a n acc) = length acc.
Proof.
  unfold xorLoop. revert a acc. induction n as [|n IH]; intros a acc; simpl.
  - reflexivity.
  - rewrite IH, length_insert. reflexivity.
Qed.

Lemma xorLoop_nth hash a n acc j :
  nth j (xorLoop hash a n acc) 0 =
  if decide ((a <= j < a + n)%nat /\ (j < length acc)%nat)
  then byteXor (nth j acc 0) (nth j hash 0)
  else nth j acc 0.
Proof.
  unfold xorLoop. revert a acc. induction n as [|n IH]; intros a acc; simpl.
  - destruct (decide _) as [[Hr _]|_]; [lia | reflexivity].
  - rewrite IH, length_insert, !nth_insert. fold (byteXor (nth a acc 0) (nth a hash 0)).
    repeat destruct (decide _); try reflexivity; try lia.
    match goal with Heq : _ = _ /\ _ |- _ => destruct Heq as [-> _] end.
    reflexivity.
Qed.

Lemma xorIntoHash_length acc hash : length (xorIntoHash acc hash) = length acc.
Proof. unfold xorIntoHash. apply length_imap. Qed.

Lemma xorIntoHash_nth acc hash j :
  nth j (xorIntoHash acc hash) 0 =
  if decide ((j < 32)%nat /\ (j < length acc)%nat)
  then byteXor (nth j acc 0) (nth j hash 0)
  else nth j acc 0.
Proof.
  unfold xorIntoHash.
  rewrite (nth_lookup (imap _ acc)), list_lookup_imap, (nth_lookup acc j).
  destruct (acc !! j) as [byte|] eqn:Hj; simpl.
  - apply lookup_lt_Some in Hj. unfold byteXor.
    destruct (Nat.ltb_spec j 32); destruct (decide _); try reflexivity; lia.
  - apply lookup_ge_None in Hj. destruct (decide _); [lia | reflexivity].
Qed.

(** [xorIntoHash] is the loop of the source: 32 stores, one after the
    other, each reading the accumulator the stores before it left. *)
Lemma xorIntoHash_loop acc hash : xorIntoHash acc hash = xorLoop hash 0 32 acc.
Proof.
  apply (nth_ext _ _ 0 0).
  - rewrite xorIntoHash_length, xorLoop_length. reflexivity.
  - intros j _. rewrite xorIntoHash_nth, xorLoop_nth.
    repeat destruct (decide _); try reflexivity; lia.
Qed.

(** XOR-ing two hashes in commutes. *)
Lemma xorIntoHash_comm acc h1 h2 :
  xorIntoHash (xorIntoHash acc h1) h2 = xorIntoHash (xorIntoHash acc h2) h1.
Proof.
  apply (nth_ext _ _ 0 0).
  - rewrite !xorIntoHash_length. reflexivity.
  - intros j _. rewrite !xorIntoHash_nth, !xorIntoHash_length.
    repeat destruct (decide _); try reflexivity; try lia.
    apply byteXor_comm.
Qed.

Lemma bytes32_zero : bytes32 (repeat 0 32).
Proof. split; [reflexivity|]. apply Forall_forall. intros b Hb.
  apply repeat_spec in Hb. subst. lia. Qed.

Lemma xorIntoHash_bytes32 acc hash : bytes32 acc -> bytes32 (xorIntoHash acc hash).
Proof.
  intros [Hlen Hall]. split; [rewrite xorIntoHash_length; assumption|].
  apply List.Forall_forall. intros b Hb.
  apply (In_nth _ _ 0) in Hb as [j [Hj <-]].
  rewrite xorIntoHash_length in Hj. rewrite xorIntoHash_nth.
  destruct (decide _) as [_|Hn]; [apply byteXor_range | lia].
Qed.

(** XOR is its own inverse on the accumulator. *)
Lemma xorIntoHash_involutive acc hash :
  bytes32 acc -> xorIntoHash (xorIntoHash acc hash) hash = acc.
Proof.
  intros [Hlen Hall]. apply (nth_ext _ _ 0 0).
  - rewrite !xorIntoHash_length. reflexivity.
  - intros j Hj. rewrite !xorIntoHash_length in Hj.
    rewrite !xorIntoHash_nth, !xorIntoHash_length.
    destruct (decide _) as [_|Hn]; [|lia].
    apply byteXor_involutive. rewrite List.Forall_forall in Hall.
    apply Hall, nth_In. assumption.
Qed.

Lemma fold_xorIntoHash_perm (hs hs' : list (list Z)) :
  Permutation hs hs' ->
  forall acc, fold_left xorIntoHash hs acc = fold_left xorIntoHash hs' acc.
Proof.
  induction 1 as [|h hs hs' _ IH|h1 h2 hs|hs1 hs2 hs3 _ IH1 _ IH2]; intros acc; simpl.
  - reflexivity.
  - apply IH.
  - rewrite xorIntoHash_comm. reflexivity.
  - rewrite IH1. apply IH2.
Qed.
End XorFacts.

(** ** The payload cache *)

Lemma Permutation_filter {A : Type} (p : A -> bool) (l l' : list A) :
  Permutation l l' -> Permutation (List.filter p l) (List.filter p l').
Proof.
  induction 1 as [|x l l' _ IH|x y l|l1 l2 l3 _ IH1 _ IH2]; simpl.
  - constructor.
  - destruct (p x); [constructor|]; assumption.
  - destruct (p x), (p y); try reflexivity. constructor.
  - etransitivity; eassumption.
Qed.

Section CacheFacts.
Variable sha256 : list Z -> list Z.
Import JsMapFacts.

Local Abbreviation updateIn := (updateCacheWithMessageIn sha256).
Local Abbreviation removeIn := (removeCacheMessageIn sha256).
Local Abbreviation hashId := (hashMessageId sha256).

Lemma manifestHashBytes_recalculate cache :
  manifestHashBytes (recalculateTimestamps cache) = manifestHashBytes cache.
Proof.
  unfold recalculateTimestamps.
  destruct (scanTimestamps (JsMap.values (messageMap cache))). reflexivity.
Qed.

Lemma messageMap_recalculate cache :
  messageMap (recalculateTimestamps cache) = messageMap cache.
Proof.
  unfold recalculateTimestamps.
  destruct (scanTimestamps (JsMap.values (messageMap cache))). reflexivity.
Qed.

Lemma manifestHashBytes_update cached message :
  manifestHashBytes (updateIn cached message) =
  if JsMap.has (messageMap cached) (m_messageId message)
  then manifestHashBytes cached
  else xorIntoHash (manifestHashBytes cached) (hashId (m_messageId message)).
Proof.
  unfold updateCacheWithMessageIn. simpl.
  destruct (JsMap.has (messageMap cached) (m_messageId message)); reflexivity.
Qed.

Lemma manifestHashBytes_remove cached messageId :
  manifestHashBytes (removeIn cached messageId) =
  if JsMap.has (messageMap cached) messageId
  then xorIntoHash (manifestHashBytes cached) (hashId messageId)
  else manifestHashBytes cached.
Proof.
  unfold removeCacheMessageIn, JsMap.has.
  destruct (JsMap.get (messageMap cached) messageId) as [message|]; [|reflexivity].
  match goal with |- context [if ?c then _ else _] => destruct c end.
  - rewrite manifestHashBytes_recalculate. reflexivity.
  - reflexivity.
Qed.

Lemma fold_xor_bytes32 (messages : list Message) acc :
  bytes32 acc ->
  bytes32 (fold_left (fun acc msg => xorIntoHash acc (hashId (m_messageId msg)))
             messages acc).
Proof.
  revert acc. induction messages as [|msg messages IH]; intros acc Hacc; simpl.
  - assumption.
  - apply IH, xorIntoHash_bytes32, Hacc.
Qed.

(** In every cache state the service can hold, the accumulator is 32
    bytes. *)
Lemma reachable_bytes32 cache :
  reachable sha256 cache -> bytes32 (manifestHashBytes cache).
Proof.
  induction 1 as [spaceId channelId messages members|cached message _ IH
                 |cached messageId _ IH|cached member _ IH].
  - unfold buildPayloadCache. destruct (scanTimestamps messages). simpl.
    apply fold_xor_bytes32, bytes32_zero.
  - rewrite manifestHashBytes_update.
    destruct (JsMap.has _ _); [assumption | apply xorIntoHash_bytes32, IH].
  - rewrite manifestHashBytes_remove.
    destruct (JsMap.has _ _); [apply xorIntoHash_bytes32, IH | assumption].
  - exact IH.
Qed.

Lemma has_update cached message id :
  JsMap.has (messageMap (updateIn cached message)) id =
  if decide (m_messageId message = id) then true
  else JsMap.has (messageMap cached) id.
Proof.
  unfold updateCacheWithMessageIn, JsMap.has. simpl.
  destruct (decide (m_messageId message = id)) as [<-|Hne].
  - rewrite get_set_eq. reflexivity.
  - rewrite get_set_ne by assumption. reflexivity.
Qed.

(** After upserts of messages with distinct IDs, the accumulator is the one
    before with the hashes of the new IDs XOR-ed in. *)
Lemma manifestHashBytes_upserts messages cached :
  NoDup (map m_messageId messages) ->
  manifestHashBytes (fold_left updateIn messages cached) =
  fold_left xorIntoHash (map hashId (newIds cached messages))
    (manifestHashBytes cached).
Proof.
  revert cached. induction messages as [|m messages IH]; intros cached Hnd; simpl.
  - reflexivity.
  - simpl in Hnd. apply NoDup_cons_iff in Hnd as [Hnotin Hnd].
    rewrite (IH _ Hnd). unfold newIds.
    assert (Hsame :
      List.filter (fun id => negb (JsMap.has (messageMap (updateIn cached m)) id))
        (map m_messageId messages) =
      List.filter (fun id => negb (JsMap.has (messageMap cached) id))
        (map m_messageId messages)).
    { apply List.filter_ext_in. intros id Hin. rewrite has_update.
      destruct (decide (m_messageId m = id)) as [<-|]; [contradiction | reflexivity]. }
    rewrite Hsame, manifestHashBytes_update. simpl.
    destruct (JsMap.has (messageMap cached) (m_messageId m)); reflexivity.
Qed.

(** C3. Starting from a cache state the service can hold: upserting a
    message whose ID the cache does not hold and then removing that ID
    leaves [manifestHashBytes] as it was; and upserting messages with
    distinct IDs yields the same [manifestHashBytes] in every order. *)
Theorem manifestHash_inverse_commutative
    (cached : SyncPayloadCache) (m : Message) (messages messages' : list Message) :
  reachable sha256 cached ->
  JsMap.has (messageMap cached) (m_messageId m) = false ->
  NoDup (map m_messageId messages) ->
  Permutation messages messages' ->
  manifestHashBytes (removeIn (updateIn cached m) (m_messageId m)) =
    manifestHashBytes cached /\
  manifestHashBytes (fold_left updateIn messages cached) =
    manifestHashBytes (fold_left updateIn messages' cached).
Proof.
  intros Hreach Hnew Hnd Hperm. split.
  - rewrite manifestHashBytes_remove, has_update.
    destruct (decide _) as [_|Hne]; [|congruence].
    rewrite manifestHashBytes_update, Hnew.
    apply xorIntoHash_involutive, reachable_bytes32, Hreach.
  - assert (Hnd' : NoDup (map m_messageId messages')).
    { eapply Permutation_NoDup; [|exact Hnd]. apply Permutation_map, Hperm. }
    rewrite !manifestHashBytes_upserts by assumption.
    apply fold_xorIntoHash_perm. apply Permutation_map.
    unfold newIds. apply Permutation_filter, Permutation_map, Hperm.
Qed.

(** C8. The summary of a cache built from no messages and no members: both
    counts are 0, both timestamps are 0, and the manifest hash is 64
    characters ['0'], the lower-case hexadecimal of 32 zero bytes. *)
Theorem empty_cache_summary (spaceId channelId : string) :
  let summary := getSummary (buildPayloadCache sha256 spaceId channelId [] []) in
  sum_messageCount summary = 0 /\
  sum_memberCount summary = 0 /\
  sum_oldestMessageTimestamp summary = Num 0 /\
  sum_newestMessageTimestamp summary = 0 /\
  sum_manifestHash summary =
    Some "0000000000000000000000000000000000000000000000000000000000000000" /\
  sum_manifestHash summary = Some (bytesToHex (repeat 0 32)) /\
  (String.length <$> sum_manifestHash summary) = Some 64%nat.
Proof. vm_compute. repeat split; reflexivity. Qed.
(** C6, evaluated on the first upsert into a cache built from no message.
    [buildPayloadCache] leaves [oldestTimestamp] at 0 for the empty cache; the
    upsert of a message created at 1000 compares [1000 < 0] and keeps the 0,
    although 1000 is now the minimum of the dates of creation. Building the
    cache from that one message gives 1000, and so does
    [recalculateTimestamps] on the state reached. *)
Theorem oldestTimestamp_stale_after_first_upsert (spaceId channelId : string) :
  let message := sampleMessage "msg1" 1000 in
  let cache := updateIn (buildPayloadCache sha256 spaceId channelId [] []) message in
  reachable sha256 cache /\
  createdDates cache = [1000] /\
  oldestTimestamp cache = Num 0 /\
  newestTimestamp cache = 1000 /\
  ~ timestampsExact cache /\
  oldestTimestamp (buildPayloadCache sha256 spaceId channelId [message] []) = Num 1000 /\
  oldestTimestamp (recalculateTimestamps cache) = Num 1000.
Proof.
  intros message cache.
  split; [apply reachable_message, reachable_build|].
  split; [reflexivity|]. split; [reflexivity|]. split; [reflexivity|].
  split; [|split; reflexivity].
  unfold timestampsExact.
  change (createdDates cache) with [1000].
  change (oldestTimestamp cache) with (Num 0).
  simpl. intros [Habs _]. discriminate Habs.
Qed.
End CacheFacts.

(** The inverse and the order independence, on a cache built from one
    message and the upserts of two others. *)
Lemma manifestHash_inverse_commutative_witness :
  let cached := sampleCache in
  let m2 := sampleMessage "msg2" 2000 in
  let m3 := sampleMessage "msg3" 3000 in
  reachable sampleSha256 cached /\
  JsMap.has (messageMap cached) (m_messageId m2) = false /\
  NoDup (map m_messageId [m2; m3]) /\
  Permutation [m2; m3] [m3; m2] /\
  manifestHashBytes
    (removeCacheMessageIn sampleSha256 (updateCacheWithMessageIn sampleSha256 cached m2)
       (m_messageId m2)) = manifestHashBytes cached /\
  manifestHashBytes (fold_left (updateCacheWithMessageIn sampleSha256) [m2; m3] cached) =
  manifestHashBytes (fold_left (updateCacheWithMessageIn sampleSha256) [m3; m2] cached).
Proof.
  intros cached m2 m3.
  assert (Hreach : reachable sampleSha256 cached) by apply reachable_build.
  assert (Hnew : JsMap.has (messageMap cached) (m_messageId m2) = false) by reflexivity.
  assert (Hnd : NoDup (map m_messageId [m2; m3]))
    by (repeat constructor; simpl; intuition discriminate).
  assert (Hperm : Permutation [m2; m3] [m3; m2]) by apply perm_swap.
  repeat (split; [assumption|]).
  exact (manifestHash_inverse_commutative sampleSha256 cached m2 [m2; m3] [m3; m2]
           Hreach Hnew Hnd Hperm).
Defined.

(** ** Delta assembly *)

Lemma markLastFinal_snoc (init : list SyncDeltaPayload) (last : SyncDeltaPayload) :
  markLastFinal (init ++ [last]) =
  init ++ [ {| messageDelta := messageDelta last; reactionDelta := reactionDelta last;
               memberDelta := memberDelta last; peerMapDelta := peerMapDelta last;
               isFinal := Some true |} ].
Proof.
  unfold markLastFinal. rewrite length_app. simpl.
  replace (length init + 1 - 1)%nat with (length init + 0)%nat by lia.
  rewrite alter_app_r. reflexivity.
Qed.

Lemma snoc_cases {A : Type} (l : list A) : l = [] \/ exists init last, l = init ++ [last].
Proof.
  induction l as [|x l IH] using rev_ind; [left; reflexivity|].
  right. exists l, x. reflexivity.
Qed.

(** Message chunks followed by payloads without message or reaction delta:
    a reaction delta sits on the last message chunk only. *)
Lemma reactionOnLastChunk_app (chunkPayloads rest : list SyncDeltaPayload) :
  Forall (fun p => is_Some (messageDelta p)) chunkPayloads ->
  (forall i p rd,
     chunkPayloads !! i = Some p -> reactionDelta p = Some rd ->
     S i = length chunkPayloads /\ rdl_added rd <> []) ->
  Forall (fun q => messageDelta q = None /\ reactionDelta q = None) rest ->
  reactionOnLastChunk (chunkPayloads ++ rest).
Proof.
  intros Hmsg Hreact Hrest.
  assert (Hin : forall i p rd,
            (chunkPayloads ++ rest) !! i = Some p -> reactionDelta p = Some rd ->
            chunkPayloads !! i = Some p /\ S i = length chunkPayloads /\
            rdl_added rd <> []).
  { intros i p rd Hp Hrd. apply lookup_app_Some in Hp as [Hp|[_ Hp]].
    - split; [assumption|]. eapply Hreact; eassumption.
    - exfalso. rewrite List.Forall_forall in Hrest.
      apply list_elem_of_lookup_2, list_elem_of_In, Hrest in Hp as [_ Hnone].
      congruence. }
  split.
  - intros i p rd Hp Hrd. destruct (Hin i p rd Hp Hrd) as (Hp' & Hlast & Hadded).
    split; [assumption|]. split.
    + exists p. split; [assumption|].
      rewrite List.Forall_forall in Hmsg.
      apply Hmsg, list_elem_of_In, list_elem_of_lookup_2 with i. assumption.
    + intros j q Hlt Hq. apply lookup_app_Some in Hq as [Hq|[_ Hq]].
      * apply lookup_lt_Some in Hq. lia.
      * rewrite List.Forall_forall in Hrest.
        apply list_elem_of_lookup_2, list_elem_of_In, Hrest in Hq as [Hnone _].
        assumption.
  - intros i j p q Hp Hq [rd Hrd] [rd' Hrd'].
    destruct (Hin i p rd Hp Hrd) as (_ & Hi & _).
    destruct (Hin j q rd' Hq Hrd') as (_ & Hj & _). lia.
Qed.

Lemma assemblePayloads_trailing chunkPayloads trailing :
  assemblePayloads chunkPayloads true trailing = chunkPayloads ++ [trailing].
Proof.
  unfold assemblePayloads, push.
  destruct (length (chunkPayloads ++ [trailing]) =? 0)%nat eqn:Hlen; [|reflexivity].
  apply Nat.eqb_eq in Hlen. rewrite length_app in Hlen. simpl in Hlen. lia.
Qed.

Lemma assemblePayloads_nothing trailing :
  assemblePayloads [] false trailing =
  [ {| messageDelta := None; reactionDelta := None; memberDelta := None;
       peerMapDelta := None; isFinal := Some true |} ].
Proof. reflexivity. Qed.

Lemma assemblePayloads_last init last trailing :
  assemblePayloads (init ++ [last]) false trailing =
  init ++ [ {| messageDelta := messageDelta last; reactionDelta := reactionDelta last;
               memberDelta := memberDelta last; peerMapDelta := peerMapDelta last;
               isFinal := Some true |} ].
Proof.
  unfold assemblePayloads.
  replace (nonEmpty (init ++ [last])) with true
    by (symmetry; apply nonEmpty_true; destruct init; discriminate).
  rewrite markLastFinal_snoc.
  match goal with |- (if (length ?l =? 0)%nat then _ else _) = _ =>
    destruct (length l =? 0)%nat eqn:Hlen end; [|reflexivity].
  apply Nat.eqb_eq in Hlen. rewrite length_app in Hlen. simpl in Hlen. lia.
Qed.

Lemma assemblePayloads_shape chunkPayloads trailingNeeded trailing :
  chunkPayloadsShape chunkPayloads ->
  messageDelta trailing = None -> reactionDelta trailing = None ->
  isFinal trailing = Some true ->
  oneFinalLast (assemblePayloads chunkPayloads trailingNeeded trailing) /\
  reactionOnLastChunk (assemblePayloads chunkPayloads trailingNeeded trailing).
Proof.
  intros [Hchunks Hreact] Hmsg Hrd Hfinal.
  assert (Hnotfinal : Forall (fun p => isFinal p <> Some true) chunkPayloads).
  { eapply Forall_impl; [|exact Hchunks]. intros p [Hp _]. simpl. congruence. }
  assert (Hhasmsg : Forall (fun p => is_Some (messageDelta p)) chunkPayloads).
  { eapply Forall_impl; [|exact Hchunks]. intros p [_ Hp]. exact Hp. }
  destruct trailingNeeded.
  - rewrite assemblePayloads_trailing. split.
    + exists chunkPayloads, trailing. auto.
    + apply reactionOnLastChunk_app; auto.
  - destruct (snoc_cases chunkPayloads) as [->|[init [last ->]]].
    + rewrite assemblePayloads_nothing. split.
      * eexists [], _. split; [reflexivity|]. split; [reflexivity | constructor].
      * apply (reactionOnLastChunk_app [] [_]).
        -- constructor.
        -- intros i p rd Hp. discriminate.
        -- constructor; [split; reflexivity | constructor].
    + rewrite assemblePayloads_last.
      apply Forall_app in Hnotfinal as [Hinit _].
      apply Forall_app in Hhasmsg as [Hmsginit Hmsglast].
      apply Forall_inv in Hmsglast.
      split.
      * eexists init, _. split; [reflexivity|]. split; [reflexivity | assumption].
      * rewrite <- (app_nil_r (init ++ [_])).
        apply reactionOnLastChunk_app.
        -- apply Forall_app. split; [assumption|].
           constructor; [exact Hmsglast | constructor].
        -- intros i p rd Hp Hprd. rewrite length_app. simpl.
           rewrite length_app in Hreact. simpl in Hreact.
           apply lookup_snoc_Some in Hp as [[Hlt Hp]|[-> <-]].
           ++ apply (Hreact i p rd); [|assumption].
              apply lookup_app_l_Some. assumption.
           ++ simpl in Hprd. apply (Hreact (length init) last rd); [|assumption].
              apply list_lookup_middle. reflexivity.
        -- constructor.
Qed.

(** ** Content hashes *)

Section HashFacts.
Variable sha256 : list Z -> list Z.

(** C4, as the code has it. For a message whose [content.type] is none of the
    known variants, [computeContentHash] does not fail: no case of its
    [switch] matches, there is no [default], and it returns the hash of the
    canonical string [senderId:type]. *)
Theorem computeContentHash_unknown_type (message : Message) :
  ~ In (contentType (m_content message)) knownContentTypes ->
  computeContentHashOutcome sha256 message =
    Ok (computeHash sha256
          (senderId (m_content message) +:+ ":" +:+ contentType (m_content message))) /\
  computeContentHashOutcome sha256 message <> Err UnsupportedContent.
Proof.
  intros Hunknown. split; [|discriminate].
  unfold computeContentHashOutcome, computeContentHash.
  destruct (m_content message); simpl in Hunknown |- *;
    try reflexivity; exfalso; apply Hunknown; tauto.
Qed.
End HashFacts.

(** The message [samplePoll], of type ['poll'], gets a hash. *)
Lemma computeContentHash_unknown_type_witness :
  ~ In (contentType (m_content samplePoll)) knownContentTypes /\
  computeContentHashOutcome sampleSha256 samplePoll =
    Ok (computeHash sampleSha256 "sender-address:poll") /\
  computeContentHashOutcome sampleSha256 samplePoll <> Err UnsupportedContent.
Proof.
  assert (Hunknown : ~ In (contentType (m_content samplePoll)) knownContentTypes)
    by (simpl; intuition discriminate).
  split; [assumption|].
  exact (computeContentHash_unknown_type sampleSha256 samplePoll Hunknown).
Defined.

(** C4 does not hold of the code: it is not the case that
    [computeContentHash] fails with [UnsupportedContent] on every message of
    an unknown type. *)
Lemma computeContentHash_unsupported_counterexample :
  ~ (forall (sha256 : list Z -> list Z) (message : Message),
       ~ In (contentType (m_content message)) knownContentTypes ->
       computeContentHashOutcome sha256 message = Err UnsupportedContent).
Proof.
  intros Hfails.
  specialize (Hfails sampleSha256 samplePoll).
  assert (Hunknown : ~ In (contentType (m_content samplePoll)) knownContentTypes)
    by (simpl; intuition discriminate).
  specialize (Hfails Hunknown). discriminate Hfails.
Qed.

(** ** The service *)

Section ServiceFacts.
Variable sha256 : list Z -> list Z.
Variable jsonLength : Message -> Z.
Context {St : Type} `{StorageAdapter St}.

(** The update methods of the service act on the cache of the space and
    channel by the blocks modelled above, and do nothing without a cache. *)
Lemma updateCacheWithMessage_cached (svc : SyncService St) spaceId channelId message cached :
  payloadCache svc !! getCacheKey spaceId channelId = Some cached ->
  payloadCache (updateCacheWithMessage sha256 svc spaceId channelId message)
    !! getCacheKey spaceId channelId =
  Some (updateCacheWithMessageIn sha256 cached message).
Proof.
  intros Hc. unfold updateCacheWithMessage. cbv zeta. rewrite Hc. simpl.
  apply lookup_insert_eq.
Qed.

Lemma removeCacheMessage_cached (svc : SyncService St) spaceId channelId messageId cached :
  payloadCache svc !! getCacheKey spaceId channelId = Some cached ->
  payloadCache (removeCacheMessage sha256 svc spaceId channelId messageId)
    !! getCacheKey spaceId channelId =
  Some (removeCacheMessageIn sha256 cached messageId).
Proof.
  intros Hc. unfold removeCacheMessage. cbv zeta. rewrite Hc. simpl.
  apply lookup_insert_eq.
Qed.

Lemma updateCacheWithMember_cached (svc : SyncService St) spaceId channelId member cached :
  payloadCache svc !! getCacheKey spaceId channelId = Some cached ->
  payloadCache (updateCacheWithMember sha256 svc spaceId channelId member)
    !! getCacheKey spaceId channelId =
  Some (updateCacheWithMemberIn sha256 cached member).
Proof.
  intros Hc. unfold updateCacheWithMember. cbv zeta. rewrite Hc. simpl.
  apply lookup_insert_eq.
Qed.

(** A successful [getPayloadCache] returns the cache the service then holds
    for the space and channel, and touches neither sessions nor tombstones. *)
Lemma getPayloadCache_ok spaceId channelId (svc svc' : SyncService St) cache :
  getPayloadCache sha256 spaceId channelId svc = (Ok cache, svc') ->
  payloadCache svc' !! getCacheKey spaceId channelId = Some cache /\
  sessions svc' = sessions svc /\ tombstones svc' = tombstones svc.
Proof.
  unfold getPayloadCache, bind, getService. cbv beta iota zeta.
  destruct (payloadCache svc !! getCacheKey spaceId channelId) as [cached|] eqn:Hc.
  - unfold ret. intros [= <- <-]. auto.
  - unfold getChannelMessages, bind, getService, callStorage, setPayloadCache, ret. simpl.
    destruct (getMessages (storage svc) spaceId channelId (maxMessages svc))
      as [[messages|e] st1]; simpl; [|discriminate].
    destruct (getSpaceMembers st1 spaceId) as [[members|e] st2]; simpl; [|discriminate].
    intros [= <- <-]. simpl. split; [apply lookup_insert_eq | auto].
Qed.

Lemma buildSyncDelta_ok spaceId channelId theirManifest theirMemberDigests theirPeerIds
    ourPeerEntries (svc svc' : SyncService St) payloads :
  buildSyncDelta sha256 jsonLength spaceId channelId theirManifest theirMemberDigests
    theirPeerIds ourPeerEntries svc = (Ok payloads, svc') ->
  exists cache,
    payloadCache svc' !! getCacheKey spaceId channelId = Some cache /\
    tombstones svc' = tombstones svc /\
    payloads =
      buildSyncDeltaFrom sha256 jsonLength cache (tombstones svc) spaceId channelId
        theirManifest theirMemberDigests theirPeerIds ourPeerEntries.
Proof.
  unfold buildSyncDelta, bind.
  destruct (getPayloadCache sha256 spaceId channelId svc) as [[cache|e] svc1] eqn:Hget;
    [|discriminate].
  apply getPayloadCache_ok in Hget as (Hc & _ & Ht).
  unfold getService, ret. intros [= <- <-]. exists cache. rewrite Ht. auto.
Qed.

Lemma getPayloadCache_cached spaceId channelId (svc : SyncService St) cache :
  payloadCache svc !! getCacheKey spaceId channelId = Some cache ->
  getPayloadCache sha256 spaceId channelId svc = (Ok cache, svc).
Proof.
  intros Hc. unfold getPayloadCache, bind, getService. cbv beta iota zeta.
  rewrite Hc. reflexivity.
Qed.

(** With a cache at hand [buildSyncDelta] does not call storage, and
    returns. *)
Lemma buildSyncDelta_cached spaceId channelId theirManifest theirMemberDigests theirPeerIds
    ourPeerEntries (svc : SyncService St) cache :
  payloadCache svc !! getCacheKey spaceId channelId = Some cache ->
  buildSyncDelta sha256 jsonLength spaceId channelId theirManifest theirMemberDigests
    theirPeerIds ourPeerEntries svc =
  (Ok (buildSyncDeltaFrom sha256 jsonLength cache (tombstones svc) spaceId channelId
         theirManifest theirMemberDigests theirPeerIds ourPeerEntries), svc).
Proof.
  intros Hc. unfold buildSyncDelta, bind.
  rewrite (getPayloadCache_cached _ _ _ _ Hc). reflexivity.
Qed.

Lemma buildReactionDelta_removed spaceId channelId messageMap messageIds :
  rdl_removed (buildReactionDelta spaceId channelId messageMap messageIds) = [].
Proof. reflexivity. Qed.

(** The payloads [buildSyncDelta] makes of the message chunks. *)
Lemma chunkPayloads_shape spaceId channelId messageDiff messageDelta reactionDelta chunks :
  chunkPayloadsShape
    (imap (chunkPayload spaceId channelId messageDiff messageDelta reactionDelta chunks)
       chunks).
Proof.
  split.
  - apply List.Forall_forall. intros p Hp.
    apply list_elem_of_In, list_elem_of_lookup in Hp as [i Hp].
    rewrite list_lookup_imap in Hp.
    destruct (chunks !! i) as [chunk|]; [|discriminate].
    injection Hp as <-. simpl. split; [reflexivity | eexists; reflexivity].
  - intros i p rd Hp Hrd. rewrite length_imap.
    rewrite list_lookup_imap in Hp.
    destruct (chunks !! i) as [chunk|] eqn:Hchunk; [|discriminate].
    injection Hp as <-. simpl in Hrd.
    apply lookup_lt_Some in Hchunk.
    destruct (i =? length chunks - 1)%nat eqn:Hlast; [|discriminate].
    apply Nat.eqb_eq in Hlast.
    destruct (nonEmpty (rdl_added reactionDelta)) eqn:Hne; [|discriminate].
    injection Hrd as <-. apply nonEmpty_true in Hne. split; [lia | assumption].
Qed.

(** [buildSyncDelta] ends with [assemblePayloads]. *)
Lemma buildSyncDeltaFrom_assemble cache tombstones spaceId channelId theirManifest
    theirMemberDigests theirPeerIds ourPeerEntries :
  exists chunkPayloads trailingNeeded trailing,
    buildSyncDeltaFrom sha256 jsonLength cache tombstones spaceId channelId theirManifest
      theirMemberDigests theirPeerIds ourPeerEntries =
    assemblePayloads chunkPayloads trailingNeeded trailing /\
    chunkPayloadsShape chunkPayloads /\
    messageDelta trailing = None /\ reactionDelta trailing = None /\
    isFinal trailing = Some true /\
    (forall p rd, In p chunkPayloads -> reactionDelta p = Some rd -> rdl_removed rd = []) /\
    (extraIds (computeMessageDiff (getManifest sha256 cache) theirManifest) = [] ->
     outdatedIds (computeMessageDiff (getManifest sha256 cache) theirManifest) = [] ->
     chunkPayloads = [] /\ trailingNeeded = true).
Proof.
  unfold buildSyncDeltaFrom.
  set (messageDiff := computeMessageDiff (getManifest sha256 cache) theirManifest).
  set (mDelta := buildMessageDelta spaceId channelId messageDiff (messageMap cache)
                   tombstones).
  set (rDelta := buildReactionDelta spaceId channelId (messageMap cache)
                   (extraIds messageDiff ++ outdatedIds messageDiff)).
  set (mbDelta := buildMemberDelta spaceId
                    (computeMemberDiff theirMemberDigests (getMemberDigests cache))
                    (memberMap cache)).
  set (pmDelta := {| pml_spaceId := spaceId;
                     pml_added :=
                       filterDefined
                         (map (JsMap.get ourPeerEntries)
                            (extraPeerIds
                               (computePeerDiff theirPeerIds (JsMap.keys ourPeerEntries))));
                     pml_updated := []; pml_removed := [] |}).
  set (allMessages := mdl_newMessages mDelta ++ mdl_updatedMessages mDelta).
  set (chunks := chunkMessages jsonLength allMessages).
  exists (if nonEmpty allMessages
          then imap (chunkPayload spaceId channelId messageDiff mDelta rDelta chunks) chunks
          else []),
         (nonEmpty (mbl_members mbDelta) || nonEmpty (pml_added pmDelta)
          || negb (nonEmpty allMessages)),
         {| messageDelta := None; reactionDelta := None;
            memberDelta := if nonEmpty (mbl_members mbDelta) then Some mbDelta else None;
            peerMapDelta := if nonEmpty (pml_added pmDelta) then Some pmDelta else None;
            isFinal := Some true |}.
  split; [reflexivity|].
  split.
  { destruct (nonEmpty allMessages); [apply chunkPayloads_shape|].
    split; [constructor | intros i p rd Hp; discriminate]. }
  split; [reflexivity|]. split; [reflexivity|]. split; [reflexivity|].
  split.
  { intros p rd Hp Hrd. destruct (nonEmpty allMessages); [|destruct Hp].
    apply list_elem_of_In, list_elem_of_lookup in Hp as [i Hp].
    rewrite list_lookup_imap in Hp.
    destruct (chunks !! i) as [chunk|]; [|discriminate].
    injection Hp as <-. simpl in Hrd.
    destruct (_ && _); [|discriminate]. injection Hrd as <-. reflexivity. }
  intros Hextra Houtdated.
  assert (Hall : allMessages = []).
  { subst allMessages mDelta. simpl. rewrite Hextra, Houtdated. reflexivity. }
  rewrite Hall. simpl. split; [reflexivity|]. apply orb_true_r.
Qed.
(** C1. In the sequence a call of [buildSyncDelta] returns, exactly one
    payload has [isFinal = true] and it is the last one; a payload carries a
    reaction delta only if it is the last message chunk, the reaction delta
    is then not empty, and at most one payload carries one. *)
Theorem buildSyncDelta_final_and_reactions spaceId channelId theirManifest
    theirMemberDigests theirPeerIds ourPeerEntries (svc svc' : SyncService St) payloads :
  buildSyncDelta sha256 jsonLength spaceId channelId theirManifest theirMemberDigests
    theirPeerIds ourPeerEntries svc = (Ok payloads, svc') ->
  oneFinalLast payloads /\ reactionOnLastChunk payloads.
Proof.
  intros Hrun. apply buildSyncDelta_ok in Hrun as (cache & _ & _ & ->).
  destruct (buildSyncDeltaFrom_assemble cache (tombstones svc) spaceId channelId
              theirManifest theirMemberDigests theirPeerIds ourPeerEntries)
    as (chunkPayloads & needed & trailing & -> & Hshape & Hmsg & Hrd & Hfinal & _).
  apply assemblePayloads_shape; assumption.
Qed.

(** C9. When the diff of the manifest of our cache against theirs has no
    extra and no outdated ID, no payload [buildSyncDelta] returns has a
    message delta, so none carries deleted message IDs, whatever the
    tombstones of the service. *)
Theorem buildSyncDelta_no_deletions_without_chunks spaceId channelId theirManifest
    theirMemberDigests theirPeerIds ourPeerEntries (svc svc' : SyncService St) payloads
    cache :
  buildSyncDelta sha256 jsonLength spaceId channelId theirManifest theirMemberDigests
    theirPeerIds ourPeerEntries svc = (Ok payloads, svc') ->
  payloadCache svc' !! getCacheKey spaceId channelId = Some cache ->
  extraIds (computeMessageDiff (getManifest sha256 cache) theirManifest) = [] ->
  outdatedIds (computeMessageDiff (getManifest sha256 cache) theirManifest) = [] ->
  Forall (fun p => messageDelta p = None /\ deletedIdsOf p = []) payloads.
Proof.
  intros Hrun Hcache Hextra Houtdated.
  apply buildSyncDelta_ok in Hrun as (cache' & Hcache' & _ & ->).
  assert (cache' = cache) by congruence. subst cache'.
  destruct (buildSyncDeltaFrom_assemble cache (tombstones svc) spaceId channelId
              theirManifest theirMemberDigests theirPeerIds ourPeerEntries)
    as (chunkPayloads & needed & trailing & -> & _ & Hmsg & _ & _ & _ & Hnone).
  destruct (Hnone Hextra Houtdated) as [-> ->].
  unfold assemblePayloads, push, deletedIdsOf. simpl.
  constructor; [|constructor]. rewrite Hmsg. auto.
Qed.

(** C10. The [removed] list of the delta [buildReactionDelta] returns is
    empty, on every input; and so is the [removed] list of the reaction
    delta of every payload [buildSyncDelta] returns. *)
Theorem reaction_delta_never_removes :
  (forall spaceId channelId messageMap messageIds,
     rdl_removed (buildReactionDelta spaceId channelId messageMap messageIds) = []) /\
  (forall spaceId channelId theirManifest theirMemberDigests theirPeerIds ourPeerEntries
          (svc svc' : SyncService St) payloads,
     buildSyncDelta sha256 jsonLength spaceId channelId theirManifest theirMemberDigests
       theirPeerIds ourPeerEntries svc = (Ok payloads, svc') ->
     forall p rd, In p payloads -> reactionDelta p = Some rd -> rdl_removed rd = []).
Proof.
  split; [intros; apply buildReactionDelta_removed|].
  intros spaceId channelId theirManifest theirMemberDigests theirPeerIds ourPeerEntries
    svc svc' payloads Hrun p rd Hp Hrd.
  apply buildSyncDelta_ok in Hrun as (cache & _ & _ & ->).
  destruct (buildSyncDeltaFrom_assemble cache (tombstones svc) spaceId channelId
              theirManifest theirMemberDigests theirPeerIds ourPeerEntries)
    as (chunkPayloads & needed & trailing & Heq & _ & _ & Htrail & _ & Hremoved & _).
  rewrite Heq in Hp. clear Heq. unfold assemblePayloads in Hp.
  assert (Hcases : In p chunkPayloads \/ reactionDelta p = None \/
                   In p (markLastFinal chunkPayloads)).
  { destruct needed.
    - unfold push in Hp. rewrite length_app in Hp. simpl in Hp.
      replace (length chunkPayloads + 1 =? 0)%nat with false in Hp
        by (symmetry; apply Nat.eqb_neq; lia).
      apply in_app_iff in Hp as [Hp|[<-|[]]]; auto.
    - destruct (nonEmpty chunkPayloads).
      + destruct (length (markLastFinal chunkPayloads) =? 0)%nat; [|auto].
        unfold push in Hp. apply in_app_iff in Hp as [Hp|[<-|[]]]; auto.
      + destruct (length chunkPayloads =? 0)%nat; [|auto].
        unfold push in Hp. apply in_app_iff in Hp as [Hp|[<-|[]]]; auto. }
  destruct Hcases as [Hin|[Hnone|Hin]].
  - eapply Hremoved; eassumption.
  - congruence.
  - apply list_elem_of_In, list_elem_of_lookup in Hin as [i Hi].
    unfold markLastFinal in Hi. rewrite list_lookup_alter in Hi.
    destruct (decide _) as [_|_].
    + destruct (chunkPayloads !! (length chunkPayloads - 1)%nat) as [p0|] eqn:Hp0;
        [|discriminate].
      simpl in Hi. injection Hi as <-. simpl in Hrd.
      apply (Hremoved p0 rd); [|assumption].
      apply list_elem_of_In, list_elem_of_lookup_2 with (length chunkPayloads - 1)%nat.
      assumption.
    + apply (Hremoved p rd); [|assumption].
      apply list_elem_of_In, list_elem_of_lookup_2 with i. assumption.
Qed.

(** *** Applying a delta *)

Lemma keepsSessions_ret {A : Type} (a : A) : keepsSessions (ret (St := St) a).
Proof. intros svc r svc' [= <- <-]. reflexivity. Qed.

Lemma keepsSessions_bind {A B : Type} (m : M St A) (k : A -> M St B) :
  keepsSessions m -> (forall a, keepsSessions (k a)) -> keepsSessions (bind m k).
Proof.
  intros Hm Hk svc r svc'. unfold bind.
  destruct (m svc) as [[a|e] svc1] eqn:Hrun.
  - intros Hk'. apply Hk in Hk'. apply Hm in Hrun. congruence.
  - intros [= <- <-]. apply Hm in Hrun. assumption.
Qed.

Lemma keepsSessions_callStorage {A : Type} (op : St -> Result A * St) :
  keepsSessions (callStorage op).
Proof.
  intros svc r svc'. unfold callStorage.
  destruct (op (storage svc)) as [r' st]. intros [= <- <-]. reflexivity.
Qed.

Lemma keepsSessions_forEach {A : Type} (xs : list A) (body : A -> M St unit) :
  (forall x, keepsSessions (body x)) -> keepsSessions (forEach xs body).
Proof.
  intros Hbody. induction xs as [|x xs IH]; simpl.
  - apply keepsSessions_ret.
  - apply keepsSessions_bind; [apply Hbody | intros _; exact IH].
Qed.

Lemma keepsSessions_applyMessageDelta delta : keepsSessions (applyMessageDelta delta).
Proof.
  unfold applyMessageDelta.
  repeat (apply keepsSessions_bind; [|intros _]);
    apply keepsSessions_forEach; intros x; apply keepsSessions_callStorage.
Qed.

Lemma keepsSessions_applyReactionDelta delta : keepsSessions (applyReactionDelta delta).
Proof.
  unfold applyReactionDelta.
  apply keepsSessions_bind; [|intros _]; apply keepsSessions_forEach; intros x;
    (apply keepsSessions_bind; [apply keepsSessions_callStorage|]);
    intros [message|]; try apply keepsSessions_callStorage; apply keepsSessions_ret.
Qed.

Lemma keepsSessions_applyMemberDelta delta : keepsSessions (applyMemberDelta delta).
Proof.
  unfold applyMemberDelta. apply keepsSessions_forEach. intros x.
  apply keepsSessions_callStorage.
Qed.

Lemma keepsSessions_whenPresent {A : Type} (o : option A) (f : A -> M St unit) :
  (forall a, keepsSessions (f a)) -> keepsSessions (whenPresent o f).
Proof. intros Hf. destruct o; [apply Hf | apply keepsSessions_ret]. Qed.

(** Where [applySyncDelta] does clean up: a final delta that is applied and
    carries a message delta with a space ID loses the session of that
    space. *)
Lemma applySyncDelta_final_with_messageDelta delta messages (svc svc' : SyncService St) :
  messageDelta delta = Some messages -> mdl_spaceId messages <> "" ->
  isFinal delta = Some true ->
  applySyncDelta delta svc = (Ok tt, svc') ->
  sessions svc' = delete (mdl_spaceId messages) (sessions svc).
Proof.
  intros Hmsg Hspace Hfinal. unfold applySyncDelta. rewrite Hmsg, Hfinal. simpl.
  assert (Htruthy : negb (String.eqb (mdl_spaceId messages) "") = true)
    by (apply negb_true_iff, String.eqb_neq; assumption).
  rewrite Htruthy. simpl. rewrite Htruthy.
  unfold bind.
  destruct (applyMessageDelta messages svc) as [[[]|e] svc1] eqn:H1; [|discriminate].
  apply keepsSessions_applyMessageDelta in H1.
  destruct (whenPresent (reactionDelta delta) applyReactionDelta svc1)
    as [[[]|e] svc2] eqn:H2; [|discriminate].
  apply (keepsSessions_whenPresent _ _ keepsSessions_applyReactionDelta) in H2.
  destruct (whenPresent (memberDelta delta) applyMemberDelta svc2)
    as [[[]|e] svc3] eqn:H3; [|discriminate].
  apply (keepsSessions_whenPresent _ _ keepsSessions_applyMemberDelta) in H3.
  unfold getService, setSessions. intros [= <-]. simpl. congruence.
Qed.

(** C5, evaluated on the final payload [buildSyncDelta] sends when it has no
    message and no member to send (with or without a peer-map delta):
    [applySyncDelta] finds no space ID in it ([messageDelta] and
    [memberDelta] are absent), returns, and leaves the service, and so every
    session, as it was. *)
Theorem applySyncDelta_final_without_space (svc : SyncService St)
    (peers : option PeerMapDelta) :
  isFinal (finalWithoutSpace peers) = Some true /\
  applySyncDelta (finalWithoutSpace peers) svc = (Ok tt, svc) /\
  sessions (snd (applySyncDelta (finalWithoutSpace peers) svc)) = sessions svc.
Proof. split; [reflexivity|]. split; reflexivity. Qed.
End ServiceFacts.

(** ** The properties on the sample service *)

(** The requester holds a session; a peer in sync answers with the bare
    final payload; after the requester has applied it, the session is still
    there. *)
Lemma in_sync_final_keeps_session :
  sessions sampleRequester !! "space-1" <> None /\
  fst sampleInSyncRun = Ok [finalWithoutSpace None] /\
  fst (applySyncDelta (finalWithoutSpace None) sampleRequester) = Ok tt /\
  sessions (snd (applySyncDelta (finalWithoutSpace None) sampleRequester)) !! "space-1" =
    sessions sampleRequester !! "space-1".
Proof.
  split; [vm_compute; discriminate|].
  split; [vm_compute; reflexivity|].
  split; reflexivity.
Qed.

(** The first sync of the sample service: two message chunks, the second
    with the reaction delta, and a final payload with the member. *)
Lemma buildSyncDelta_final_and_reactions_witness :
  sampleDeltaRun = (Ok samplePayloads, snd sampleDeltaRun) /\
  length samplePayloads = 3%nat /\
  oneFinalLast samplePayloads /\ reactionOnLastChunk samplePayloads.
Proof.
  assert (Hrun : sampleDeltaRun = (Ok samplePayloads, snd sampleDeltaRun))
    by (vm_compute; reflexivity).
  split; [exact Hrun|]. split; [reflexivity|].
  exact (buildSyncDelta_final_and_reactions sampleSha256 sampleJsonLength
           "space-1" "channel-1" emptyManifest [] [] [] sampleService
           (snd sampleDeltaRun) samplePayloads Hrun).
Defined.

(** A sync with nothing to send, by a service whose tombstone of the channel
    would put ["msg0"] into a message delta: the one payload returned has no
    message delta. *)
Lemma buildSyncDelta_no_deletions_without_chunks_witness :
  let theirManifest := getManifest sampleSha256 sampleLoadedCache in
  let diff := computeMessageDiff (getManifest sampleSha256 sampleLoadedCache) theirManifest in
  sampleQuietRun = (Ok sampleQuietPayloads, snd sampleQuietRun) /\
  payloadCache (snd sampleQuietRun) !! getCacheKey "space-1" "channel-1" =
    Some sampleLoadedCache /\
  extraIds diff = [] /\ outdatedIds diff = [] /\
  mdl_deletedMessageIds
    (buildMessageDelta "space-1" "channel-1" diff (messageMap sampleLoadedCache)
       (tombstones (snd sampleQuietRun))) = ["msg0"] /\
  Forall (fun p => messageDelta p = None /\ deletedIdsOf p = []) sampleQuietPayloads.
Proof.
  intros theirManifest diff.
  assert (Hrun : sampleQuietRun = (Ok sampleQuietPayloads, snd sampleQuietRun))
    by (vm_compute; reflexivity).
  assert (Hcache : payloadCache (snd sampleQuietRun) !! getCacheKey "space-1" "channel-1" =
                   Some sampleLoadedCache) by (vm_compute; reflexivity).
  assert (Hextra : extraIds diff = []) by (vm_compute; reflexivity).
  assert (Houtdated : outdatedIds diff = []) by (vm_compute; reflexivity).
  split; [exact Hrun|]. split; [exact Hcache|]. split; [exact Hextra|].
  split; [exact Houtdated|]. split; [vm_compute; reflexivity|].
  exact (buildSyncDelta_no_deletions_without_chunks sampleSha256 sampleJsonLength
           "space-1" "channel-1" theirManifest [] [] []
           (addTombstone sampleService sampleTombstone) (snd sampleQuietRun)
           sampleQuietPayloads sampleLoadedCache Hrun Hcache Hextra Houtdated).
Defined.

(** The reaction delta of the first sync of the sample service adds and
    does not remove. *)
Lemma reaction_delta_never_removes_witness :
  sampleDeltaRun = (Ok samplePayloads, snd sampleDeltaRun) /\
  rdl_removed
    (buildReactionDelta "space-1" "channel-1" (messageMap sampleLoadedCache) ["msg2"]) = [] /\
  (forall p rd, In p samplePayloads -> reactionDelta p = Some rd -> rdl_removed rd = []).
Proof.
  assert (Hrun : sampleDeltaRun = (Ok samplePayloads, snd sampleDeltaRun))
    by (vm_compute; reflexivity).
  split; [exact Hrun|]. split.
  - exact (proj1 (reaction_delta_never_removes sampleSha256 sampleJsonLength
                    (St := MemoryStore))
             "space-1" "channel-1" (messageMap sampleLoadedCache) ["msg2"]).
  - exact (proj2 (reaction_delta_never_removes sampleSha256 sampleJsonLength)
             "space-1" "channel-1" emptyManifest [] [] [] sampleService
             (snd sampleDeltaRun) samplePayloads Hrun).
Defined.

(** * Properties of the rest of the sync code *)

(** ** Sorting *)

Section SortFacts.
Context {A : Type} (cmp : A -> A -> Z).

Lemma sortInsert_perm x (l : list A) : Permutation (x :: l) (sortInsert cmp x l).
Proof.
  induction l as [|y l IH]; simpl; [reflexivity|].
  destruct (cmp x y <=? 0); [reflexivity|].
  rewrite perm_swap. constructor. exact IH.
Qed.

Lemma sortBy_perm (l : list A) : Permutation l (sortBy cmp l).
Proof.
  induction l as [|x l IH]; simpl; [reflexivity|].
  rewrite <- sortInsert_perm. constructor. exact IH.
Qed.

Lemma sortBy_length (l : list A) : length (sortBy cmp l) = length l.
Proof. symmetry. apply Permutation_length, sortBy_perm. Qed.

(** A comparator that orders: it is total, and transitive. *)
Hypothesis cmp_total : forall x y, cmp x y > 0 -> cmp y x <= 0.
Hypothesis cmp_trans : forall x y z, cmp x y <= 0 -> cmp y z <= 0 -> cmp x z <= 0.

Lemma sortInsert_sorted x (l : list A) :
  StronglySorted (fun a b => cmp a b <= 0) l ->
  StronglySorted (fun a b => cmp a b <= 0) (sortInsert cmp x l).
Proof.
  induction 1 as [|y l Hs IH Hall]; simpl.
  - repeat constructor.
  - destruct (Z.leb_spec (cmp x y) 0) as [Hle|Hgt].
    + constructor; [constructor; assumption|].
      constructor; [assumption|].
      eapply Forall_impl; [|exact Hall]. intros z Hz. simpl in Hz. eauto.
    + constructor; [exact IH|].
      apply List.Forall_forall. intros z Hz.
      apply (Permutation_in _ (Permutation_sym (sortInsert_perm x l))) in Hz.
      destruct Hz as [<-|Hz].
      * apply cmp_total. lia.
      * rewrite List.Forall_forall in Hall. auto.
Qed.

Lemma sortBy_sorted (l : list A) :
  StronglySorted (fun a b => cmp a b <= 0) (sortBy cmp l).
Proof.
  induction l as [|x l IH]; simpl; [constructor | apply sortInsert_sorted, IH].
Qed.

(** The first element after sorting: it is the first element of the input
    that no other element comes before. *)
Lemma sortBy_head (l : list A) x rest :
  sortBy cmp l = x :: rest ->
  exists before after,
    l = before ++ x :: after /\
    Forall (fun y => cmp y x > 0) before /\
    Forall (fun y => cmp x y <= 0) after.
Proof.
  revert x rest. induction l as [|a l IH]; intros x rest; simpl; [discriminate|].
  destruct (sortBy cmp l) as [|h t] eqn:Hsorted; simpl.
  - intros [= <- <-]. exists [], l. split; [reflexivity|]. split; [constructor|].
    assert (l = []) as ->; [|constructor].
    apply length_zero_iff_nil. rewrite <- (sortBy_length l), Hsorted. reflexivity.
  - destruct (IH h t eq_refl) as (before & after & -> & Hbefore & Hafter).
    destruct (Z.leb_spec (cmp a h) 0) as [Hle|Hgt].
    + intros [= <- <-]. exists [], (before ++ h :: after).
      split; [reflexivity|]. split; [constructor|].
      apply Forall_app. split.
      * eapply Forall_impl; [|exact Hbefore]. intros y Hy. simpl in Hy.
        apply cmp_trans with h; [assumption | apply cmp_total; assumption].
      * constructor; [assumption|].
        eapply Forall_impl; [|exact Hafter]. intros y Hy. simpl in Hy. eauto.
    + intros [= <- <-]. exists (a :: before), after.
      split; [reflexivity|]. split; [|assumption].
      constructor; [lia | assumption].
Qed.
End SortFacts.

(** ** Keys of insertion-ordered maps *)

Module JsMapKeys.
Section JsMapKeys.
Context {K : Type} `{EqDecision K}.
Import JsMapFacts.

(** The keys after [set] depend on the keys before only. *)
Lemma keys_set_same {V W : Type} (m : list (K * V)) (m' : list (K * W)) k v w :
  JsMap.keys m = JsMap.keys m' ->
  JsMap.keys (JsMap.set m k v) = JsMap.keys (JsMap.set m' k w).
Proof.
  intros Hkeys. rewrite !keys_set.
  assert (Hhas : JsMap.has m k = JsMap.has m' k).
  { destruct (JsMap.has m k) eqn:Hm.
    - apply has_true in Hm. rewrite Hkeys in Hm. apply has_true in Hm. congruence.
    - destruct (JsMap.has m' k) eqn:Hm'; [|reflexivity].
      apply has_true in Hm'. rewrite <- Hkeys in Hm'. apply has_true in Hm'. congruence. }
  rewrite <- Hhas, Hkeys. reflexivity.
Qed.

Lemma keys_fold_same {V W A : Type} (f : A -> K) (g : A -> V) (h : A -> W)
    (l : list A) (m : list (K * V)) (m' : list (K * W)) :
  JsMap.keys m = JsMap.keys m' ->
  JsMap.keys (fold_left (fun m e => JsMap.set m (fst e) (snd e))
                (map (fun a => (f a, g a)) l) m) =
  JsMap.keys (fold_left (fun m e => JsMap.set m (fst e) (snd e))
                (map (fun a => (f a, h a)) l) m').
Proof.
  revert m m'. induction l as [|a l IH]; intros m m' Hkeys; simpl; [assumption|].
  apply IH, keys_set_same, Hkeys.
Qed.

Lemma keys_fromEntries_same {V W A : Type} (f : A -> K) (g : A -> V) (h : A -> W)
    (l : list A) :
  JsMap.keys (JsMap.fromEntries (map (fun a => (f a, g a)) l)) =
  JsMap.keys (JsMap.fromEntries (map (fun a => (f a, h a)) l)).
Proof. apply keys_fold_same. reflexivity. Qed.

Lemma keys_delete {V : Type} (m : list (K * V)) k :
  JsMap.keys (JsMap.delete m k) =
  List.filter (fun k' => negb (bool_decide (k' = k))) (JsMap.keys m).
Proof.
  unfold JsMap.delete, JsMap.keys.
  induction m as [|[k' v] m IH]; simpl; [reflexivity|].
  destruct (negb (bool_decide (k' = k))); simpl; rewrite IH; reflexivity.
Qed.

Lemma NoDup_keys_delete {V : Type} (m : list (K * V)) k :
  NoDup (JsMap.keys m) -> NoDup (JsMap.keys (JsMap.delete m k)).
Proof. intros Hnd. rewrite keys_delete. apply List.NoDup_filter, Hnd. Qed.

Lemma get_delete {V : Type} (m : list (K * V)) k k' :
  JsMap.get (JsMap.delete m k) k' = if decide (k = k') then None else JsMap.get m k'.
Proof.
  destruct (decide (k = k')) as [<-|Hne];
    [apply get_delete_eq | apply get_delete_ne, Hne].
Qed.

Lemma get_set {V : Type} (m : list (K * V)) k v k' :
  JsMap.get (JsMap.set m k v) k' = if decide (k = k') then Some v else JsMap.get m k'.
Proof.
  destruct (decide (k = k')) as [<-|Hne]; [apply get_set_eq | apply get_set_ne, Hne].
Qed.

(** The values of a map are what its lookups give. *)
Lemma in_values {V : Type} (m : list (K * V)) v :
  NoDup (JsMap.keys m) ->
  In v (JsMap.values m) <-> exists k, JsMap.get m k = Some v.
Proof.
  intros Hnd. unfold JsMap.values. rewrite in_map_iff. split.
  - intros [[k v'] [Hv Hin]]. simpl in Hv. subst v'. exists k.
    apply in_get; assumption.
  - intros [k Hk]. exists (k, v). split; [reflexivity|]. apply in_get; assumption.
Qed.

(** A lookup in [new Map(entries)] finds one of the entries. *)
Lemma get_fromEntries_in {V : Type} (entries : list (K * V)) k v :
  JsMap.get (JsMap.fromEntries entries) k = Some v -> In (k, v) entries.
Proof.
  rewrite get_fromEntries. intros Hget. apply in_rev.
  induction (rev entries) as [|[k' v'] l IH]; simpl in *; [discriminate|].
  destruct (decide (k' = k)) as [->|]; [left; congruence | right; auto].
Qed.
End JsMapKeys.
End JsMapKeys.

(** ** Invariants of the payload cache *)

Section CacheInvariants.
Variable sha256 : list Z -> list Z.
Import JsMapFacts JsMapKeys.

Lemma get_fromEntries_map {A V : Type} (f : A -> string) (g : A -> V) (l : list A) k :
  JsMap.get (JsMap.fromEntries (map (fun a => (f a, g a)) l)) k =
  g <$> JsMap.get (JsMap.fromEntries (map (fun a => (f a, a)) l)) k.
Proof.
  rewrite !get_fromEntries, <- !map_rev.
  induction (rev l) as [|a l' IH]; simpl; [reflexivity|].
  destruct (decide (f a = k)); [reflexivity | exact IH].
Qed.

(** Whatever the operations, a cache built by [buildPayloadCache] is in a
    state the service can hold. *)
Lemma reachable_ops spaceId channelId messages members (ops : list CacheOp) :
  reachable sha256
    (fold_left (applyCacheOp sha256) ops
       (buildPayloadCache sha256 spaceId channelId messages members)).
Proof.
  induction ops as [|op ops IH] using rev_ind; simpl.
  - apply reachable_build.
  - rewrite fold_left_app. simpl.
    destruct op; [apply reachable_message | apply reachable_remove | apply reachable_member];
      exact IH.
Qed.

Lemma mapsAgree_build spaceId channelId messages members :
  mapsAgree sha256 (buildPayloadCache sha256 spaceId channelId messages members).
Proof.
  unfold buildPayloadCache. destruct (scanTimestamps messages) as [oldest newest].
  unfold mapsAgree. simpl.
  split; [apply keys_fromEntries_same|]. split; [apply keys_fromEntries_same|].
  split; [apply NoDup_keys_fromEntries|]. split; [apply NoDup_keys_fromEntries|].
  split.
  - intros id message Hget. split.
    + apply get_fromEntries_in, in_map_iff in Hget as [m [[= <- <-] _]]. reflexivity.
    + rewrite (get_fromEntries_map m_messageId (createMessageDigest sha256)), Hget.
      reflexivity.
  - intros address member Hget. split.
    + apply get_fromEntries_in, in_map_iff in Hget as [m [[= <- <-] _]]. reflexivity.
    + rewrite (get_fromEntries_map sm_address (createMemberDigest sha256)), Hget.
      reflexivity.
Qed.

Lemma mapsAgree_recalculate cache :
  mapsAgree sha256 cache -> mapsAgree sha256 (recalculateTimestamps cache).
Proof.
  unfold recalculateTimestamps.
  destruct (scanTimestamps (JsMap.values (messageMap cache))). exact id.
Qed.

Lemma reachable_mapsAgree cache : reachable sha256 cache -> mapsAgree sha256 cache.
Proof.
  induction 1 as [spaceId channelId messages members|cached message _ IH
                 |cached messageId _ IH|cached member _ IH].
  - apply mapsAgree_build.
  - destruct IH as (Hk & Hk' & Hnd & Hnd' & Hmsg & Hmem).
    unfold mapsAgree, updateCacheWithMessageIn. simpl.
    split; [apply keys_set_same, Hk|]. split; [assumption|].
    split; [apply NoDup_keys_set, Hnd|]. split; [assumption|].
    split; [|assumption].
    intros id m. rewrite !get_set.
    destruct (decide (m_messageId message = id)) as [<-|Hne].
    + intros [= <-]. auto.
    + apply Hmsg.
  - unfold removeCacheMessageIn.
    destruct (JsMap.get (messageMap cached) messageId) as [message|] eqn:Hget;
      [|exact IH].
    match goal with |- mapsAgree _ (if ?c then _ else _) => destruct c end;
      [apply mapsAgree_recalculate|];
      destruct IH as (Hk & Hk' & Hnd & Hnd' & Hmsg & Hmem);
      unfold mapsAgree; simpl;
      (split; [rewrite !keys_delete, Hk; reflexivity|]); (split; [assumption|]);
      (split; [apply NoDup_keys_delete, Hnd|]); (split; [assumption|]);
      (split; [|assumption]);
      intros id m; rewrite !get_delete;
      (destruct (decide (messageId = id)); [discriminate | apply Hmsg]).
  - destruct IH as (Hk & Hk' & Hnd & Hnd' & Hmsg & Hmem).
    unfold mapsAgree, updateCacheWithMemberIn. simpl.
    split; [assumption|]. split; [apply keys_set_same, Hk'|].
    split; [assumption|]. split; [apply NoDup_keys_set, Hnd'|].
    split; [assumption|].
    intros address m. rewrite !get_set.
    destruct (decide (sm_address member = address)) as [<-|Hne].
    + intros [= <-]. auto.
    + apply Hmem.
Qed.

(** The maps of a cache stay in step: after [buildPayloadCache] and any
    sequence of upserts, removals and member updates, [digestMap] has the
    keys of [messageMap] and [memberDigestMap] those of [memberMap], in the
    same order; every message is filed under its own ID, with the digest
    [createMessageDigest] gives for it; and the counts of the summary are
    the numbers of messages and of members held. *)
Theorem cache_maps_agree spaceId channelId messages members (ops : list CacheOp) :
  let cache :=
    fold_left (applyCacheOp sha256) ops
      (buildPayloadCache sha256 spaceId channelId messages members) in
  mapsAgree sha256 cache /\
  sum_messageCount (getSummary cache) = JsMap.size (messageMap cache) /\
  sum_memberCount (getSummary cache) = JsMap.size (memberMap cache).
Proof.
  intros cache.
  assert (Hagree : mapsAgree sha256 cache) by apply reachable_mapsAgree, reachable_ops.
  split; [exact Hagree|].
  destruct Hagree as (Hk & Hk' & _).
  unfold getSummary, JsMap.size, JsMap.keys in *. simpl.
  split; f_equal.
  - rewrite <- (length_map fst (digestMap cache)), Hk. apply length_map.
  - rewrite <- (length_map fst (memberDigestMap cache)), Hk'. apply length_map.
Qed.
End CacheInvariants.

Section CacheBounds.
Variable sha256 : list Z -> list Z.
Import JsMapFacts JsMapKeys.

(** What the scan for the boundary timestamps returns. *)
Lemma scanTimestamps_fold (messages : list Message) (oldest0 : number) (newest0 : Z) :
  let '(oldest, newest) :=
    fold_left
      (fun (acc : number * Z) msg =>
         let '(oldestTimestamp, newestTimestamp) := acc in
         (if ltNumber (m_createdDate msg) oldestTimestamp
          then Num (m_createdDate msg) else oldestTimestamp,
          if m_createdDate msg >? newestTimestamp
          then m_createdDate msg else newestTimestamp))
      messages (oldest0, newest0) in
  newest0 <= newest /\
  (forall m, In m messages -> m_createdDate m <= newest) /\
  (messages = [] /\ oldest = oldest0 \/
   exists v, oldest = Num v /\ (forall m, In m messages -> v <= m_createdDate m) /\
             match oldest0 with Num v0 => v <= v0 | Infinity => True end).
Proof.
  revert oldest0 newest0. induction messages as [|msg messages IH];
    intros oldest0 newest0; simpl.
  - split; [lia|]. split; [tauto|]. left. auto.
  - match goal with |- context [fold_left ?f messages (?o, ?n)] =>
      specialize (IH o n); destruct (fold_left f messages (o, n)) as [oldest newest]
    end.
    destruct IH as (Hn & Hall & Hold).
    assert (Hn0 : newest0 <= newest /\ m_createdDate msg <= newest).
    { destruct (Z.gtb_spec (m_createdDate msg) newest0); lia. }
    split; [lia|]. split; [intros m [<-|Hm]; [lia | auto]|].
    right. destruct Hold as [[-> ->]|(v & -> & Hv & Hle)].
    + destruct oldest0 as [v0|]; simpl.
      * destruct (Z.ltb_spec (m_createdDate msg) v0); eexists; (split; [reflexivity|]);
          (split; [intros m [<-|[]]; lia | lia]).
      * eexists. split; [reflexivity|]. split; [intros m [<-|[]]; lia | exact I].
    + exists v. split; [reflexivity|].
      destruct oldest0 as [v0|]; simpl in Hle.
      * destruct (Z.ltb_spec (m_createdDate msg) v0); simpl in Hle;
          (split; [intros m [<-|Hm]; [lia | auto] | lia]).
      * simpl in Hle. split; [intros m [<-|Hm]; [lia | auto] | exact I].
Qed.

Lemma scanTimestamps_spec (messages : list Message) :
  let '(oldest, newest) := scanTimestamps messages in
  0 <= newest /\
  (forall m, In m messages -> m_createdDate m <= newest) /\
  (messages = [] \/
   exists v, oldest = Num v /\ forall m, In m messages -> v <= m_createdDate m).
Proof.
  unfold scanTimestamps. pose proof (scanTimestamps_fold messages Infinity 0) as Hscan.
  destruct (fold_left _ messages (Infinity, 0)) as [oldest newest].
  destruct Hscan as (Hn & Hall & Hold). split; [assumption|]. split; [assumption|].
  destruct Hold as [[-> _]|(v & -> & Hv & _)]; [left; reflexivity | right; eauto].
Qed.

Lemma timestampsEnclose_recalculate cache :
  timestampsEnclose (recalculateTimestamps cache).
Proof.
  unfold recalculateTimestamps.
  pose proof (scanTimestamps_spec (JsMap.values (messageMap cache))) as Hscan.
  destruct (scanTimestamps (JsMap.values (messageMap cache))) as [oldest newest].
  destruct Hscan as (Hn & Hall & Hold). unfold timestampsEnclose. simpl.
  unfold JsMap.size, JsMap.values in *.
  destruct (messageMap cache) as [|e m] eqn:Hmap; simpl.
  - exists 0. split; [reflexivity|]. intros message [].
  - destruct Hold as [Hnil|(v & -> & Hv)]; [discriminate|].
    exists v. split; [reflexivity|]. intros message Hin. split; [apply Hv | apply Hall];
      exact Hin.
Qed.

Lemma reachable_timestampsEnclose cache :
  reachable sha256 cache -> timestampsEnclose cache.
Proof.
  induction 1 as [spaceId channelId messages members|cached message Hreach IH
                 |cached messageId Hreach IH|cached member _ IH].
  - unfold buildPayloadCache.
    pose proof (scanTimestamps_spec messages) as Hscan.
    destruct (scanTimestamps messages) as [oldest newest].
    destruct Hscan as (Hn & Hall & Hold). unfold timestampsEnclose. simpl.
    assert (Hsub : forall message,
              In message (JsMap.values
                            (JsMap.fromEntries (map (fun m => (m_messageId m, m)) messages))) ->
              In message messages).
    { intros message Hin.
      apply in_values in Hin as [k Hk]; [|apply NoDup_keys_fromEntries].
      apply get_fromEntries_in, in_map_iff in Hk as [m [[= _ <-] Hm]]. exact Hm. }
    destruct messages as [|m0 messages'] eqn:Hmessages.
    + exists 0. split; [reflexivity|]. intros message Hin. apply Hsub in Hin as [].
    + destruct Hold as [Hnil|(v & -> & Hv)]; [discriminate|].
      exists v. split; [reflexivity|]. intros message Hin. apply Hsub in Hin. split; auto.
  - destruct IH as (oldest & Hold & Hall).
    apply reachable_mapsAgree in Hreach as (_ & _ & Hnd & _).
    unfold timestampsEnclose, updateCacheWithMessageIn. simpl. rewrite Hold. simpl.
    assert (Hvalues : forall m,
              In m (JsMap.values
                      (JsMap.set (messageMap cached) (m_messageId message) message)) ->
              m = message \/ In m (JsMap.values (messageMap cached))).
    { intros m Hin. apply in_values in Hin as [k Hk]; [|apply NoDup_keys_set, Hnd].
      rewrite get_set in Hk. destruct (decide _); [left; congruence|].
      right. apply in_values; eauto. }
    exists (if m_createdDate message <? oldest then m_createdDate message else oldest).
    split; [destruct (m_createdDate message <? oldest); reflexivity|].
    intros m Hin. apply Hvalues in Hin as [->|Hin]; [|apply Hall in Hin];
      destruct (Z.ltb_spec (m_createdDate message) oldest);
      destruct (Z.gtb_spec (m_createdDate message) (newestTimestamp cached)); lia.
  - unfold removeCacheMessageIn.
    destruct (JsMap.get (messageMap cached) messageId) as [message|]; [|exact IH].
    match goal with |- timestampsEnclose (if ?c then _ else _) => destruct c end;
      [apply timestampsEnclose_recalculate|].
    destruct IH as (oldest & Hold & Hall). exists oldest. split; [exact Hold|]. simpl.
    intros m Hin. apply Hall. unfold JsMap.values, JsMap.delete in *.
    apply in_map_iff in Hin as [e [He Hin]]. apply List.filter_In in Hin as [Hin _].
    apply in_map_iff. eauto.
  - exact IH.
Qed.

(** The boundary timestamps always enclose the messages held: after
    [buildPayloadCache] and any sequence of upserts, removals and member
    updates, [oldestTimestamp] is a number at most the date of creation of
    every cached message, and [newestTimestamp] is at least that date. *)
Theorem cache_timestamps_enclose spaceId channelId messages members (ops : list CacheOp) :
  timestampsEnclose
    (fold_left (applyCacheOp sha256) ops
       (buildPayloadCache sha256 spaceId channelId messages members)).
Proof. apply reachable_timestampsEnclose, reachable_ops. Qed.
End CacheBounds.

Section CacheHash.
Variable sha256 : list Z -> list Z.
Import JsMapFacts JsMapKeys.

Lemma keys_fold_fresh {V : Type} (entries : list (string * V)) (m : list (string * V)) :
  NoDup (JsMap.keys m ++ map fst entries) ->
  JsMap.keys (fold_left (fun m e => JsMap.set m (fst e) (snd e)) entries m) =
  JsMap.keys m ++ map fst entries.
Proof.
  revert m. induction entries as [|[k v] entries IH]; intros m Hnd; simpl.
  - rewrite app_nil_r. reflexivity.
  - simpl in Hnd.
    assert (Hfresh : JsMap.has m k = false).
    { destruct (JsMap.has m k) eqn:Hhas; [|reflexivity].
      apply has_true in Hhas. apply NoDup_remove_2 in Hnd.
      exfalso. apply Hnd. apply in_app_iff. left. exact Hhas. }
    rewrite IH; rewrite keys_set, Hfresh, <- app_assoc; [reflexivity | exact Hnd].
Qed.

Lemma keys_fromEntries_fresh {A V : Type} (f : A -> string) (g : A -> V) (l : list A) :
  NoDup (map f l) ->
  JsMap.keys (JsMap.fromEntries (map (fun a => (f a, g a)) l)) = map f l.
Proof.
  intros Hnd. unfold JsMap.fromEntries. rewrite keys_fold_fresh; rewrite map_map; simpl.
  - reflexivity.
  - exact Hnd.
Qed.

Lemma xorOfIds_bytes32 ids : bytes32 (xorOfIds sha256 ids).
Proof.
  unfold xorOfIds. generalize (repeat 0 32) bytes32_zero.
  induction (map (hashMessageId sha256) ids) as [|h hs IH]; intros acc Hacc; simpl.
  - exact Hacc.
  - apply IH, xorIntoHash_bytes32, Hacc.
Qed.

Lemma xorOfIds_snoc ids id :
  xorOfIds sha256 (ids ++ [id]) =
  xorIntoHash (xorOfIds sha256 ids) (hashMessageId sha256 id).
Proof. unfold xorOfIds. rewrite map_app, fold_left_app. reflexivity. Qed.

Lemma xorOfIds_perm ids ids' :
  Permutation ids ids' -> xorOfIds sha256 ids = xorOfIds sha256 ids'.
Proof.
  intros Hperm. unfold xorOfIds. apply fold_xorIntoHash_perm, Permutation_map, Hperm.
Qed.

(** XOR-ing out the hash of one of the IDs leaves the XOR of the others. *)
Lemma xorOfIds_remove ids id :
  NoDup ids -> In id ids ->
  xorIntoHash (xorOfIds sha256 ids) (hashMessageId sha256 id) =
  xorOfIds sha256 (List.filter (fun k => negb (bool_decide (k = id))) ids).
Proof.
  intros Hnd Hin. apply in_split in Hin as (a & b & ->).
  assert (Hrest : List.filter (fun k => negb (bool_decide (k = id))) (a ++ id :: b) = a ++ b).
  { apply NoDup_remove_2 in Hnd. rewrite List.filter_app. simpl.
    rewrite bool_decide_eq_true_2 by reflexivity. simpl.
    f_equal; apply forallb_filter_id, forallb_forall; intros k Hk;
      apply negb_true_iff, bool_decide_eq_false_2; intros ->;
      apply Hnd, in_app_iff; auto. }
  rewrite Hrest.
  rewrite (xorOfIds_perm (a ++ id :: b) ((a ++ b) ++ [id])).
  - rewrite xorOfIds_snoc. apply xorIntoHash_involutive, xorOfIds_bytes32.
  - rewrite <- app_assoc. apply Permutation_app_head.
    apply Permutation_cons_append.
Qed.

Lemma xorExact_op cached op :
  reachable sha256 cached ->
  manifestHashBytes cached = xorOfIds sha256 (JsMap.keys (messageMap cached)) ->
  manifestHashBytes (applyCacheOp sha256 cached op) =
  xorOfIds sha256 (JsMap.keys (messageMap (applyCacheOp sha256 cached op))).
Proof.
  intros Hreach Hexact.
  apply reachable_mapsAgree in Hreach as (_ & _ & Hnd & _).
  destruct op as [message|messageId|member]; cbn [applyCacheOp].
  - rewrite manifestHashBytes_update. simpl. rewrite keys_set.
    destruct (JsMap.has (messageMap cached) (m_messageId message)); [exact Hexact|].
    rewrite xorOfIds_snoc, Hexact. reflexivity.
  - rewrite manifestHashBytes_remove.
    unfold removeCacheMessageIn, JsMap.has.
    destruct (JsMap.get (messageMap cached) messageId) as [message|] eqn:Hget;
      [|exact Hexact].
    assert (Hkeys : forall c : SyncPayloadCache,
              messageMap c = JsMap.delete (messageMap cached) messageId ->
              xorIntoHash (manifestHashBytes cached) (hashMessageId sha256 messageId) =
              xorOfIds sha256 (JsMap.keys (messageMap c))).
    { intros c ->. rewrite keys_delete, Hexact. apply xorOfIds_remove; [exact Hnd|].
      apply get_Some_keys. eexists; exact Hget. }
    match goal with |- _ = xorOfIds _ (JsMap.keys (messageMap (if ?c then _ else _))) =>
      destruct c end; apply Hkeys; [apply messageMap_recalculate | reflexivity].
  - exact Hexact.
Qed.

(** The manifest hash is the XOR of the hashes of the message IDs held: for
    a cache built from messages with distinct IDs, and after any sequence of
    upserts, removals and member updates, [manifestHashBytes] is the XOR,
    from 32 zero bytes, of [hashMessageId] over the keys of [messageMap]. *)
Theorem manifestHash_is_xor_of_ids spaceId channelId messages members
    (ops : list CacheOp) :
  NoDup (map m_messageId messages) ->
  let cache :=
    fold_left (applyCacheOp sha256) ops
      (buildPayloadCache sha256 spaceId channelId messages members) in
  manifestHashBytes cache = xorOfIds sha256 (JsMap.keys (messageMap cache)).
Proof.
  intros Hnd. induction ops as [|op ops IH] using rev_ind; simpl.
  - unfold buildPayloadCache. destruct (scanTimestamps messages).
    cbn [manifestHashBytes messageMap].
    rewrite keys_fromEntries_fresh by exact Hnd.
    unfold xorOfIds. rewrite map_map. generalize (repeat 0 32).
    clear Hnd. induction messages as [|m messages' IHm]; intros acc;
      [reflexivity | apply IHm].
  - rewrite fold_left_app. simpl. apply xorExact_op; [apply reachable_ops | exact IH].
Qed.
End CacheHash.

(** The XOR invariant on the sample cache, after an upsert, a removal of the
    message the cache was built from, and a member update. *)
Lemma manifestHash_is_xor_of_ids_witness :
  let ops := [OpMessage (sampleMessage "msg2" 2000); OpRemove "msg1";
              OpMember (sampleMember "addr1")] in
  NoDup (map m_messageId [sampleMessage "msg1" 1000]) /\
  manifestHashBytes (fold_left (applyCacheOp sampleSha256) ops sampleCache) =
  xorOfIds sampleSha256
    (JsMap.keys (messageMap (fold_left (applyCacheOp sampleSha256) ops sampleCache))).
Proof.
  intros ops.
  assert (Hnd : NoDup (map m_messageId [sampleMessage "msg1" 1000]))
    by (repeat constructor; simpl; tauto).
  split; [exact Hnd|].
  exact (manifestHash_is_xor_of_ids sampleSha256 "space-1" "channel-1"
           [sampleMessage "msg1" 1000] [] ops Hnd).
Defined.

(** ** Manifests *)

Lemma StronglySorted_weaken {A : Type} (R R' : A -> A -> Prop) (l : list A) :
  (forall a b, R a b -> R' a b) -> StronglySorted R l -> StronglySorted R' l.
Proof.
  intros Himpl. induction 1 as [|x l _ IH Hall]; constructor; [exact IH|].
  eapply Forall_impl; [|exact Hall]. intros b. apply Himpl.
Qed.

Lemma sortBy_createdDate_sorted {A : Type} (date : A -> Z) (l : list A) :
  StronglySorted (fun a b => date a <= date b) (sortBy (fun a b => date a - date b) l).
Proof.
  apply StronglySorted_weaken with (R := fun a b => date a - date b <= 0);
    [intros a b; lia|].
  apply sortBy_sorted; intros; lia.
Qed.

Section ManifestFacts.
Variable sha256 : list Z -> list Z.

(** The digests of the manifest of a cache are the digests held, each once,
    by ascending date of creation, and [messageCount] is their number. *)
Theorem getManifest_digests_sorted (cache : SyncPayloadCache) :
  let manifest := getManifest sha256 cache in
  StronglySorted (fun a b => md_createdDate a <= md_createdDate b)
    (sman_digests manifest) /\
  Permutation (JsMap.values (digestMap cache)) (sman_digests manifest) /\
  sman_messageCount manifest = Z.of_nat (length (sman_digests manifest)).
Proof.
  intros manifest. subst manifest. unfold getManifest. simpl.
  split; [apply sortBy_createdDate_sorted|]. split; [apply sortBy_perm|].
  rewrite sortBy_length. unfold JsMap.size, JsMap.values. rewrite length_map.
  reflexivity.
Qed.

Lemma or_number_Some z : or_number (Some z) 0 = z.
Proof. simpl. destruct (Z.eqb_spec z 0); congruence. Qed.

Lemma StronglySorted_last {A : Type} (date : A -> Z) (l : list A) x :
  StronglySorted (fun a b => date a <= date b) l ->
  list.last l = Some x -> forall y, In y l -> date y <= date x.
Proof.
  induction 1 as [|a l Hs IH Hall]; [discriminate|].
  destruct l as [|b l'].
  - intros [= <-] y [<-|[]]. lia.
  - intros Hlast y [<-|Hy].
    + rewrite List.Forall_forall in Hall. apply Hall.
      change (list.last (a :: b :: l')) with (list.last (b :: l')) in Hlast.
      apply list.last_Some in Hlast as [l'' ->]. apply in_app_iff. right. left.
      reflexivity.
    + apply IH; assumption.
Qed.

(** [createManifest] on a list of messages: the digests are those of the
    messages by ascending date of creation, [messageCount] is the number of
    messages, and [oldestTimestamp] and [newestTimestamp] are the least and
    the greatest date of creation (both 0 for no message). *)
Theorem createManifest_sorted_bounds spaceId channelId (messages : list Message) :
  let manifest := createManifest sha256 spaceId channelId messages in
  StronglySorted (fun a b => md_createdDate a <= md_createdDate b)
    (sman_digests manifest) /\
  Permutation (map (createMessageDigest sha256) messages) (sman_digests manifest) /\
  sman_messageCount manifest = Z.of_nat (length messages) /\
  match messages with
  | [] => sman_oldestTimestamp manifest = Num 0 /\ sman_newestTimestamp manifest = 0
  | _ :: _ =>
      exists first last,
        In first messages /\ In last messages /\
        sman_oldestTimestamp manifest = Num (m_createdDate first) /\
        sman_newestTimestamp manifest = m_createdDate last /\
        forall m, In m messages ->
          m_createdDate first <= m_createdDate m <= m_createdDate last
  end.
Proof.
  intros manifest. subst manifest. unfold createManifest.
  cbn [sman_digests sman_messageCount sman_oldestTimestamp sman_newestTimestamp].
  set (sorted := sortBy (fun a b => m_createdDate a - m_createdDate b) messages).
  assert (Hsorted : StronglySorted (fun a b => m_createdDate a <= m_createdDate b) sorted)
    by apply sortBy_createdDate_sorted.
  assert (Hperm : Permutation messages sorted) by apply sortBy_perm.
  split; [|split; [apply Permutation_map, Hperm | split; [reflexivity|]]].
  - clear Hperm. induction Hsorted as [|a l _ IH Hall]; simpl; constructor; [exact IH|].
    apply Forall_map. eapply Forall_impl; [|exact Hall]. intros b Hb. exact Hb.
  - destruct messages as [|m0 messages']; [split; reflexivity|].
    destruct sorted as [|first rest] eqn:Hs.
    { apply Permutation_length in Hperm. discriminate. }
    destruct (list.last (first :: rest)) as [last|] eqn:Hlast.
    2:{ apply list.last_None in Hlast. discriminate. }
    exists first, last. cbn [list.head fmap option_fmap option_map].
    rewrite !or_number_Some.
    split; [apply (Permutation_in _ (Permutation_sym Hperm)); left; reflexivity|].
    split.
    { apply (Permutation_in _ (Permutation_sym Hperm)).
      apply list.last_Some in Hlast as [l' ->]. apply in_app_iff. right. left.
      reflexivity. }
    split; [reflexivity|]. split; [reflexivity|].
    intros m Hm. apply (Permutation_in _ Hperm) in Hm. split.
    + apply StronglySorted_inv in Hsorted as [_ Hall].
      destruct Hm as [<-|Hm]; [lia|]. rewrite List.Forall_forall in Hall. auto.
    + apply (StronglySorted_last m_createdDate (first :: rest)); assumption.
Qed.
End ManifestFacts.

(** ** Candidates *)

Lemma candidateCompare_le a b : candidateCompare a b <= 0 <-> offersNoMore b a.
Proof.
  unfold candidateCompare, offersNoMore.
  destruct (Z.eqb_spec
              (sum_messageCount (cand_summary b) - sum_messageCount (cand_summary a)) 0);
    simpl; lia.
Qed.

Lemma candidateCompare_gt a b : candidateCompare a b > 0 <-> offersLess a b.
Proof.
  unfold candidateCompare, offersLess.
  destruct (Z.eqb_spec
              (sum_messageCount (cand_summary b) - sum_messageCount (cand_summary a)) 0);
    simpl; lia.
Qed.

Section CandidateFacts.
Context {St : Type} `{StorageAdapter St}.

(** [selectBestCandidate] returns nothing exactly when the space has no
    session or the session no candidate. The candidate it returns is one of
    the session, no candidate offers more than it (more messages, or as many
    messages and more members), and every candidate that answered before it
    offers less: among equals the first wins. *)
Theorem selectBestCandidate_best (svc : SyncService St) (spaceId : string) :
  match selectBestCandidate svc spaceId with
  | None =>
      sessions svc !! spaceId = None \/
      exists session, sessions svc !! spaceId = Some session /\ ss_candidates session = []
  | Some best =>
      exists session before after,
        sessions svc !! spaceId = Some session /\
        ss_candidates session = before ++ best :: after /\
        Forall (fun c => offersLess c best) before /\
        Forall (fun c => offersNoMore c best) after
  end.
Proof.
  unfold selectBestCandidate.
  destruct (sessions svc !! spaceId) as [session|]; [|left; reflexivity].
  destruct (Nat.eqb_spec (length (ss_candidates session)) 0) as [Hlen|Hlen].
  { right. exists session. split; [reflexivity|].
    destruct (ss_candidates session); [reflexivity | discriminate]. }
  destruct (sortBy candidateCompare (ss_candidates session)) as [|best rest] eqn:Hsort.
  { pose proof (sortBy_length candidateCompare (ss_candidates session)) as Hl.
    rewrite Hsort in Hl. simpl in Hl. congruence. }
  cbn [list.head]. apply sortBy_head in Hsort as (before & after & Heq & Hbefore & Hafter).
  - exists session, before, after. split; [reflexivity|]. split; [exact Heq|].
    split; (eapply Forall_impl; [|eassumption]); intros x Hx; simpl in Hx.
    + apply candidateCompare_gt. exact Hx.
    + apply candidateCompare_le. exact Hx.
  - intros x y Hxy. apply candidateCompare_gt in Hxy. apply candidateCompare_le.
    unfold offersLess, offersNoMore in *. lia.
  - intros x y z Hxy Hyz. apply candidateCompare_le in Hxy, Hyz.
    apply candidateCompare_le. unfold offersNoMore in *. lia.
Qed.
End CandidateFacts.

(** ** Chunks of members *)

Section MemberChunkingFacts.
Variable memberJsonLength : SpaceMember -> Z.

Local Abbreviation size := (memberChunkSize memberJsonLength).
Local Abbreviation good := (goodMemberChunk memberJsonLength).
Local Abbreviation greedy := (greedyChunks memberJsonLength).

Lemma memberChunkSize_push chunk member :
  size (push chunk member) = size chunk + memberJsonLength member.
Proof.
  unfold push. induction chunk as [|m chunk IH]; simpl; [lia|].
  rewrite IH. lia.
Qed.

Lemma push_not_nil {A : Type} (l : list A) x : push l x <> [].
Proof. unfold push. destruct l; discriminate. Qed.

Lemma greedy_snoc_grow chunks chunk member :
  chunk <> [] -> greedy (chunks ++ [chunk]) -> greedy (chunks ++ [push chunk member]).
Proof.
  intros Hne. induction chunks as [|c chunks IH]; simpl; [auto|].
  intros [Hc Hrest]. split; [|auto].
  destruct chunks as [|c' chunks']; simpl in *.
  - destruct chunk as [|m chunk']; [congruence|]. exact Hc.
  - exact Hc.
Qed.

Lemma greedy_snoc_new chunks chunk member :
  chunk <> [] -> size chunk + memberJsonLength member > MAX_CHUNK_SIZE ->
  greedy (chunks ++ [chunk]) -> greedy ((chunks ++ [chunk]) ++ [[member]]).
Proof.
  intros Hne Hover. induction chunks as [|c chunks IH]; simpl.
  - intros _. auto.
  - intros [Hc Hrest]. split; [|auto].
    destruct chunks as [|c' chunks']; simpl in *; exact Hc.
Qed.

Lemma chunkMembersStep_inv done st member :
  memberChunkInv memberJsonLength done st ->
  memberChunkInv memberJsonLength (done ++ [member])
    (chunkMembersStep memberJsonLength st member).
Proof.
  destruct st as [[chunks cur] sz]. unfold memberChunkInv, chunkMembersStep.
  intros (Hcat & Hgood & Hsz & Hcur & Hgreedy). subst sz.
  assert (Hone : good (push [] member))
    by (split; [apply push_not_nil | left; exists member; reflexivity]).
  destruct (nonEmpty cur) eqn:Hne.
  - apply nonEmpty_true in Hne.
    destruct Hcur as [[Hcur _]|Hcur]; [congruence|].
    destruct (Z.gtb_spec (size cur + memberJsonLength member) MAX_CHUNK_SIZE)
      as [Hover|Hfit]; cbn [andb].
    + split; [unfold push; rewrite concat_app; simpl; rewrite app_nil_r, Hcat; reflexivity|].
      split; [unfold push; apply Forall_app; split;
              [exact Hgood | constructor; [exact Hcur | constructor]]|].
      split; [rewrite memberChunkSize_push; simpl; lia|].
      split; [right; exact Hone|].
      unfold push. simpl. apply greedy_snoc_new; [assumption | lia | assumption].
    + split; [unfold push; rewrite <- Hcat, app_assoc; reflexivity|].
      split; [exact Hgood|].
      split; [rewrite memberChunkSize_push; lia|].
      split; [right; split; [apply push_not_nil | right; rewrite memberChunkSize_push; lia]|].
      apply greedy_snoc_grow; assumption.
  - apply nonEmpty_false in Hne. subst cur.
    destruct Hcur as [[_ ->]|[Hcur _]]; [|congruence].
    rewrite andb_false_r.
    split; [simpl in *; subst done; reflexivity|].
    split; [constructor|].
    split; [rewrite memberChunkSize_push; simpl; lia|].
    split; [right; exact Hone|].
    simpl. auto.
Qed.

Lemma chunkMembersLoop_inv members done st :
  memberChunkInv memberJsonLength done st ->
  memberChunkInv memberJsonLength (done ++ members)
    (fold_left (chunkMembersStep memberJsonLength) members st).
Proof.
  revert done st. induction members as [|m members IH]; intros done st Hinv; simpl.
  - rewrite app_nil_r. exact Hinv.
  - replace (done ++ m :: members) with ((done ++ [m]) ++ members)
      by (rewrite <- app_assoc; reflexivity).
    apply IH, chunkMembersStep_inv, Hinv.
Qed.

(** [chunkMembers] cuts the members into consecutive chunks: their
    concatenation is the input, no chunk is empty, a chunk of two members or
    more fits [MAX_CHUNK_SIZE], and each chunk but the last was closed
    because the first member of the next one did not fit. *)
Theorem chunkMembers_correct (members : list SpaceMember) :
  let chunks := chunkMembers memberJsonLength members in
  concat chunks = members /\
  Forall (goodMemberChunk memberJsonLength) chunks /\
  greedyChunks memberJsonLength chunks.
Proof.
  intros chunks. subst chunks. unfold chunkMembers.
  pose proof (chunkMembersLoop_inv members [] ([], [], 0)) as Hinv.
  destruct (fold_left (chunkMembersStep memberJsonLength) members ([], [], 0))
    as [[chunks cur] sz].
  simpl in Hinv. destruct Hinv as (Hcat & Hgood & _ & Hcur & Hgreedy).
  { split; [reflexivity|]. split; [constructor|]. split; [reflexivity|].
    split; [left; split; reflexivity | simpl; auto]. }
  destruct (nonEmpty cur) eqn:Hne.
  - apply nonEmpty_true in Hne. destruct Hcur as [[Hcur _]|Hcur]; [congruence|].
    unfold push. split; [rewrite concat_app; simpl; rewrite app_nil_r; exact Hcat|].
    split; [apply Forall_app; split; [exact Hgood | constructor; [exact Hcur | constructor]]|].
    exact Hgreedy.
  - apply nonEmpty_false in Hne. subst cur.
    destruct Hcur as [[_ ->]|[Hcur _]]; [|congruence].
    simpl in Hcat. subst members. split; [reflexivity|]. split; [constructor|].
    exact I.
Qed.
End MemberChunkingFacts.

(** ** Reaction, member and peer diffs *)

Section ReactionDiffFacts.
Variable sha256 : list Z -> list Z.

(** [computeReactionDiff] reports nothing, whatever the reactions and the
    digests: neither loop pushes to [toAdd] or to [toRemove]. *)
Theorem computeReactionDiff_empty (ourReactions : JsMap string (list Reaction))
    (theirDigests : list ReactionDigest) :
  computeReactionDiff sha256 ourReactions theirDigests = {| toAdd := []; toRemove := [] |}.
Proof.
  unfold computeReactionDiff.
  match goal with
  | |- context [fold_left ?f ?l ([], [])] =>
      assert (Hfold : forall entries acc, fold_left f entries acc = acc);
      [|rewrite (Hfold l); reflexivity]
  end.
  induction entries as [|[messageId theirMsgDigests] entries IH]; intros acc;
    [reflexivity|].
  cbn [fold_left]. rewrite IH.
  induction theirMsgDigests as [|d ds IHd]; [reflexivity|].
  cbn [fold_left].
  match goal with
  | |- fold_left _ _ ?x = _ => replace x with acc; [exact IHd|]
  end.
  destruct (JsMap.get _ (rd_emojiId d)); [|reflexivity].
  match goal with |- _ = if ?c then _ else _ => destruct c; reflexivity end.
Qed.
End ReactionDiffFacts.

Section MemberDiff.
Import JsMapFacts.

Lemma get_memberDigestEntries digests address :
  JsMap.get (memberDigestEntries digests) address = memberDigestFor digests address.
Proof.
  unfold memberDigestEntries, memberDigestFor. rewrite get_fromEntries, <- map_rev.
  induction (rev digests) as [|d l IH]; simpl; [reflexivity|].
  destruct (decide (mbd_address d = address)) as [->|Hne].
  - rewrite String.eqb_refl. reflexivity.
  - apply String.eqb_neq in Hne. rewrite Hne. exact IH.
Qed.

Lemma memberDigestFor_present digests address :
  is_Some (memberDigestFor digests address) <-> In address (map mbd_address digests).
Proof.
  rewrite <- get_memberDigestEntries, get_Some_keys. unfold memberDigestEntries.
  rewrite in_keys_fromEntries, map_map. reflexivity.
Qed.

Lemma memberDigestFor_absent digests address :
  memberDigestFor digests address = None <-> ~ In address (map mbd_address digests).
Proof.
  rewrite <- memberDigestFor_present. destruct (memberDigestFor digests address); split.
  - discriminate.
  - intros Hn. exfalso. apply Hn. eexists. reflexivity.
  - intros _ [d Hd]. discriminate.
  - reflexivity.
Qed.

Lemma computeMemberDiff_eq ourDigests theirDigests :
  computeMemberDiff ourDigests theirDigests =
  {| missingAddresses :=
       map fst (List.filter (memberIsMissing (memberDigestEntries ourDigests))
                  (memberDigestEntries theirDigests));
     outdatedAddresses :=
       map fst (List.filter (memberIsOutdated (memberDigestEntries ourDigests))
                  (memberDigestEntries theirDigests));
     extraAddresses :=
       map fst (List.filter (memberIsMissing (memberDigestEntries theirDigests))
                  (memberDigestEntries ourDigests)) |}.
Proof.
  unfold computeMemberDiff. fold (memberDigestEntries ourDigests).
  fold (memberDigestEntries theirDigests).
  set (ourMap := memberDigestEntries ourDigests).
  set (theirMap := memberDigestEntries theirDigests).
  assert (Hfirst : forall entries missing outdated,
            fold_left
              (fun (acc : list string * list string) (entry : string * MemberDigest) =>
                 let '(missing, outdated) := acc in
                 let '(address, theirDigest) := entry in
                 match JsMap.get ourMap address with
                 | None => (push missing address, outdated)
                 | Some ourDigest =>
                     if negb (String.eqb (mbd_displayNameHash ourDigest)
                                (mbd_displayNameHash theirDigest))
                        || negb (String.eqb (mbd_iconHash ourDigest)
                                   (mbd_iconHash theirDigest))
                     then (missing, push outdated address)
                     else (missing, outdated)
                 end)
              entries (missing, outdated) =
            (missing ++ map fst (List.filter (memberIsMissing ourMap) entries),
             outdated ++ map fst (List.filter (memberIsOutdated ourMap) entries))).
  { induction entries as [|[address theirDigest] entries IH]; intros missing outdated;
      simpl; [rewrite !app_nil_r; reflexivity|].
    unfold memberIsMissing, memberIsOutdated, JsMap.has, push; simpl.
    destruct (JsMap.get ourMap address) as [ourDigest|]; simpl.
    - match goal with |- context [if ?c then (_, _) else _] => destruct c end;
        rewrite IH; simpl; rewrite <- ?app_assoc; reflexivity.
    - rewrite IH. simpl. rewrite <- app_assoc. reflexivity. }
  assert (Hsecond : forall entries extra,
            fold_left
              (fun extra (entry : string * MemberDigest) =>
                 if negb (JsMap.has theirMap (fst entry)) then push extra (fst entry)
                 else extra)
              entries extra =
            extra ++ map fst (List.filter (memberIsMissing theirMap) entries)).
  { induction entries as [|e entries IH]; intros extra; simpl;
      [rewrite app_nil_r; reflexivity|].
    unfold memberIsMissing at 1. rewrite IH.
    destruct (negb (JsMap.has theirMap (fst e))); simpl; [|reflexivity].
    unfold push. rewrite <- app_assoc. reflexivity. }
  rewrite Hfirst, Hsecond. reflexivity.
Qed.

Lemma in_member_selected (p : string * MemberDigest -> bool) digests address :
  In address (map fst (List.filter p (memberDigestEntries digests))) <->
  exists d, memberDigestFor digests address = Some d /\ p (address, d) = true.
Proof.
  rewrite in_map_iff. split.
  - intros [[k d] [Hk Hin]]. simpl in Hk. subst k.
    apply List.filter_In in Hin as [Hin Hp].
    exists d. split; [|assumption].
    rewrite <- get_memberDigestEntries. apply in_get; [|assumption].
    apply NoDup_keys_fromEntries.
  - intros [d [Hd Hp]]. exists (address, d). split; [reflexivity|].
    apply List.filter_In. split; [|assumption].
    rewrite <- get_memberDigestEntries in Hd. apply in_get in Hd; [assumption|].
    apply NoDup_keys_fromEntries.
Qed.

Lemma NoDup_filter_keys {V : Type} (p : string * V -> bool) (m : list (string * V)) :
  NoDup (JsMap.keys m) -> NoDup (map fst (List.filter p m)).
Proof.
  unfold JsMap.keys. induction m as [|e l IH]; simpl; [constructor|].
  intros Hnd. apply NoDup_cons_iff in Hnd as [Hnotin Hnd].
  destruct (p e); simpl; [|apply IH; assumption].
  constructor; [|apply IH; assumption].
  intros Hin. apply Hnotin. apply in_map_iff in Hin as [e' [He' Hin]].
  apply List.filter_In in Hin as [Hin _]. apply in_map_iff. eauto.
Qed.

Lemma in_member_missing ours theirs address :
  In address (map fst (List.filter (memberIsMissing (memberDigestEntries ours))
                         (memberDigestEntries theirs))) <->
  In address (map mbd_address theirs) /\ ~ In address (map mbd_address ours).
Proof.
  rewrite in_member_selected, <- memberDigestFor_present, <- memberDigestFor_absent.
  unfold memberIsMissing. simpl. split.
  - intros [d [Hd Hp]]. split; [eexists; exact Hd|].
    apply negb_true_iff, has_false in Hp. rewrite <- get_memberDigestEntries. exact Hp.
  - intros [[d Hd] Hn]. exists d. split; [assumption|].
    apply negb_true_iff, has_false. rewrite get_memberDigestEntries. exact Hn.
Qed.

Lemma in_member_outdated ours theirs address :
  In address (map fst (List.filter (memberIsOutdated (memberDigestEntries ours))
                         (memberDigestEntries theirs))) <->
  exists ourDigest theirDigest,
    memberDigestFor ours address = Some ourDigest /\
    memberDigestFor theirs address = Some theirDigest /\
    (mbd_displayNameHash ourDigest <> mbd_displayNameHash theirDigest \/
     mbd_iconHash ourDigest <> mbd_iconHash theirDigest).
Proof.
  rewrite in_member_selected. unfold memberIsOutdated. simpl.
  rewrite get_memberDigestEntries. split.
  - intros [t [Ht Hp]]. destruct (memberDigestFor ours address) as [o|]; [|discriminate].
    exists o, t. split; [reflexivity|]. split; [assumption|].
    apply orb_true_iff in Hp as [Hp|Hp]; apply negb_true_iff, String.eqb_neq in Hp; tauto.
  - intros [o [t [Ho [Ht Hd]]]]. exists t. split; [assumption|].
    rewrite Ho. apply orb_true_iff.
    destruct Hd as [Hd|Hd]; [left|right]; apply negb_true_iff, String.eqb_neq; assumption.
Qed.

(** [computeMemberDiff] returns exactly: as [missingAddresses] the
    addresses of their digests that ours lack, as [extraAddresses] the
    addresses of ours that theirs lack, as [outdatedAddresses] the addresses
    both have with a different hash of the display name or of the icon; none
    of the three lists repeats an address. *)
Theorem computeMemberDiff_exact (ourDigests theirDigests : list MemberDigest) :
  let diff := computeMemberDiff ourDigests theirDigests in
  let ours := map mbd_address ourDigests in
  let theirs := map mbd_address theirDigests in
  (forall a, In a (missingAddresses diff) <-> In a theirs /\ ~ In a ours) /\
  (forall a, In a (extraAddresses diff) <-> In a ours /\ ~ In a theirs) /\
  (forall a, In a (outdatedAddresses diff) <->
     exists ourDigest theirDigest,
       memberDigestFor ourDigests a = Some ourDigest /\
       memberDigestFor theirDigests a = Some theirDigest /\
       (mbd_displayNameHash ourDigest <> mbd_displayNameHash theirDigest \/
        mbd_iconHash ourDigest <> mbd_iconHash theirDigest)) /\
  NoDup (missingAddresses diff) /\ NoDup (extraAddresses diff) /\
  NoDup (outdatedAddresses diff).
Proof.
  intros diff ours theirs. subst diff ours theirs.
  rewrite computeMemberDiff_eq. simpl.
  split; [intros a; apply in_member_missing|].
  split; [intros a; apply in_member_missing|].
  split; [intros a; apply in_member_outdated|].
  repeat split; apply NoDup_filter_keys, NoDup_keys_fromEntries.
Qed.
End MemberDiff.

(** [computePeerDiff] keeps, in order and with their repetitions, the peer
    IDs of each side that the other side does not list. *)
Theorem computePeerDiff_exact (ourPeerIds theirPeerIds : list Z) :
  let diff := computePeerDiff ourPeerIds theirPeerIds in
  (forall id, In id (missingPeerIds diff) <-> In id theirPeerIds /\ ~ In id ourPeerIds) /\
  (forall id, In id (extraPeerIds diff) <-> In id ourPeerIds /\ ~ In id theirPeerIds) /\
  (forall id, In id (missingPeerIds diff) -> ~ In id (extraPeerIds diff)).
Proof.
  assert (Hhas : forall l id, negb (setHas l id) = true <-> ~ In id l).
  { intros l id. unfold setHas. rewrite negb_true_iff. 
    destruct (existsb (Z.eqb id) l) eqn:He.
    - split; [discriminate|]. intros Hn. exfalso. apply Hn.
      apply existsb_exists in He as [x [Hx Hxe]]. apply Z.eqb_eq in Hxe. subst. exact Hx.
    - split; [|reflexivity]. intros _ Hin.
      assert (existsb (Z.eqb id) l = true); [|congruence].
      apply existsb_exists. exists id. split; [assumption | apply Z.eqb_refl]. }
  intros diff. subst diff. unfold computePeerDiff. simpl.
  split; [|split].
  - intros id. rewrite List.filter_In, Hhas. reflexivity.
  - intros id. rewrite List.filter_In, Hhas. reflexivity.
  - intros id. rewrite !List.filter_In, !Hhas. tauto.
Qed.

(** ** The payloads of [buildSyncDelta] *)

Lemma lookup_map {A B : Type} (f : A -> B) (l : list A) (i : nat) :
  map f l !! i = option_map f (l !! i).
Proof.
  revert i. induction l as [|x l IH]; intros [|i]; simpl; try reflexivity. apply IH.
Qed.

Lemma in_filterDefined {A : Type} (l : list (option A)) x :
  In x (filterDefined l) <-> In (Some x) l.
Proof.
  induction l as [|[y|] l IH]; simpl; [tauto| |].
  - rewrite IH. split; intros [H|H]; auto; left; congruence.
  - rewrite IH. split; [auto|]. intros [H|H]; [discriminate | assumption].
Qed.

Lemma map_all_None {A B : Type} (f : A -> option B) (l : list A) :
  Forall (fun x => f x = None) l -> map f l = repeat None (length l).
Proof.
  induction 1 as [|x l' Hx _ IH]; simpl; [reflexivity|]. rewrite Hx, IH. reflexivity.
Qed.

(** The last steps of [buildSyncDelta] seen through a part of the payloads
    that marking a payload final does not change. *)
Lemma assemblePayloads_map {B : Type} (f : SyncDeltaPayload -> B) chunkPayloads
    trailingNeeded trailing :
  (forall p,
     f {| messageDelta := messageDelta p; reactionDelta := reactionDelta p;
          memberDelta := memberDelta p; peerMapDelta := peerMapDelta p;
          isFinal := Some true |} = f p) ->
  map f (assemblePayloads chunkPayloads trailingNeeded trailing) =
  map f chunkPayloads ++
  (if trailingNeeded then [f trailing]
   else if nonEmpty chunkPayloads then []
   else [f (finalWithoutSpace None)]).
Proof.
  intros Hf. destruct trailingNeeded.
  - rewrite assemblePayloads_trailing, map_app. reflexivity.
  - destruct (snoc_cases chunkPayloads) as [->|(init & last & ->)].
    + rewrite assemblePayloads_nothing. reflexivity.
    + rewrite assemblePayloads_last.
      assert (Hne : nonEmpty (init ++ [last]) = true)
        by (apply nonEmpty_true; destruct init; discriminate).
      rewrite Hne, !map_app, app_nil_r. simpl. rewrite Hf. reflexivity.
Qed.

Section DeltaFacts.
Variable sha256 : list Z -> list Z.
Variable jsonLength : Message -> Z.
Context {St : Type} `{StorageAdapter St}.

(** No peer entry is ever added: the peer IDs the diff selects are the ones
    we do not know, and the entries are looked up among ours. *)
Lemma peerMapDelta_added_nil (theirPeerIds : list Z) (ourPeerEntries : JsMap Z PeerEntry) :
  filterDefined
    (map (JsMap.get ourPeerEntries)
       (extraPeerIds (computePeerDiff theirPeerIds (JsMap.keys ourPeerEntries)))) = [].
Proof.
  unfold computePeerDiff. simpl.
  induction theirPeerIds as [|id ids IH]; simpl; [reflexivity|].
  destruct (setHas (JsMap.keys ourPeerEntries) id) eqn:Hhas; simpl; [exact IH|].
  assert (Hget : JsMap.get ourPeerEntries id = None).
  { apply JsMapFacts.get_None_keys. intros Hin.
    assert (setHas (JsMap.keys ourPeerEntries) id = true); [|congruence].
    apply existsb_exists. exists id. split; [exact Hin | apply Z.eqb_refl]. }
  rewrite Hget. exact IH.
Qed.

Lemma buildSyncDeltaFrom_parts cache tombstones spaceId channelId theirManifest
    theirMemberDigests theirPeerIds ourPeerEntries :
  let memberDelta' :=
    buildMemberDelta spaceId
      (computeMemberDiff theirMemberDigests (getMemberDigests cache)) (memberMap cache) in
  let chunkPayloads :=
    chunkPayloadsOf sha256 jsonLength cache tombstones spaceId channelId theirManifest in
  buildSyncDeltaFrom sha256 jsonLength cache tombstones spaceId channelId theirManifest
    theirMemberDigests theirPeerIds ourPeerEntries =
  assemblePayloads chunkPayloads
    (nonEmpty (mbl_members memberDelta') || negb (nonEmpty chunkPayloads))
    {| messageDelta := None; reactionDelta := None;
       memberDelta := if nonEmpty (mbl_members memberDelta') then Some memberDelta' else None;
       peerMapDelta := None;
       isFinal := Some true |}.
Proof.
  intros memberDelta' chunkPayloads.
  assert (Hne : nonEmpty chunkPayloads =
                nonEmpty
                  (mdl_newMessages
                     (buildMessageDelta spaceId channelId
                        (computeMessageDiff (getManifest sha256 cache) theirManifest)
                        (messageMap cache) tombstones) ++
                   mdl_updatedMessages
                     (buildMessageDelta spaceId channelId
                        (computeMessageDiff (getManifest sha256 cache) theirManifest)
                        (messageMap cache) tombstones))).
  { subst chunkPayloads. unfold chunkPayloadsOf. cbv zeta.
    match goal with |- nonEmpty (if nonEmpty ?all then _ else _) = _ =>
      destruct all as [|m all'] eqn:Hall end; [reflexivity|].
    cbn [nonEmpty].
    pose proof (chunkMessages_good jsonLength (m :: all')) as [Hcat _].
    destruct (chunkMessages jsonLength (m :: all')) as [|c cs]; [discriminate|].
    reflexivity. }
  rewrite Hne. clear Hne.
  unfold buildSyncDeltaFrom. cbv zeta. rewrite peerMapDelta_added_nil.
  cbn [pml_added nonEmpty]. rewrite orb_false_r.
  reflexivity.
Qed.

Lemma chunkPayloadsOf_parts cache tombstones spaceId channelId theirManifest :
  Forall (fun p => memberDelta p = None /\ peerMapDelta p = None)
    (chunkPayloadsOf sha256 jsonLength cache tombstones spaceId channelId theirManifest).
Proof.
  unfold chunkPayloadsOf. cbv zeta.
  match goal with |- context [if ?c then _ else _] => destruct c end; [|constructor].
  apply List.Forall_forall. intros p Hp.
  apply list_elem_of_In, list_elem_of_lookup in Hp as [i Hp].
  rewrite list_lookup_imap in Hp.
  match type of Hp with context [?l !! i] => destruct (l !! i) as [chunk|] end;
    [|discriminate].
  injection Hp as <-. split; reflexivity.
Qed.

(** No payload of [buildSyncDelta] carries a peer-map delta, whatever the
    peers of the two sides: the peer IDs selected for the delta are those
    the other side lists and we do not, and none of them is a key of our
    peer entries. *)
Theorem buildSyncDelta_no_peerMapDelta spaceId channelId theirManifest
    theirMemberDigests theirPeerIds ourPeerEntries (svc svc' : SyncService St) payloads :
  buildSyncDelta sha256 jsonLength spaceId channelId theirManifest theirMemberDigests
    theirPeerIds ourPeerEntries svc = (Ok payloads, svc') ->
  Forall (fun p => peerMapDelta p = None) payloads.
Proof.
  intros Hrun. apply buildSyncDelta_ok in Hrun as (cache & _ & _ & ->).
  rewrite buildSyncDeltaFrom_parts.
  apply (proj1 (Forall_map peerMapDelta (fun o => o = None) _)).
  rewrite assemblePayloads_map by reflexivity.
  apply Forall_app. split.
  - apply Forall_map. eapply Forall_impl; [|apply chunkPayloadsOf_parts].
    intros p [_ Hp]. exact Hp.
  - repeat match goal with |- context [if ?c then _ else _] => destruct c end;
      repeat constructor.
Qed.

Lemma get_perm {V : Type} (l l' : list (string * V)) k :
  NoDup (JsMap.keys l) -> Permutation l l' -> JsMap.get l k = JsMap.get l' k.
Proof.
  intros Hnd Hperm.
  assert (Hnd' : NoDup (JsMap.keys l')).
  { eapply Permutation_NoDup; [|exact Hnd]. apply Permutation_map, Hperm. }
  destruct (JsMap.get l k) as [v|] eqn:Hget.
  - symmetry. apply JsMapFacts.in_get; [exact Hnd'|].
    apply (Permutation_in _ Hperm). apply JsMapFacts.in_get; assumption.
  - symmetry. apply JsMapFacts.get_None_keys. intros Hin.
    apply JsMapFacts.get_None_keys in Hget. apply Hget.
    apply (Permutation_in _ (Permutation_sym (Permutation_map fst Hperm))). exact Hin.
Qed.

Lemma entries_of_values {V : Type} (key : V -> string) (m : list (string * V)) :
  (forall k v, In (k, v) m -> key v = k) ->
  map (fun v => (key v, v)) (JsMap.values m) = m.
Proof.
  unfold JsMap.values. induction m as [|[k v] m IH]; intros Hkey; simpl; [reflexivity|].
  rewrite (Hkey k v) by (left; reflexivity). rewrite IH; [reflexivity|].
  intros k' v' Hin. apply Hkey. right. exact Hin.
Qed.

Lemma memberDigestMap_keyed cache :
  mapsAgree sha256 cache ->
  forall k d, In (k, d) (memberDigestMap cache) -> mbd_address d = k.
Proof.
  intros (_ & Hkeys & _ & Hnd & _ & Hmem) k d Hin.
  assert (Hk : In k (JsMap.keys (memberMap cache))).
  { rewrite <- Hkeys. apply in_map_iff. exists (k, d). auto. }
  apply JsMapFacts.get_Some_keys in Hk as [member Hget].
  destruct (Hmem k member Hget) as [Haddr Hdig].
  apply JsMapFacts.in_get in Hin; [|rewrite Hkeys; exact Hnd].
  rewrite Hdig in Hin. injection Hin as <-.
  unfold createMemberDigest. destruct (computeMemberHash sha256 member). exact Haddr.
Qed.

Lemma memberDigestFor_cache cache address :
  mapsAgree sha256 cache ->
  memberDigestFor (getMemberDigests cache) address =
  JsMap.get (memberDigestMap cache) address.
Proof.
  intros Hagree. rewrite <- get_memberDigestEntries. unfold memberDigestEntries.
  rewrite JsMapFacts.get_fromEntries. unfold getMemberDigests.
  rewrite entries_of_values by (apply memberDigestMap_keyed, Hagree).
  symmetry. apply get_perm; [|apply Permutation_rev].
  destruct Hagree as (_ & Hkeys & _ & Hnd & _). rewrite Hkeys. exact Hnd.
Qed.

Lemma memberDelta_members cache spaceId theirMemberDigests member :
  mapsAgree sha256 cache ->
  In member
    (mbl_members
       (buildMemberDelta spaceId
          (computeMemberDiff theirMemberDigests (getMemberDigests cache))
          (memberMap cache))) <->
  In member (JsMap.values (memberMap cache)) /\
  memberToSend sha256 theirMemberDigests member.
Proof.
  intros Hagree.
  pose proof Hagree as (_ & Hkeys & _ & Hnd & _ & Hmem).
  unfold buildMemberDelta. cbn [mbl_members].
  rewrite in_filterDefined, in_map_iff, JsMapKeys.in_values by exact Hnd.
  rewrite computeMemberDiff_eq. cbn [missingAddresses outdatedAddresses].
  unfold memberToSend. split.
  - intros (a & Hget & Hin). split; [exists a; exact Hget|].
    destruct (Hmem a member Hget) as [Haddr Hdig]. rewrite Haddr.
    apply in_app_iff in Hin as [Hin|Hin].
    + apply in_member_missing in Hin as [_ Hnot]. left. exact Hnot.
    + apply in_member_outdated in Hin as (o & t & Ho & Ht & Hdiff).
      rewrite memberDigestFor_cache, Hdig in Ht by exact Hagree. injection Ht as <-.
      right. exists o. split; [exact Ho | exact Hdiff].
  - intros [[a Hget] Hsend]. exists a. split; [exact Hget|].
    destruct (Hmem a member Hget) as [Haddr Hdig]. rewrite Haddr in Hsend.
    apply in_app_iff. destruct Hsend as [Hnot|(t & Ht & Hdiff)].
    + left. apply in_member_missing. split; [|exact Hnot].
      apply memberDigestFor_present. rewrite memberDigestFor_cache, Hdig by exact Hagree.
      eexists. reflexivity.
    + right. apply in_member_outdated. exists t, (createMemberDigest sha256 member).
      split; [exact Ht|]. split; [|exact Hdiff].
      rewrite memberDigestFor_cache by exact Hagree. exact Hdig.
Qed.

(** Members travel in the last payload only. When the cache of the channel
    is one whose maps agree, the member delta of a call of [buildSyncDelta]
    holds exactly the members of the cache the peer has no digest for, or a
    digest with another hash of the display name or the icon; it names the
    space and removes no address; and it is sent whenever there is such a
    member. *)
Theorem buildSyncDelta_member_delta spaceId channelId theirManifest
    theirMemberDigests theirPeerIds ourPeerEntries (svc svc' : SyncService St) payloads
    cache :
  buildSyncDelta sha256 jsonLength spaceId channelId theirManifest theirMemberDigests
    theirPeerIds ourPeerEntries svc = (Ok payloads, svc') ->
  payloadCache svc' !! getCacheKey spaceId channelId = Some cache ->
  mapsAgree sha256 cache ->
  (forall i p delta,
     payloads !! i = Some p -> memberDelta p = Some delta ->
     S i = length payloads /\ mbl_spaceId delta = spaceId /\
     mbl_removedAddresses delta = [] /\
     forall member,
       In member (mbl_members delta) <->
       In member (JsMap.values (memberMap cache)) /\
       memberToSend sha256 theirMemberDigests member) /\
  ((exists member,
      In member (JsMap.values (memberMap cache)) /\
      memberToSend sha256 theirMemberDigests member) ->
   exists p delta, list.last payloads = Some p /\ memberDelta p = Some delta).
Proof.
  intros Hrun Hcache Hagree.
  apply buildSyncDelta_ok in Hrun as (cache' & Hcache' & _ & ->).
  assert (cache' = cache) by congruence. subst cache'. clear Hcache'.
  rewrite buildSyncDeltaFrom_parts.
  set (delta' := buildMemberDelta spaceId
                   (computeMemberDiff theirMemberDigests (getMemberDigests cache))
                   (memberMap cache)).
  set (chunkPayloads := chunkPayloadsOf sha256 jsonLength cache (tombstones svc) spaceId
                          channelId theirManifest).
  set (needed := nonEmpty (mbl_members delta') || negb (nonEmpty chunkPayloads)).
  set (trailing := {| messageDelta := None; reactionDelta := None;
                      memberDelta := if nonEmpty (mbl_members delta') then Some delta'
                                     else None;
                      peerMapDelta := None; isFinal := Some true |}).
  pose proof (assemblePayloads_map memberDelta chunkPayloads needed trailing
                (fun p => eq_refl)) as Hmap.
  assert (Hchunks : map memberDelta chunkPayloads = repeat None (length chunkPayloads)).
  { apply map_all_None. eapply Forall_impl; [|apply chunkPayloadsOf_parts].
    intros p [Hp _]. exact Hp. }
  rewrite Hchunks in Hmap. split.
  - intros i p delta Hp Hdelta.
    assert (Hi : map memberDelta (assemblePayloads chunkPayloads needed trailing) !! i =
                 Some (Some delta)).
    { rewrite lookup_map, Hp. simpl. rewrite Hdelta. reflexivity. }
    assert (Hlen : length (assemblePayloads chunkPayloads needed trailing) =
                   length (map memberDelta (assemblePayloads chunkPayloads needed trailing)))
      by (rewrite length_map; reflexivity).
    rewrite Hlen. rewrite Hmap in Hi |- *.
    apply lookup_app_Some in Hi as [Hi|[Hle Hi]].
    { apply list_elem_of_lookup_2, list_elem_of_In, repeat_spec in Hi. discriminate. }
    rewrite repeat_length in Hle, Hi. rewrite length_app, repeat_length.
    assert (Htail : needed = true /\ nonEmpty (mbl_members delta') = true /\
                    delta = delta' /\ i = length chunkPayloads).
    { destruct needed.
      - destruct (i - length chunkPayloads)%nat as [|n] eqn:Hn;
          [|simpl in Hi; discriminate].
        unfold trailing in Hi. cbn [memberDelta] in Hi.
        destruct (nonEmpty (mbl_members delta')); cbn in Hi; [|discriminate].
        injection Hi as Hd. repeat split; [congruence | lia].
      - destruct (nonEmpty chunkPayloads); [simpl in Hi; discriminate|].
        destruct (i - length chunkPayloads)%nat; simpl in Hi; discriminate. }
    destruct Htail as (Hneeded & Hne & -> & ->). rewrite Hneeded.
    split; [simpl; lia|]. split; [reflexivity|]. split; [reflexivity|].
    intros member. apply memberDelta_members, Hagree.
  - intros (member & Hin & Hsend).
    assert (Hne : nonEmpty (mbl_members delta') = true).
    { apply nonEmpty_true. intros Hnil.
      assert (Hm : In member (mbl_members delta'))
        by (apply memberDelta_members; [exact Hagree | split; assumption]).
      rewrite Hnil in Hm. destruct Hm. }
    subst needed. rewrite Hne. cbn [orb]. rewrite assemblePayloads_trailing.
    exists trailing, delta'. split; [apply list.last_snoc|].
    subst trailing. cbn [memberDelta]. rewrite Hne. reflexivity.
Qed.

Lemma map_imap_const {A B C : Type} (f : B -> C) (g : nat -> A -> B) (h : A -> C)
    (l : list A) :
  (forall i x, f (g i x) = h x) -> map f (imap g l) = map h l.
Proof.
  revert g. induction l as [|x l IH]; intros g Hfg; simpl; [reflexivity|].
  rewrite Hfg. f_equal. apply IH. intros i y. apply Hfg.
Qed.

Lemma concat_map_filter {A : Type} (f : A -> bool) (ls : list (list A)) :
  concat (map (List.filter f) ls) = List.filter f (concat ls).
Proof.
  induction ls as [|l ls IH]; simpl; [reflexivity|].
  rewrite List.filter_app, IH. reflexivity.
Qed.

Lemma filter_all {A : Type} (f : A -> bool) (l : list A) :
  (forall x, In x l -> f x = true) -> List.filter f l = l.
Proof.
  induction l as [|x l IH]; intros Hall; simpl; [reflexivity|].
  rewrite (Hall x) by (left; reflexivity). f_equal. apply IH. intros y Hy.
  apply Hall. right. exact Hy.
Qed.

Lemma filter_none {A : Type} (f : A -> bool) (l : list A) :
  (forall x, In x l -> f x = false) -> List.filter f l = [].
Proof.
  induction l as [|x l IH]; intros Hall; simpl; [reflexivity|].
  rewrite (Hall x) by (left; reflexivity). apply IH. intros y Hy.
  apply Hall. right. exact Hy.
Qed.

Lemma includes_true (arr : list string) s : includes arr s = true <-> In s arr.
Proof.
  unfold includes. rewrite existsb_exists. split.
  - intros [x [Hx He]]. apply String.eqb_eq in He. subst. exact Hx.
  - intros Hin. exists s. split; [exact Hin | apply String.eqb_refl].
Qed.

Lemma includes_false (arr : list string) s : includes arr s = false <-> ~ In s arr.
Proof.
  rewrite <- includes_true. destruct (includes arr s); split; congruence.
Qed.

(** The message parts of the payloads, chunk by chunk. *)
Lemma chunkPayloadsOf_messages cache tombstones spaceId channelId theirManifest :
  let messageDiff := computeMessageDiff (getManifest sha256 cache) theirManifest in
  let delta :=
    buildMessageDelta spaceId channelId messageDiff (messageMap cache) tombstones in
  let allMessages := mdl_newMessages delta ++ mdl_updatedMessages delta in
  let chunkPayloads :=
    chunkPayloadsOf sha256 jsonLength cache tombstones spaceId channelId theirManifest in
  concat (map newMessagesOf chunkPayloads) =
    List.filter (fun m => includes (extraIds messageDiff) (m_messageId m)) allMessages /\
  concat (map updatedMessagesOf chunkPayloads) =
    List.filter (fun m => includes (outdatedIds messageDiff) (m_messageId m)) allMessages.
Proof.
  intros messageDiff delta allMessages chunkPayloads.
  subst chunkPayloads. unfold chunkPayloadsOf. cbv zeta.
  fold messageDiff. fold delta. fold allMessages.
  destruct (nonEmpty allMessages) eqn:Hne.
  - pose proof (chunkMessages_good jsonLength allMessages) as [Hcat _].
    split.
    + rewrite (map_imap_const newMessagesOf _
                 (List.filter (fun m => includes (extraIds messageDiff) (m_messageId m))))
        by reflexivity.
      rewrite concat_map_filter, Hcat. reflexivity.
    + rewrite (map_imap_const updatedMessagesOf _
                 (List.filter (fun m => includes (outdatedIds messageDiff) (m_messageId m))))
        by reflexivity.
      rewrite concat_map_filter, Hcat. reflexivity.
  - apply nonEmpty_false in Hne. rewrite Hne. split; reflexivity.
Qed.

Lemma concat_app_nil {A : Type} (ls : list (list A)) (tail : list (list A)) :
  Forall (fun l => l = []) tail -> concat (ls ++ tail) = concat ls.
Proof.
  intros Htail. rewrite concat_app.
  assert (Hnil : concat tail = []).
  { induction Htail as [|l tail' -> _ IH]; simpl; [reflexivity | exact IH]. }
  rewrite Hnil. apply app_nil_r.
Qed.

Lemma digestMap_keyed cache :
  mapsAgree sha256 cache ->
  forall k d, In (k, d) (digestMap cache) -> md_messageId d = k.
Proof.
  intros (Hkeys & _ & Hnd & _ & Hmsg & _) k d Hin.
  assert (Hk : In k (JsMap.keys (messageMap cache))).
  { rewrite <- Hkeys. apply in_map_iff. exists (k, d). auto. }
  apply JsMapFacts.get_Some_keys in Hk as [message Hget].
  destruct (Hmsg k message Hget) as [Hid Hdig].
  apply JsMapFacts.in_get in Hin; [|rewrite Hkeys; exact Hnd].
  rewrite Hdig in Hin. injection Hin as <-. exact Hid.
Qed.

Lemma digestFor_cache cache id :
  mapsAgree sha256 cache ->
  digestFor (getManifest sha256 cache) id = JsMap.get (digestMap cache) id.
Proof.
  intros Hagree. rewrite <- get_digestEntries. unfold digestEntries.
  rewrite JsMapFacts.get_fromEntries. unfold getManifest. cbn [sman_digests].
  symmetry. apply get_perm.
  - destruct Hagree as (Hkeys & _ & Hnd & _). rewrite Hkeys. exact Hnd.
  - rewrite <- (entries_of_values md_messageId (digestMap cache)) at 1
      by (apply digestMap_keyed, Hagree).
    rewrite <- Permutation_rev. apply Permutation_map, sortBy_perm.
Qed.

Lemma in_extraIds ourManifest theirManifest id :
  In id (extraIds (computeMessageDiff ourManifest theirManifest)) <->
  is_Some (digestFor ourManifest id) /\ digestFor theirManifest id = None.
Proof.
  rewrite computeMessageDiff_eq. cbn [extraIds]. rewrite in_selected.
  unfold isMissing. cbn [fst]. split.
  - intros [d [Hd Hp]]. split; [eexists; exact Hd|].
    apply negb_true_iff, JsMapFacts.has_false in Hp.
    rewrite <- get_digestEntries. exact Hp.
  - intros [[d Hd] Hn]. exists d. split; [exact Hd|].
    apply negb_true_iff, JsMapFacts.has_false. rewrite get_digestEntries. exact Hn.
Qed.

Lemma in_outdatedIds ourManifest theirManifest id :
  In id (outdatedIds (computeMessageDiff ourManifest theirManifest)) <->
  exists ourDigest theirDigest,
    digestFor ourManifest id = Some ourDigest /\
    digestFor theirManifest id = Some theirDigest /\
    md_contentHash ourDigest <> md_contentHash theirDigest /\
    effectiveModified theirDigest > effectiveModified ourDigest.
Proof.
  rewrite computeMessageDiff_eq. cbn [outdatedIds]. rewrite in_selected.
  unfold isOutdated. cbn [fst snd]. rewrite get_digestEntries. split.
  - intros [t [Ht Hp]]. destruct (digestFor ourManifest id) as [o|]; [|discriminate].
    apply andb_true_iff in Hp as [Hh Hd]. exists o, t.
    apply negb_true_iff, String.eqb_neq in Hh. apply Z.gtb_lt in Hd.
    repeat split; try assumption. lia.
  - intros (o & t & Ho & Ht & Hh & Hd). exists t. split; [exact Ht|].
    rewrite Ho. apply andb_true_iff. split.
    + apply negb_true_iff, String.eqb_neq. exact Hh.
    + apply Z.gtb_lt. lia.
Qed.

(** Looking the IDs of a diff up in the message map of a cache whose maps
    agree finds a message for each, with that ID. *)
Lemma lookup_ids cache (ids : list string) :
  mapsAgree sha256 cache ->
  (forall id, In id ids -> is_Some (JsMap.get (digestMap cache) id)) ->
  map m_messageId (filterDefined (map (JsMap.get (messageMap cache)) ids)) = ids.
Proof.
  intros (Hkeys & _ & _ & _ & Hmsg & _) Hids.
  induction ids as [|id ids IH]; simpl; [reflexivity|].
  assert (Hk : is_Some (JsMap.get (messageMap cache) id)).
  { apply JsMapFacts.get_Some_keys. rewrite <- Hkeys. apply JsMapFacts.get_Some_keys.
    apply Hids. left. reflexivity. }
  destruct Hk as [message Hget]. rewrite Hget. simpl.
  rewrite (proj1 (Hmsg id message Hget)). f_equal. apply IH.
  intros id' Hin. apply Hids. right. exact Hin.
Qed.

Lemma in_lookup_ids cache (ids : list string) message :
  mapsAgree sha256 cache ->
  In message (filterDefined (map (JsMap.get (messageMap cache)) ids)) <->
  In (m_messageId message) ids /\ In message (JsMap.values (messageMap cache)).
Proof.
  intros (_ & _ & Hnd & _ & Hmsg & _).
  rewrite in_filterDefined, in_map_iff, JsMapKeys.in_values by exact Hnd. split.
  - intros (id & Hget & Hin). destruct (Hmsg id message Hget) as [-> _].
    split; [exact Hin | exists id; exact Hget].
  - intros [Hin [k Hget]]. destruct (Hmsg k message Hget) as [Hid _].
    exists k. split; [exact Hget | rewrite <- Hid; exact Hin].
Qed.

(** Every message of the cache the peer lacks is sent as a new message, and
    nothing else is; the updated messages sent are the messages of the cache
    for which the peer holds a digest with another content hash and a later
    date of last change; no message is sent twice. This is for a cache whose
    maps agree. *)
Theorem buildSyncDelta_messages spaceId channelId theirManifest
    theirMemberDigests theirPeerIds ourPeerEntries (svc svc' : SyncService St) payloads
    cache :
  buildSyncDelta sha256 jsonLength spaceId channelId theirManifest theirMemberDigests
    theirPeerIds ourPeerEntries svc = (Ok payloads, svc') ->
  payloadCache svc' !! getCacheKey spaceId channelId = Some cache ->
  mapsAgree sha256 cache ->
  let sentNew := concat (map newMessagesOf payloads) in
  let sentUpdated := concat (map updatedMessagesOf payloads) in
  (forall message,
     In message sentNew <->
     In message (JsMap.values (messageMap cache)) /\
     ~ In (m_messageId message) (map md_messageId (sman_digests theirManifest))) /\
  (forall message,
     In message sentUpdated <->
     In message (JsMap.values (messageMap cache)) /\
     exists theirDigest,
       digestFor theirManifest (m_messageId message) = Some theirDigest /\
       md_contentHash (createMessageDigest sha256 message) <> md_contentHash theirDigest /\
       effectiveModified theirDigest >
         effectiveModified (createMessageDigest sha256 message)) /\
  NoDup (map m_messageId (sentNew ++ sentUpdated)).
Proof.
  intros Hrun Hcache Hagree sentNew sentUpdated. subst sentNew sentUpdated.
  apply buildSyncDelta_ok in Hrun as (cache' & Hcache' & _ & ->).
  assert (cache' = cache) by congruence. subst cache'. clear Hcache'.
  rewrite buildSyncDeltaFrom_parts.
  rewrite (assemblePayloads_map newMessagesOf) by reflexivity.
  rewrite (assemblePayloads_map updatedMessagesOf) by reflexivity.
  rewrite !concat_app_nil
    by (repeat match goal with |- context [if ?c then _ else _] => destruct c end;
        repeat constructor).
  destruct (chunkPayloadsOf_messages cache (tombstones svc) spaceId channelId theirManifest)
    as [-> ->].
  set (diff := computeMessageDiff (getManifest sha256 cache) theirManifest).
  unfold buildMessageDelta. cbn [mdl_newMessages mdl_updatedMessages].
  set (sentNew := filterDefined (map (JsMap.get (messageMap cache)) (extraIds diff))).
  set (sentUpdated := filterDefined (map (JsMap.get (messageMap cache)) (outdatedIds diff))).
  pose proof Hagree as (Hkeys & _ & Hnd & _ & Hmsg & _).
  assert (Hdisjoint : forall id, In id (extraIds diff) -> ~ In id (outdatedIds diff)).
  { intros id Hextra Hout. apply in_extraIds in Hextra as [_ Hnone].
    apply in_outdatedIds in Hout as (o & t & _ & Ht & _). congruence. }
  assert (Hnew : List.filter (fun m => includes (extraIds diff) (m_messageId m))
                   (sentNew ++ sentUpdated) = sentNew).
  { rewrite List.filter_app, filter_all, filter_none; [apply app_nil_r | |].
    - intros m Hm. apply in_lookup_ids in Hm as [Hm _]; [|exact Hagree].
      apply includes_false. intros Hextra. exact (Hdisjoint _ Hextra Hm).
    - intros m Hm. apply in_lookup_ids in Hm as [Hm _]; [|exact Hagree].
      apply includes_true. exact Hm. }
  assert (Hupdated : List.filter (fun m => includes (outdatedIds diff) (m_messageId m))
                       (sentNew ++ sentUpdated) = sentUpdated).
  { rewrite List.filter_app, filter_none, filter_all; [reflexivity | |].
    - intros m Hm. apply in_lookup_ids in Hm as [Hm _]; [|exact Hagree].
      apply includes_true. exact Hm.
    - intros m Hm. apply in_lookup_ids in Hm as [Hm _]; [|exact Hagree].
      apply includes_false. intros Hout. exact (Hdisjoint _ Hm Hout). }
  rewrite Hnew, Hupdated.
  assert (Hheld : forall message,
            In message (JsMap.values (messageMap cache)) ->
            digestFor (getManifest sha256 cache) (m_messageId message) =
            Some (createMessageDigest sha256 message)).
  { intros message Hin. apply JsMapKeys.in_values in Hin as [k Hget]; [|exact Hnd].
    destruct (Hmsg k message Hget) as [Hid Hdig].
    rewrite digestFor_cache, Hid by exact Hagree. exact Hdig. }
  split; [|split].
  - intros message. subst sentNew. rewrite in_lookup_ids by exact Hagree.
    unfold diff. rewrite in_extraIds, digestFor_absent. split.
    + intros [[_ Hnot] Hin]. split; assumption.
    + intros [Hin Hnot]. split; [|exact Hin]. split; [|exact Hnot].
      rewrite (Hheld message Hin). eexists. reflexivity.
  - intros message. subst sentUpdated. rewrite in_lookup_ids by exact Hagree.
    unfold diff. rewrite in_outdatedIds. split.
    + intros [(o & t & Ho & Ht & Hh & Hd) Hin]. split; [exact Hin|].
      rewrite (Hheld message Hin) in Ho. injection Ho as <-.
      exists t. split; [exact Ht|]. split; assumption.
    + intros [Hin (t & Ht & Hh & Hd)]. split; [|exact Hin].
      exists (createMessageDigest sha256 message), t.
      split; [apply Hheld, Hin|]. split; [exact Ht|]. split; assumption.
  - rewrite map_app. subst sentNew sentUpdated.
    assert (Hours : forall id,
              is_Some (digestFor (getManifest sha256 cache) id) ->
              is_Some (JsMap.get (digestMap cache) id)).
    { intros id. rewrite digestFor_cache by exact Hagree. auto. }
    rewrite !lookup_ids; try exact Hagree.
    + apply NoDup_app; [| |exact Hdisjoint]; unfold diff; rewrite computeMessageDiff_eq;
        apply NoDup_selected.
    + intros id Hin. apply Hours. apply in_outdatedIds in Hin as (o & _ & Ho & _).
      eexists. exact Ho.
    + intros id Hin. apply Hours. apply in_extraIds in Hin as [Ho _]. exact Ho.
Qed.

Lemma chunkPayloadsOf_lookup cache tombstones spaceId channelId theirManifest i p :
  let chunkPayloads :=
    chunkPayloadsOf sha256 jsonLength cache tombstones spaceId channelId theirManifest in
  chunkPayloads !! i = Some p ->
  is_Some (messageDelta p) /\
  deletedIdsOf p =
    if (i =? length chunkPayloads - 1)%nat
    then channelTombstoneIds tombstones spaceId channelId else [].
Proof.
  intros chunkPayloads. subst chunkPayloads. unfold chunkPayloadsOf. cbv zeta.
  match goal with |- context [if nonEmpty ?all then _ else _] =>
    destruct (nonEmpty all) end; [|discriminate].
  rewrite length_imap, list_lookup_imap.
  match goal with |- context [?l !! i] => destruct (l !! i) as [chunk|] end;
    [|discriminate].
  intros [= <-]. split; [eexists; reflexivity|]. reflexivity.
Qed.

(** The IDs of deleted messages travel with the last message chunk only,
    and they are the IDs of all the tombstones the service holds for the
    channel, whatever the peer knows. *)
Theorem buildSyncDelta_deletions_on_last_chunk spaceId channelId theirManifest
    theirMemberDigests theirPeerIds ourPeerEntries (svc svc' : SyncService St) payloads :
  buildSyncDelta sha256 jsonLength spaceId channelId theirManifest theirMemberDigests
    theirPeerIds ourPeerEntries svc = (Ok payloads, svc') ->
  forall i p,
    payloads !! i = Some p -> is_Some (messageDelta p) ->
    (lastMessageChunk payloads i ->
     deletedIdsOf p = channelTombstoneIds (tombstones svc) spaceId channelId) /\
    (~ lastMessageChunk payloads i -> deletedIdsOf p = []).
Proof.
  intros Hrun. apply buildSyncDelta_ok in Hrun as (cache & _ & _ & ->).
  rewrite buildSyncDeltaFrom_parts.
  set (delta' := buildMemberDelta spaceId
                   (computeMemberDiff theirMemberDigests (getMemberDigests cache))
                   (memberMap cache)).
  set (chunkPayloads := chunkPayloadsOf sha256 jsonLength cache (tombstones svc) spaceId
                          channelId theirManifest).
  set (needed := nonEmpty (mbl_members delta') || negb (nonEmpty chunkPayloads)).
  set (trailing := {| messageDelta := None; reactionDelta := None;
                      memberDelta := if nonEmpty (mbl_members delta') then Some delta'
                                     else None;
                      peerMapDelta := None; isFinal := Some true |}).
  set (payloads := assemblePayloads chunkPayloads needed trailing).
  assert (Hparts : exists tail,
            map (fun p => (messageDelta p, deletedIdsOf p)) payloads =
            map (fun p => (messageDelta p, deletedIdsOf p)) chunkPayloads ++ tail /\
            Forall (fun q => fst q = None) tail).
  { eexists. split; [apply (assemblePayloads_map (fun p => (messageDelta p, deletedIdsOf p)));
                     reflexivity|].
    repeat match goal with |- context [if ?c then _ else _] => destruct c end;
      repeat constructor. }
  destruct Hparts as (tail & Hmap & Htail).
  assert (Hchunk : forall j q,
            payloads !! j = Some q ->
            (j < length chunkPayloads)%nat /\
            (exists c, chunkPayloads !! j = Some c /\ messageDelta q = messageDelta c /\
                       deletedIdsOf q = deletedIdsOf c) \/
            (length chunkPayloads <= j)%nat /\ messageDelta q = None).
  { intros j q Hq.
    assert (Hj : map (fun p => (messageDelta p, deletedIdsOf p)) payloads !! j =
                 Some (messageDelta q, deletedIdsOf q))
      by (rewrite lookup_map, Hq; reflexivity).
    rewrite Hmap in Hj. apply lookup_app_Some in Hj as [Hj|[Hle Hj]].
    - left. rewrite lookup_map in Hj.
      destruct (chunkPayloads !! j) as [c|] eqn:Hc; [|discriminate].
      simpl in Hj. injection Hj as Hm Hd.
      split; [apply lookup_lt_Some in Hc; exact Hc|].
      exists c. auto.
    - right. rewrite length_map in Hle, Hj. split; [exact Hle|].
      apply list_elem_of_lookup_2, list_elem_of_In in Hj.
      rewrite List.Forall_forall in Htail. exact (Htail _ Hj). }
  intros i p Hp Hsome.
  destruct (Hchunk i p Hp) as [(Hlt & c & Hc & Hm & Hd)|[_ Hnone]].
  2:{ rewrite Hnone in Hsome. destruct Hsome as [? Hs]. discriminate. }
  destruct (chunkPayloadsOf_lookup _ _ _ _ _ _ _ Hc) as [_ Hdel].
  fold chunkPayloads in Hdel. rewrite Hd, Hdel.
  assert (Hlast : lastMessageChunk payloads i <-> S i = length chunkPayloads).
  { split.
    - intros [_ Hafter].
      destruct (decide (S i = length chunkPayloads)) as [Heq|Hne]; [exact Heq|].
      assert (Hlt' : (S i < length chunkPayloads)%nat) by lia.
      destruct (lookup_lt_is_Some_2 chunkPayloads (S i) Hlt') as [c' Hc'].
      assert (Hq : exists q, payloads !! S i = Some q).
      { apply lookup_lt_is_Some_2.
        assert (Hlen : length payloads =
                       length (map (fun p => (messageDelta p, deletedIdsOf p)) payloads))
          by (rewrite length_map; reflexivity).
        rewrite Hlen, Hmap, length_app, length_map. lia. }
      destruct Hq as [q Hq].
      pose proof (Hafter (S i) q (Nat.lt_succ_diag_r i) Hq) as Hnone.
      destruct (Hchunk (S i) q Hq) as [(_ & c'' & Hc'' & Hm' & _)|[Hle _]]; [|lia].
      destruct (chunkPayloadsOf_lookup _ _ _ _ _ _ _ Hc'') as [[? Hs] _].
      rewrite Hm', Hs in Hnone. discriminate.
    - intros Heq. split; [exists p; auto|].
      intros j q Hij Hq.
      destruct (Hchunk j q Hq) as [(Hlt' & _)|[_ Hnone]]; [lia | exact Hnone]. }
  split.
  - intros Hl. apply Hlast in Hl.
    assert (Hi : (i =? length chunkPayloads - 1)%nat = true) by (apply Nat.eqb_eq; lia).
    rewrite Hi. reflexivity.
  - intros Hl.
    assert (Hi : (i =? length chunkPayloads - 1)%nat = false).
    { apply Nat.eqb_neq. intros Heq. apply Hl, Hlast. lia. }
    rewrite Hi. reflexivity.
Qed.
Lemma nil_of_no_element {A : Type} (l : list A) : (forall x, ~ In x l) -> l = [].
Proof. destruct l as [|x l]; [reflexivity|]. intros Hno. destruct (Hno x). left. reflexivity. Qed.

(** A peer whose digests are ours gets one payload, final and empty: no
    message, reaction, member or peer part, whatever the peers of the two
    sides. *)
Theorem buildSyncDelta_in_sync spaceId channelId theirManifest theirPeerIds
    ourPeerEntries (svc : SyncService St) cache :
  payloadCache svc !! getCacheKey spaceId channelId = Some cache ->
  sman_digests theirManifest = sman_digests (getManifest sha256 cache) ->
  buildSyncDelta sha256 jsonLength spaceId channelId theirManifest
    (getMemberDigests cache) theirPeerIds ourPeerEntries svc =
  (Ok [finalWithoutSpace None], svc).
Proof.
  intros Hcache Hdigests. rewrite (buildSyncDelta_cached _ _ _ _ _ _ _ _ _ _ Hcache).
  f_equal. f_equal. rewrite buildSyncDeltaFrom_parts.
  assert (Hsame : forall id,
            digestFor theirManifest id = digestFor (getManifest sha256 cache) id).
  { intros id. unfold digestFor. rewrite Hdigests. reflexivity. }
  assert (Hextra : extraIds (computeMessageDiff (getManifest sha256 cache) theirManifest)
                   = []).
  { apply nil_of_no_element. intros id Hin. apply in_extraIds in Hin as [[d Hd] Hnone].
    rewrite Hsame in Hnone. congruence. }
  assert (Houtdated : outdatedIds
                        (computeMessageDiff (getManifest sha256 cache) theirManifest) = []).
  { apply nil_of_no_element. intros id Hin.
    apply in_outdatedIds in Hin as (o & t & Ho & Ht & Hh & _).
    rewrite Hsame in Ht. congruence. }
  assert (Hmembers : mbl_members
                       (buildMemberDelta spaceId
                          (computeMemberDiff (getMemberDigests cache) (getMemberDigests cache))
                          (memberMap cache)) = []).
  { unfold buildMemberDelta. cbn [mbl_members]. rewrite computeMemberDiff_eq.
    cbn [missingAddresses outdatedAddresses].
    match goal with |- filterDefined (map _ (?a ++ ?b)) = [] =>
      assert (Ha : a = []); [|assert (Hb : b = []); [|rewrite Ha, Hb; reflexivity]] end.
    - apply nil_of_no_element. intros a Hin. apply in_member_missing in Hin. tauto.
    - apply nil_of_no_element. intros a Hin.
      apply in_member_outdated in Hin as (o & t & Ho & Ht & Hd).
      assert (o = t) by congruence. subst. tauto. }
  assert (Hchunks : chunkPayloadsOf sha256 jsonLength cache (tombstones svc) spaceId
                      channelId theirManifest = []).
  { unfold chunkPayloadsOf, buildMessageDelta. cbv zeta.
    cbn [mdl_newMessages mdl_updatedMessages]. rewrite Hextra, Houtdated. reflexivity. }
  rewrite Hchunks, Hmembers. reflexivity.
Qed.
End DeltaFacts.

(** We know the peers 2 and 3, the other side the peers 1 and 2: the entry
    of peer 3 is not sent. *)
Lemma buildSyncDelta_no_peerMapDelta_witness :
  samplePeerRun = (Ok samplePeerPayloads, snd samplePeerRun) /\
  length samplePeerPayloads = 3%nat /\
  Forall (fun p => peerMapDelta p = None) samplePeerPayloads.
Proof.
  assert (Hrun : samplePeerRun = (Ok samplePeerPayloads, snd samplePeerRun))
    by (vm_compute; reflexivity).
  split; [exact Hrun|]. split; [reflexivity|].
  exact (buildSyncDelta_no_peerMapDelta sampleSha256 sampleJsonLength
           "space-1" "channel-1" emptyManifest [] [1; 2]
           [(2, samplePeer 2); (3, samplePeer 3)] sampleService
           (snd samplePeerRun) samplePeerPayloads Hrun).
Defined.

(** The first sync of the sample service: the member goes out in the third
    and last payload. *)
Lemma buildSyncDelta_member_delta_witness :
  sampleDeltaRun = (Ok samplePayloads, snd sampleDeltaRun) /\
  payloadCache (snd sampleDeltaRun) !! getCacheKey "space-1" "channel-1" =
    Some sampleLoadedCache /\
  mapsAgree sampleSha256 sampleLoadedCache /\
  (forall i p delta,
     samplePayloads !! i = Some p -> memberDelta p = Some delta ->
     S i = length samplePayloads /\ mbl_spaceId delta = "space-1" /\
     mbl_removedAddresses delta = [] /\
     forall member,
       In member (mbl_members delta) <->
       In member (JsMap.values (memberMap sampleLoadedCache)) /\
       memberToSend sampleSha256 [] member) /\
  ((exists member,
      In member (JsMap.values (memberMap sampleLoadedCache)) /\
      memberToSend sampleSha256 [] member) ->
   exists p delta, list.last samplePayloads = Some p /\ memberDelta p = Some delta).
Proof.
  assert (Hrun : sampleDeltaRun = (Ok samplePayloads, snd sampleDeltaRun))
    by (vm_compute; reflexivity).
  assert (Hcache : payloadCache (snd sampleDeltaRun) !! getCacheKey "space-1" "channel-1" =
                   Some sampleLoadedCache) by (vm_compute; reflexivity).
  assert (Hagree : mapsAgree sampleSha256 sampleLoadedCache) by apply mapsAgree_build.
  split; [exact Hrun|]. split; [exact Hcache|]. split; [exact Hagree|].
  exact (buildSyncDelta_member_delta sampleSha256 sampleJsonLength
           "space-1" "channel-1" emptyManifest [] [] [] sampleService
           (snd sampleDeltaRun) samplePayloads sampleLoadedCache Hrun Hcache Hagree).
Defined.

(** The first sync of the sample service: both messages are sent as new. *)
Lemma buildSyncDelta_messages_witness :
  sampleDeltaRun = (Ok samplePayloads, snd sampleDeltaRun) /\
  payloadCache (snd sampleDeltaRun) !! getCacheKey "space-1" "channel-1" =
    Some sampleLoadedCache /\
  mapsAgree sampleSha256 sampleLoadedCache /\
  map m_messageId (concat (map newMessagesOf samplePayloads)) = ["msg1"; "msg2"] /\
  NoDup (map m_messageId
           (concat (map newMessagesOf samplePayloads) ++
            concat (map updatedMessagesOf samplePayloads))).
Proof.
  assert (Hrun : sampleDeltaRun = (Ok samplePayloads, snd sampleDeltaRun))
    by (vm_compute; reflexivity).
  assert (Hcache : payloadCache (snd sampleDeltaRun) !! getCacheKey "space-1" "channel-1" =
                   Some sampleLoadedCache) by (vm_compute; reflexivity).
  assert (Hagree : mapsAgree sampleSha256 sampleLoadedCache) by apply mapsAgree_build.
  split; [exact Hrun|]. split; [exact Hcache|]. split; [exact Hagree|].
  split; [vm_compute; reflexivity|].
  exact (proj2 (proj2 (buildSyncDelta_messages sampleSha256 sampleJsonLength
           "space-1" "channel-1" emptyManifest [] [] [] sampleService
           (snd sampleDeltaRun) samplePayloads sampleLoadedCache Hrun Hcache Hagree))).
Defined.

(** Two message chunks by a service with a tombstone of the channel: the
    second chunk carries the deleted ID. *)
Lemma buildSyncDelta_deletions_on_last_chunk_witness :
  let p := nth 1 sampleDeletionPayloads (finalWithoutSpace None) in
  sampleDeletionRun = (Ok sampleDeletionPayloads, snd sampleDeletionRun) /\
  sampleDeletionPayloads !! 1%nat = Some p /\
  is_Some (messageDelta p) /\
  channelTombstoneIds (tombstones (addTombstone sampleService sampleTombstone))
    "space-1" "channel-1" = ["msg0"] /\
  (lastMessageChunk sampleDeletionPayloads 1 ->
   deletedIdsOf p =
   channelTombstoneIds (tombstones (addTombstone sampleService sampleTombstone))
     "space-1" "channel-1") /\
  (~ lastMessageChunk sampleDeletionPayloads 1 -> deletedIdsOf p = []).
Proof.
  intros p.
  assert (Hrun : sampleDeletionRun = (Ok sampleDeletionPayloads, snd sampleDeletionRun))
    by (vm_compute; reflexivity).
  assert (Hp : sampleDeletionPayloads !! 1%nat = Some p) by (vm_compute; reflexivity).
  assert (Hsome : is_Some (messageDelta p)) by (vm_compute; eexists; reflexivity).
  split; [exact Hrun|]. split; [exact Hp|]. split; [exact Hsome|].
  split; [vm_compute; reflexivity|].
  exact (buildSyncDelta_deletions_on_last_chunk sampleSha256 sampleJsonLength
           "space-1" "channel-1" emptyManifest [] [] []
           (addTombstone sampleService sampleTombstone)
           (snd sampleDeletionRun) sampleDeletionPayloads Hrun 1%nat p Hp Hsome).
Defined.

(** The sample service, its cache loaded, answers a peer that sends the
    manifest and the member digests of that cache. *)
Lemma buildSyncDelta_in_sync_witness :
  payloadCache (snd sampleDeltaRun) !! getCacheKey "space-1" "channel-1" =
    Some sampleLoadedCache /\
  buildSyncDelta sampleSha256 sampleJsonLength "space-1" "channel-1"
    (getManifest sampleSha256 sampleLoadedCache) (getMemberDigests sampleLoadedCache)
    [1; 2] [(2, samplePeer 2); (3, samplePeer 3)] (snd sampleDeltaRun) =
  (Ok [finalWithoutSpace None], snd sampleDeltaRun).
Proof.
  assert (Hcache : payloadCache (snd sampleDeltaRun) !! getCacheKey "space-1" "channel-1" =
                   Some sampleLoadedCache) by (vm_compute; reflexivity).
  split; [exact Hcache|].
  exact (buildSyncDelta_in_sync sampleSha256 sampleJsonLength "space-1" "channel-1"
           (getManifest sampleSha256 sampleLoadedCache) [1; 2]
           [(2, samplePeer 2); (3, samplePeer 3)] (snd sampleDeltaRun) sampleLoadedCache
           Hcache eq_refl).
Defined.

(** ** The cache and the sessions of the service *)

Section SessionFacts.
Variable sha256 : list Z -> list Z.
Context {St : Type} `{StorageAdapter St}.

(** [getPayloadCache] touches the store on a miss only, files what it
    loaded under the key of the channel, and keeps nothing when a read is
    rejected: a second call returns the same cache and leaves the service as
    it is. A cache that was loaded has maps that agree. The sessions and the
    tombstones stay as they are. *)
Theorem getPayloadCache_loads_once spaceId channelId (svc svc' : SyncService St) r :
  getPayloadCache sha256 spaceId channelId svc = (r, svc') ->
  sessions svc' = sessions svc /\ tombstones svc' = tombstones svc /\
  match r with
  | Ok cache =>
      payloadCache svc' = <[ getCacheKey spaceId channelId := cache ]> (payloadCache svc) /\
      getPayloadCache sha256 spaceId channelId svc' = (Ok cache, svc') /\
      (is_Some (payloadCache svc !! getCacheKey spaceId channelId) -> svc' = svc) /\
      (payloadCache svc !! getCacheKey spaceId channelId = None ->
       mapsAgree sha256 cache /\ cache_spaceId cache = spaceId /\
       cache_channelId cache = channelId)
  | Err _ =>
      payloadCache svc' = payloadCache svc /\
      payloadCache svc !! getCacheKey spaceId channelId = None
  end.
Proof.
  unfold getPayloadCache, bind, getService. cbv beta iota zeta.
  destruct (payloadCache svc !! getCacheKey spaceId channelId) as [cached|] eqn:Hc.
  - unfold ret. intros [= <- <-]. split; [reflexivity|]. split; [reflexivity|].
    split; [symmetry; apply insert_id, Hc|].
    split; [rewrite Hc; reflexivity|]. split; [reflexivity|]. discriminate.
  - unfold getChannelMessages, bind, getService, callStorage, setPayloadCache, ret.
    cbv beta iota zeta.
    destruct (getMessages (storage svc) spaceId channelId (maxMessages svc))
      as [[messages|e] st1]; cbn [storage withStorage maxMessages].
    2:{ intros [= <- <-]. repeat split. }
    destruct (getSpaceMembers st1 spaceId) as [[members|e] st2].
    2:{ intros [= <- <-]. repeat split. }
    intros [= <- <-]. cbn [withPayloadCache withStorage sessions tombstones payloadCache].
    split; [reflexivity|]. split; [reflexivity|]. split; [reflexivity|].
    split; [rewrite lookup_insert_eq; reflexivity|].
    split; [intros [? Hs]; discriminate|]. intros _.
    split; [apply mapsAgree_build|]. unfold buildPayloadCache.
    destruct (scanTimestamps messages). split; reflexivity.
Qed.

Lemma getPayloadCache_frame spaceId channelId (svc svc' : SyncService St) r :
  getPayloadCache sha256 spaceId channelId svc = (r, svc') ->
  sessions svc' = sessions svc /\ tombstones svc' = tombstones svc /\
  requestExpiry svc' = requestExpiry svc /\ maxMessages svc' = maxMessages svc.
Proof.
  unfold getPayloadCache, bind, getService. cbv beta iota zeta.
  destruct (payloadCache svc !! getCacheKey spaceId channelId) as [cached|].
  - unfold ret. intros [= <- <-]. repeat split.
  - unfold getChannelMessages, bind, getService, callStorage, setPayloadCache, ret.
    cbv beta iota zeta.
    destruct (getMessages (storage svc) spaceId channelId (maxMessages svc))
      as [[messages|e] st1]; cbn [storage withStorage maxMessages].
    2:{ intros [= <- <-]. repeat split. }
    destruct (getSpaceMembers st1 spaceId) as [[members|e] st2];
      intros [= <- <-]; repeat split.
Qed.

(** [buildSyncRequest] opens a session for the space that lasts until
    [requestExpiry] after the call, that instant included, and that has no
    candidate, no target and no sync in progress, whatever session the space
    had before; the request carries that expiry and the summary of the
    cache. When the cache cannot be loaded no session is opened. *)
Theorem buildSyncRequest_session now spaceId channelId inboxAddress
    (svc svc' : SyncService St) r :
  buildSyncRequest sha256 now spaceId channelId inboxAddress svc = (r, svc') ->
  match r with
  | Ok request =>
      srq_inboxAddress request = inboxAddress /\
      srq_expiry request = now + requestExpiry svc /\
      (exists cache,
         payloadCache svc' !! getCacheKey spaceId channelId = Some cache /\
         srq_summary request = getSummary cache) /\
      sessions svc' =
        <[ spaceId := freshSession spaceId channelId (now + requestExpiry svc) ]>
          (sessions svc) /\
      (forall t, fst (hasActiveSession t svc' spaceId) = true <->
                 t <= now + requestExpiry svc) /\
      selectBestCandidate svc' spaceId = None /\
      isSyncInProgress svc' spaceId = false /\
      getSyncTarget svc' spaceId = None
  | Err _ => sessions svc' = sessions svc
  end.
Proof.
  unfold buildSyncRequest, bind.
  destruct (getPayloadCache sha256 spaceId channelId svc) as [[cache|e] svc1] eqn:Hget.
  2:{ intros [= <- <-]. apply getPayloadCache_frame in Hget. tauto. }
  pose proof (getPayloadCache_frame _ _ _ _ _ Hget) as (Hs & _ & He & _).
  apply getPayloadCache_ok in Hget as (Hc & _).
  unfold getService, setSessions, ret. cbv beta iota zeta. intros [= <- <-].
  rewrite He, Hs. cbn [srq_inboxAddress srq_expiry srq_summary].
  split; [reflexivity|]. split; [reflexivity|].
  split; [exists cache; split; [exact Hc | reflexivity]|].
  split; [reflexivity|].
  unfold hasActiveSession, selectBestCandidate, isSyncInProgress, getSyncTarget.
  cbn [withSessions sessions]. rewrite lookup_insert_eq. cbn.
  split; [|repeat split].
  intros t. destruct (Z.gtb_spec t (now + requestExpiry svc)); cbn; split;
    intros; try lia; try discriminate; reflexivity.
Qed.

Lemma addCandidate_fold spaceId (arrivals : list (Z * SyncCandidate))
    (svc : SyncService St) :
  fold_left (candidateArrives spaceId) arrivals svc =
  match sessions svc !! spaceId with
  | None => svc
  | Some session =>
      withSessions svc
        (<[ spaceId :=
              withCandidates session
                (ss_candidates session ++
                 map snd
                   (List.filter (fun arrival => negb (fst arrival >? ss_expiry session))
                      arrivals)) ]>
           (sessions svc))
  end.
Proof.
  destruct (sessions svc !! spaceId) as [session|] eqn:Hs.
  - revert svc session Hs.
    induction arrivals as [|[t c] arrivals IH]; intros svc session Hs; cbn [fold_left].
    + cbn. rewrite app_nil_r. destruct svc as [st mx re ss ts pc]. cbn in *.
      unfold withSessions. cbn. f_equal.
      destruct session; symmetry; apply insert_id; exact Hs.
    + unfold candidateArrives at 2. unfold addCandidate. cbn [fst snd]. rewrite Hs.
      cbn [List.filter fst].
      destruct (t >? ss_expiry session) eqn:Ht; cbn [negb].
      * apply IH. exact Hs.
      * erewrite IH by (cbn [withSessions sessions]; apply lookup_insert_eq).
        unfold withSessions, withCandidates, push. cbn. rewrite insert_insert_eq.
        rewrite <- app_assoc. reflexivity.
  - induction arrivals as [|[t c] arrivals IH]; cbn [fold_left]; [reflexivity|].
    unfold candidateArrives at 2. unfold addCandidate. cbn [fst snd]. rewrite Hs.
    exact IH.
Qed.

(** The candidates of a session are the answers that arrived while it
    lasted, in the order of arrival, after the candidates already there: an
    answer that arrives after the expiry, or for a space without session, is
    not kept. The calls leave the space, the channel, the expiry, the
    progress mark and the target of the session as they are, and do not
    touch the sessions of other spaces, the payload cache, the tombstones or
    the store. *)
Theorem addCandidate_collects spaceId (arrivals : list (Z * SyncCandidate))
    (svc : SyncService St) :
  let svc' := fold_left (candidateArrives spaceId) arrivals svc in
  match sessions svc !! spaceId with
  | None => sessions svc' !! spaceId = None
  | Some session =>
      exists session',
        sessions svc' !! spaceId = Some session' /\
        ss_candidates session' =
          ss_candidates session ++
          map snd
            (List.filter (fun arrival => negb (fst arrival >? ss_expiry session))
               arrivals) /\
        ss_spaceId session' = ss_spaceId session /\
        ss_channelId session' = ss_channelId session /\
        ss_expiry session' = ss_expiry session /\
        ss_inProgress session' = ss_inProgress session /\
        ss_syncTarget session' = ss_syncTarget session
  end /\
  (forall other, other <> spaceId -> sessions svc' !! other = sessions svc !! other) /\
  payloadCache svc' = payloadCache svc /\ tombstones svc' = tombstones svc /\
  storage svc' = storage svc.
Proof.
  intros svc'. subst svc'. rewrite addCandidate_fold.
  destruct (sessions svc !! spaceId) as [session|] eqn:Hs.
  - cbn [withSessions sessions payloadCache tombstones storage]. split.
    + eexists. split; [apply lookup_insert_eq|]. repeat split.
    + split; [|repeat split]. intros other Hne. apply lookup_insert_ne. congruence.
  - rewrite Hs. repeat split.
Qed.

Lemma lookup_setSyncInProgress (svc : SyncService St) spaceId flag session :
  sessions svc !! spaceId = Some session ->
  sessions (setSyncInProgress svc spaceId flag) =
  <[ spaceId := withInProgress session flag ]> (sessions svc).
Proof. intros Hs. unfold setSyncInProgress. rewrite Hs. reflexivity. Qed.

(** [buildSyncInitiate] without a candidate answers null and drops the
    session of the space, without a look at the store. With a candidate it
    loads the cache; if that succeeds the answer goes to the inbox of the
    best candidate with the manifest and the member digests of the cache and
    the given peer IDs, and the session is marked in progress with that
    inbox as its target; if it fails the sessions stay as they are. The
    expiry of the session plays no part. *)
Theorem buildSyncInitiate_target spaceId channelId inboxAddress peerIds
    (svc svc' : SyncService St) r :
  buildSyncInitiate sha256 spaceId channelId inboxAddress peerIds svc = (r, svc') ->
  match selectBestCandidate svc spaceId with
  | None => r = Ok None /\ svc' = withSessions svc (delete spaceId (sessions svc))
  | Some best =>
      match r with
      | Ok answer =>
          exists cache session,
            payloadCache svc' !! getCacheKey spaceId channelId = Some cache /\
            sessions svc !! spaceId = Some session /\
            answer =
              Some (cand_inboxAddress best,
                    {| sini_inboxAddress := inboxAddress;
                       sini_manifest := Some (getManifest sha256 cache);
                       sini_memberDigests := Some (getMemberDigests cache);
                       sini_peerIds := Some peerIds |}) /\
            sessions svc' =
              <[ spaceId :=
                   withSyncTarget (withInProgress session true) (cand_inboxAddress best) ]>
                (sessions svc) /\
            isSyncInProgress svc' spaceId = true /\
            getSyncTarget svc' spaceId = Some (cand_inboxAddress best)
      | Err _ => sessions svc' = sessions svc
      end
  end.
Proof.
  unfold buildSyncInitiate, bind, getService. cbv beta iota zeta.
  destruct (selectBestCandidate svc spaceId) as [best|] eqn:Hbest.
  2:{ unfold setSessions, ret. intros [= <- <-]. split; reflexivity. }
  destruct (getPayloadCache sha256 spaceId channelId svc) as [[cache|e] svc1] eqn:Hget.
  2:{ intros [= <- <-]. apply getPayloadCache_frame in Hget. tauto. }
  pose proof (getPayloadCache_frame _ _ _ _ _ Hget) as (Hs & _).
  apply getPayloadCache_ok in Hget as (Hc & _).
  assert (Hsession : exists session, sessions svc !! spaceId = Some session).
  { unfold selectBestCandidate in Hbest.
    destruct (sessions svc !! spaceId) as [session|]; [|discriminate]. eauto. }
  destruct Hsession as [session Hsession].
  unfold modifyService, ret. cbv beta iota zeta. intros [= <- <-].
  exists cache, session.
  assert (H1 : sessions (setSyncInProgress svc1 spaceId true) =
               <[ spaceId := withInProgress session true ]> (sessions svc)).
  { rewrite <- Hs. apply lookup_setSyncInProgress. rewrite Hs. exact Hsession. }
  assert (H2 : sessions (setSyncTarget (setSyncInProgress svc1 spaceId true) spaceId
                           (cand_inboxAddress best)) =
               <[ spaceId := withSyncTarget (withInProgress session true)
                               (cand_inboxAddress best) ]> (sessions svc)).
  { unfold setSyncTarget. rewrite H1, lookup_insert_eq. cbn [withSessions sessions].
    apply insert_insert_eq. }
  split.
  { unfold setSyncTarget, setSyncInProgress. rewrite Hs, Hsession.
    cbn [withSessions sessions]. rewrite lookup_insert_eq.
    cbn [withSessions payloadCache]. exact Hc. }
  split; [exact Hsession|]. split; [reflexivity|]. split; [exact H2|].
  unfold isSyncInProgress, getSyncTarget. rewrite H2, lookup_insert_eq.
  split; reflexivity.
Qed.

(** [cleanupSessions] keeps exactly the sessions [hasActiveSession] calls
    active at that time, unchanged, and [hasActiveSession] has nothing left
    to delete after it. *)
Theorem cleanupSessions_keeps_active now (svc : SyncService St) spaceId :
  (is_Some (sessions (cleanupSessions now svc) !! spaceId) <->
   fst (hasActiveSession now svc spaceId) = true) /\
  (forall session,
     sessions (cleanupSessions now svc) !! spaceId = Some session <->
     sessions svc !! spaceId = Some session /\ now <= ss_expiry session) /\
  hasActiveSession now (cleanupSessions now svc) spaceId =
    (fst (hasActiveSession now svc spaceId), cleanupSessions now svc).
Proof.
  assert (Hkeep : forall session,
            sessions (cleanupSessions now svc) !! spaceId = Some session <->
            sessions svc !! spaceId = Some session /\ now <= ss_expiry session).
  { intros session. unfold cleanupSessions. cbn [withSessions sessions].
    rewrite map_lookup_filter_Some. cbn [snd]. split; intros [Hs Ht]; (split; [exact Hs|]);
      lia. }
  split; [|split; [exact Hkeep|]].
  - unfold hasActiveSession. split.
    + intros [session Hs]. apply Hkeep in Hs as [Hs Ht]. rewrite Hs.
      destruct (Z.gtb_spec now (ss_expiry session)); [lia | reflexivity].
    + destruct (sessions svc !! spaceId) as [session|] eqn:Hs; [|discriminate].
      destruct (Z.gtb_spec now (ss_expiry session)); [discriminate|]. intros _.
      exists session. apply Hkeep. split; [reflexivity | lia].
  - unfold hasActiveSession.
    destruct (sessions svc !! spaceId) as [session|] eqn:Hs.
    + destruct (Z.gtb_spec now (ss_expiry session)) as [Hgt|Hle]; cbn [fst].
      * assert (Hnone : sessions (cleanupSessions now svc) !! spaceId = None).
        { apply eq_None_not_Some. intros [s' Hs']. apply Hkeep in Hs' as [Hs' Ht].
          injection Hs' as <-. lia. }
        rewrite Hnone. reflexivity.
      * assert (Hin : sessions (cleanupSessions now svc) !! spaceId = Some session)
          by (apply Hkeep; split; [reflexivity | lia]).
        rewrite Hin. destruct (Z.gtb_spec now (ss_expiry session)); [lia | reflexivity].
    + assert (Hnone : sessions (cleanupSessions now svc) !! spaceId = None).
      { apply eq_None_not_Some. intros [s' Hs']. apply Hkeep in Hs' as [Hs' _].
        discriminate. }
      rewrite Hnone. reflexivity.
Qed.

Lemma withStorage_twice (svc : SyncService St) st st' :
  withStorage (withStorage svc st) st' = withStorage svc st'.
Proof. reflexivity. Qed.

Lemma onlyStorage_ret {A : Type} (a : A) : onlyStorage (ret (St := St) a).
Proof. intros svc r svc' [= <- <-]. destruct svc. reflexivity. Qed.

Lemma onlyStorage_bind {A B : Type} (m : M St A) (k : A -> M St B) :
  onlyStorage m -> (forall a, onlyStorage (k a)) -> onlyStorage (bind m k).
Proof.
  intros Hm Hk svc r svc'. unfold bind.
  destruct (m svc) as [[a|e] svc1] eqn:Hrun.
  - intros Hrun'. apply Hk in Hrun'. apply Hm in Hrun. rewrite Hrun', Hrun. reflexivity.
  - intros [= <- <-]. apply Hm in Hrun. exact Hrun.
Qed.

Lemma onlyStorage_callStorage {A : Type} (op : St -> Result A * St) :
  onlyStorage (callStorage op).
Proof.
  intros svc r svc'. unfold callStorage.
  destruct (op (storage svc)) as [r' st]. intros [= <- <-]. reflexivity.
Qed.

Lemma onlyStorage_forEach {A : Type} (xs : list A) (body : A -> M St unit) :
  (forall x, onlyStorage (body x)) -> onlyStorage (forEach xs body).
Proof.
  intros Hbody. induction xs as [|x xs IH]; simpl.
  - apply onlyStorage_ret.
  - apply onlyStorage_bind; [apply Hbody | intros _; exact IH].
Qed.

Lemma onlyStorage_whenPresent {A : Type} (o : option A) (f : A -> M St unit) :
  (forall a, onlyStorage (f a)) -> onlyStorage (whenPresent o f).
Proof. intros Hf. destruct o; [apply Hf | apply onlyStorage_ret]. Qed.

Lemma onlyStorage_applyMessageDelta delta : onlyStorage (applyMessageDelta delta).
Proof.
  unfold applyMessageDelta.
  repeat (apply onlyStorage_bind; [|intros _]);
    apply onlyStorage_forEach; intros x; apply onlyStorage_callStorage.
Qed.

Lemma onlyStorage_applyReactionDelta delta : onlyStorage (applyReactionDelta delta).
Proof.
  unfold applyReactionDelta.
  apply onlyStorage_bind; [|intros _]; apply onlyStorage_forEach; intros x;
    (apply onlyStorage_bind; [apply onlyStorage_callStorage|]);
    intros [message|]; try apply onlyStorage_callStorage; apply onlyStorage_ret.
Qed.

Lemma onlyStorage_applyMemberDelta delta : onlyStorage (applyMemberDelta delta).
Proof.
  unfold applyMemberDelta. apply onlyStorage_forEach. intros x.
  apply onlyStorage_callStorage.
Qed.

Lemma truthy_spaceId delta :
  (if truthy (if truthy (mdl_spaceId <$> messageDelta delta)
              then mdl_spaceId <$> messageDelta delta
              else mbl_spaceId <$> memberDelta delta)
   then Some (default ""
                (if truthy (mdl_spaceId <$> messageDelta delta)
                 then mdl_spaceId <$> messageDelta delta
                 else mbl_spaceId <$> memberDelta delta))
   else None) = deltaSpaceId delta.
Proof.
  unfold deltaSpaceId, truthy.
  assert (Hmembers :
            (if match mbl_spaceId <$> memberDelta delta with
                | Some s => negb (String.eqb s "")
                | None => false
                end
             then Some (default "" (mbl_spaceId <$> memberDelta delta)) else None) =
            match memberDelta delta with
            | Some members =>
                if String.eqb (mbl_spaceId members) "" then None
                else Some (mbl_spaceId members)
            | None => None
            end).
  { destruct (memberDelta delta) as [members|]; cbn; [|reflexivity].
    destruct (String.eqb (mbl_spaceId members) ""); reflexivity. }
  destruct (messageDelta delta) as [messages|]; [|exact Hmembers].
  cbn. destruct (String.eqb (mdl_spaceId messages) "") eqn:He; cbn; rewrite ?He; cbn;
    [exact Hmembers | reflexivity].
Qed.

(** Applying a delta drops, at most, one session: the sessions change
    exactly when the delta is final, every part of it was applied, and it
    names a space, whose session is then dropped; a rejected write leaves
    all sessions in place, also those of a final delta. The tombstones stay
    as they are, and so does the summary of every cached channel (the
    counts, the boundary timestamps and the manifest hash): a delta that is
    applied reaches the store, not the cache. *)
Theorem applySyncDelta_sessions delta (svc svc' : SyncService St) r :
  applySyncDelta delta svc = (r, svc') ->
  tombstones svc' = tombstones svc /\
  (forall key,
     getSummary <$> payloadCache svc' !! key = getSummary <$> payloadCache svc !! key) /\
  sessions svc' =
    match r, isFinal delta, deltaSpaceId delta with
    | Ok _, Some true, Some spaceId => delete spaceId (sessions svc)
    | _, _, _ => sessions svc
    end.
Proof.
  unfold applySyncDelta.
  set (parts :=
         do! whenPresent (messageDelta delta) applyMessageDelta in
         do! whenPresent (reactionDelta delta) applyReactionDelta in
         whenPresent (memberDelta delta) applyMemberDelta).
  assert (Hparts : onlyStorage parts).
  { subst parts. apply onlyStorage_bind;
      [apply onlyStorage_whenPresent, onlyStorage_applyMessageDelta | intros _].
    apply onlyStorage_bind;
      [apply onlyStorage_whenPresent, onlyStorage_applyReactionDelta | intros _].
    apply onlyStorage_whenPresent, onlyStorage_applyMemberDelta. }
  assert (Hsplit : forall k : M St unit,
            (do! whenPresent (messageDelta delta) applyMessageDelta in
             do! whenPresent (reactionDelta delta) applyReactionDelta in
             do! whenPresent (memberDelta delta) applyMemberDelta in k) svc =
            (do! parts in k) svc).
  { intros k. subst parts. unfold bind.
    destruct (whenPresent (messageDelta delta) applyMessageDelta svc) as [[[]|e] s1];
      [|reflexivity].
    destruct (whenPresent (reactionDelta delta) applyReactionDelta s1) as [[[]|e] s2];
      [|reflexivity].
    reflexivity. }
  rewrite Hsplit. unfold bind.
  destruct (parts svc) as [[[]|e] svc1] eqn:Hrun; apply Hparts in Hrun.
  2:{ intros [= <- <-]. rewrite Hrun. repeat split. }
  rewrite <- truthy_spaceId.
  destruct (isFinal delta) as [[]|]; cbn [default].
  2,3: unfold ret; intros [= <- <-]; rewrite Hrun; repeat split.
  match goal with |- context [if truthy ?s then _ else _] => destruct (truthy s) end.
  - unfold getService, setSessions. cbv beta iota zeta. intros [= <- <-].
    rewrite Hrun. repeat split.
  - unfold ret. intros [= <- <-]. rewrite Hrun. repeat split.
Qed.
End SessionFacts.

(** The sample service loads its cache on the first call; the second call
    finds it. *)
Lemma getPayloadCache_loads_once_witness :
  sampleLoadRun = (Ok sampleLoadedCache, snd sampleLoadRun) /\
  getPayloadCache sampleSha256 "space-1" "channel-1" (snd sampleLoadRun) =
    (Ok sampleLoadedCache, snd sampleLoadRun) /\
  mapsAgree sampleSha256 sampleLoadedCache.
Proof.
  assert (Hrun : sampleLoadRun = (Ok sampleLoadedCache, snd sampleLoadRun))
    by (vm_compute; reflexivity).
  split; [exact Hrun|].
  pose proof (getPayloadCache_loads_once sampleSha256 "space-1" "channel-1" sampleService
                (snd sampleLoadRun) (Ok sampleLoadedCache) Hrun)
    as (_ & _ & _ & Hagain & _ & Hloaded).
  split; [exact Hagain|]. apply Hloaded. reflexivity.
Defined.

(** The request of the sample service at time 0: the session lasts 30
    seconds. *)
Lemma buildSyncRequest_session_witness :
  let request :=
    {| srq_inboxAddress := "inbox-requester"; srq_expiry := 30000;
       srq_summary := getSummary sampleLoadedCache |} in
  sampleRequestRun = (Ok request, sampleRequester) /\
  sessions sampleRequester =
    <[ "space-1" := freshSession "space-1" "channel-1" 30000 ]> (sessions sampleService) /\
  (forall t, fst (hasActiveSession t sampleRequester "space-1") = true <-> t <= 30000).
Proof.
  intros request.
  assert (Hrun : sampleRequestRun = (Ok request, sampleRequester))
    by (vm_compute; reflexivity).
  split; [exact Hrun|].
  pose proof (buildSyncRequest_session sampleSha256 0 "space-1" "channel-1"
                "inbox-requester" sampleService sampleRequester (Ok request) Hrun)
    as (_ & _ & _ & Hsessions & Hactive & _).
  split; [exact Hsessions | exact Hactive].
Defined.

(** Of the three peers that answered the requester the second is chosen:
    it offers as much as the third, and came first. *)
Lemma buildSyncInitiate_target_witness :
  selectBestCandidate sampleCollecting "space-1" = Some (sampleCandidate "inbox-b" 5 2) /\
  sampleInitiateRun =
    (Ok (Some ("inbox-b",
               {| sini_inboxAddress := "inbox-requester";
                  sini_manifest := Some (getManifest sampleSha256 sampleLoadedCache);
                  sini_memberDigests := Some (getMemberDigests sampleLoadedCache);
                  sini_peerIds := Some [1; 2] |})),
     snd sampleInitiateRun) /\
  isSyncInProgress (snd sampleInitiateRun) "space-1" = true /\
  getSyncTarget (snd sampleInitiateRun) "space-1" = Some "inbox-b".
Proof.
  assert (Hbest : selectBestCandidate sampleCollecting "space-1" =
                  Some (sampleCandidate "inbox-b" 5 2)) by (vm_compute; reflexivity).
  assert (Hrun : sampleInitiateRun =
                 (Ok (Some ("inbox-b",
                            {| sini_inboxAddress := "inbox-requester";
                               sini_manifest :=
                                 Some (getManifest sampleSha256 sampleLoadedCache);
                               sini_memberDigests :=
                                 Some (getMemberDigests sampleLoadedCache);
                               sini_peerIds := Some [1; 2] |})),
                  snd sampleInitiateRun)) by (vm_compute; reflexivity).
  split; [exact Hbest|]. split; [exact Hrun|].
  pose proof (buildSyncInitiate_target sampleSha256 "space-1" "channel-1"
                "inbox-requester" [1; 2] sampleCollecting (snd sampleInitiateRun) _ Hrun)
    as Htarget.
  rewrite Hbest in Htarget.
  destruct Htarget as (cache & session & _ & _ & _ & _ & Hprogress & Htarget).
  split; [exact Hprogress | exact Htarget].
Defined.

(** The requester applies the final payload of the first sync, which names
    the space in its member delta: the session is dropped. *)
Lemma applySyncDelta_sessions_witness :
  sampleApplyRun = (Ok tt, snd sampleApplyRun) /\
  is_Some (sessions sampleRequester !! "space-1") /\
  sessions (snd sampleApplyRun) = delete "space-1" (sessions sampleRequester) /\
  tombstones (snd sampleApplyRun) = tombstones sampleRequester.
Proof.
  assert (Hrun : sampleApplyRun = (Ok tt, snd sampleApplyRun))
    by (vm_compute; reflexivity).
  split; [exact Hrun|].
  split; [vm_compute; eexists; reflexivity|].
  pose proof (applySyncDelta_sessions (nth 2 samplePayloads (finalWithoutSpace None))
                sampleRequester (snd sampleApplyRun) (Ok tt) Hrun)
    as (Htombstones & _ & Hsessions).
  split; [exact Hsessions | exact Htombstones].
Defined.

(** ** Cache keys and invalidation *)

Lemma prefix_cons (a b : ascii) (s t : string) :
  String.prefix (String a s) (String b t) =
  if ascii_dec a b then String.prefix s t else false.
Proof. reflexivity. Qed.

Lemma prefix_key (spaceId channelId : string) :
  String.prefix (spaceId +:+ ":") (getCacheKey spaceId channelId) = true.
Proof.
  unfold getCacheKey. induction spaceId as [|c s IH].
  - change (String.prefix (String ":" "") (String ":" channelId) = true).
    rewrite prefix_cons. destruct (ascii_dec ":" ":") as [_|Hne]; [|congruence].
    destruct channelId; reflexivity.
  - change (String.prefix (String c (s +:+ ":")) (String c (s +:+ ":" +:+ channelId)) = true).
    rewrite prefix_cons. destruct (ascii_dec c c) as [_|Hne]; [exact IH | congruence].
Qed.

Lemma prefix_colon (s s' rest : string) :
  colonFree s = true -> colonFree s' = true ->
  String.prefix (s +:+ ":") (s' +:+ ":" +:+ rest) = true -> s = s'.
Proof.
  revert s'. induction s as [|c s IH]; intros [|c' s'] Hs Hs'.
  - reflexivity.
  - change (String.prefix (String ":" "") (String c' (s' +:+ ":" +:+ rest)) = true ->
            "" = String c' s').
    rewrite prefix_cons. destruct (ascii_dec ":" c') as [<-|_]; [|discriminate].
    cbn in Hs'. discriminate.
  - change (String.prefix (String c (s +:+ ":")) (String ":" rest) = true ->
            String c s = "").
    rewrite prefix_cons. destruct (ascii_dec c ":") as [->|_]; [|discriminate].
    cbn in Hs. discriminate.
  - change (String.prefix (String c (s +:+ ":")) (String c' (s' +:+ ":" +:+ rest)) = true ->
            String c s = String c' s').
    rewrite prefix_cons.
    change (negb (Ascii.eqb c ":") && colonFree s = true) in Hs.
    change (negb (Ascii.eqb c' ":") && colonFree s' = true) in Hs'.
    apply andb_true_iff in Hs as [_ Hs]. apply andb_true_iff in Hs' as [_ Hs'].
    destruct (ascii_dec c c') as [<-|_]; [|discriminate].
    intros Hp. f_equal. apply IH; assumption.
Qed.

Lemma append_colon_inj (s s' c c' : string) :
  colonFree s = true -> colonFree s' = true ->
  s +:+ ":" +:+ c = s' +:+ ":" +:+ c' -> s = s' /\ c = c'.
Proof.
  revert s'. induction s as [|a s IH]; intros [|a' s'] Hs Hs' Heq.
  - change (String ":" c = String ":" c') in Heq. injection Heq as ->. auto.
  - change (String ":" c = String a' (s' +:+ ":" +:+ c')) in Heq.
    injection Heq as <- _. cbn in Hs'. discriminate.
  - change (String a (s +:+ ":" +:+ c) = String ":" c') in Heq.
    injection Heq as -> _. cbn in Hs. discriminate.
  - change (String a (s +:+ ":" +:+ c) = String a' (s' +:+ ":" +:+ c')) in Heq.
    change (negb (Ascii.eqb a ":") && colonFree s = true) in Hs.
    change (negb (Ascii.eqb a' ":") && colonFree s' = true) in Hs'.
    apply andb_true_iff in Hs as [_ Hs]. apply andb_true_iff in Hs' as [_ Hs'].
    injection Heq as <- Heq. destruct (IH s' Hs Hs' Heq) as [-> ->]. auto.
Qed.

(** The cache keys of two channels are the same only for the same space and
    channel, when the space IDs hold no colon. *)
Theorem getCacheKey_injective (spaceId spaceId' channelId channelId' : string) :
  colonFree spaceId = true -> colonFree spaceId' = true ->
  getCacheKey spaceId channelId = getCacheKey spaceId' channelId' ->
  spaceId = spaceId' /\ channelId = channelId'.
Proof. unfold getCacheKey. apply append_colon_inj. Qed.

Section InvalidateFacts.
Context {St : Type} `{StorageAdapter St}.

(** [invalidateCache] with a channel drops the cache of that channel and no
    other; without a channel (or with an empty one) it drops the cache of
    every channel of the space, and keeps the caches of every other space
    when neither space ID holds a colon. It changes nothing but the payload
    cache. *)
Theorem invalidateCache_drops (svc : SyncService St) (spaceId : string)
    (channelId : option string) :
  let svc' := invalidateCache svc spaceId channelId in
  svc' = withPayloadCache svc (payloadCache svc') /\
  match channelId with
  | Some channel =>
      if String.eqb channel "" then
        forall channel', hasCachedPayload svc' spaceId channel' = false
      else
        hasCachedPayload svc' spaceId channel = false /\
        forall key, key <> getCacheKey spaceId channel ->
                    payloadCache svc' !! key = payloadCache svc !! key
  | None => forall channel', hasCachedPayload svc' spaceId channel' = false
  end /\
  (forall spaceId' channel',
     colonFree spaceId = true -> colonFree spaceId' = true -> spaceId' <> spaceId ->
     payloadCache svc' !! getCacheKey spaceId' channel' =
     payloadCache svc !! getCacheKey spaceId' channel').
Proof.
  intros svc'. subst svc'.
  assert (Hall : forall channel',
            hasCachedPayload
              (withPayloadCache svc
                 (base.filter
                    (fun entry : string * SyncPayloadCache =>
                       String.prefix (spaceId +:+ ":") (fst entry) = false)
                    (payloadCache svc))) spaceId channel' = false).
  { intros channel'. unfold hasCachedPayload. cbn [withPayloadCache payloadCache].
    apply bool_decide_eq_false. intros [cache Hc].
    apply map_lookup_filter_Some in Hc as [_ Hp]. cbn [fst] in Hp.
    rewrite prefix_key in Hp. discriminate. }
  assert (Hother : forall spaceId' channel',
            colonFree spaceId = true -> colonFree spaceId' = true -> spaceId' <> spaceId ->
            base.filter
              (fun entry : string * SyncPayloadCache =>
                 String.prefix (spaceId +:+ ":") (fst entry) = false)
              (payloadCache svc) !! getCacheKey spaceId' channel' =
            payloadCache svc !! getCacheKey spaceId' channel').
  { intros spaceId' channel' Hfree Hfree' Hne.
    assert (Hp : String.prefix (spaceId +:+ ":") (getCacheKey spaceId' channel') = false).
    { destruct (String.prefix (spaceId +:+ ":") (getCacheKey spaceId' channel')) eqn:Hp;
        [|reflexivity].
      unfold getCacheKey in Hp. apply prefix_colon in Hp; [congruence | assumption..]. }
    destruct (payloadCache svc !! getCacheKey spaceId' channel') as [cache|] eqn:Hc.
    - apply map_lookup_filter_Some. split; [exact Hc | exact Hp].
    - apply map_lookup_filter_None. left. exact Hc. }
  unfold invalidateCache, truthy.
  destruct channelId as [channel|]; [destruct (String.eqb channel "") eqn:He|];
    cbn [negb].
  - split; [reflexivity|]. split; [exact Hall | exact Hother].
  - unfold or_string. rewrite He. split; [reflexivity|]. split; [split|].
    + unfold hasCachedPayload. cbn [withPayloadCache payloadCache].
      apply bool_decide_eq_false. rewrite lookup_delete_eq. intros [? Hs]. discriminate.
    + intros key Hne. cbn [withPayloadCache payloadCache].
      apply lookup_delete_ne. congruence.
    + intros spaceId' channel' Hfree Hfree' Hne. cbn [withPayloadCache payloadCache].
      apply lookup_delete_ne. intros Heq.
      unfold getCacheKey in Heq. apply append_colon_inj in Heq; [|assumption..].
      destruct Heq as [Heq _]. congruence.
  - split; [reflexivity|]. split; [exact Hall | exact Hother].
Qed.
End InvalidateFacts.

(** ** Answering a sync request *)

Section InfoFacts.
Variable sha256 : list Z -> list Z.
Context {St : Type} `{StorageAdapter St}.

Lemma sameHash_true (a b : option string) : sameHash a b = true <-> a = b.
Proof.
  destruct a as [x|], b as [y|]; simpl; try (split; congruence).
  rewrite String.eqb_eq. split; congruence.
Qed.

Lemma size_zero {K V : Type} (m : list (K * V)) : (JsMap.size m =? 0) = true <-> m = [].
Proof.
  unfold JsMap.size. rewrite Z.eqb_eq. destruct m; simpl; split; try congruence; lia.
Qed.

Ltac use_bool F :=
  let Fa := fresh "Fa" in
  let Fb := fresh "Fb" in
  destruct F as [Fa Fb]; try specialize (Fa eq_refl).

(** [buildSyncInfo] answers with its own summary and the given inbox, or
    not at all. It answers exactly when the cache holds a message or a
    member and either the manifest hashes differ, or we count more members,
    or the member counts differ and we have more, newer or older messages:
    a different manifest hash is enough, however little we hold. *)
Theorem buildSyncInfo_answers spaceId channelId inboxAddress theirSummary
    (svc svc' : SyncService St) answer :
  buildSyncInfo sha256 spaceId channelId inboxAddress theirSummary svc = (Ok answer, svc') ->
  exists cache,
    payloadCache svc' !! getCacheKey spaceId channelId = Some cache /\
    (forall info,
       answer = Some info ->
       info = {| sinf_inboxAddress := inboxAddress; sinf_summary := getSummary cache |}) /\
    (is_Some answer <->
     (messageMap cache <> [] \/ memberMap cache <> []) /\
     (sum_manifestHash theirSummary <> Some (getManifestHash cache) \/
      sum_memberCount (getSummary cache) > sum_memberCount theirSummary \/
      (sum_memberCount (getSummary cache) <> sum_memberCount theirSummary /\
       (sum_messageCount (getSummary cache) > sum_messageCount theirSummary \/
        sum_newestMessageTimestamp (getSummary cache) >
          sum_newestMessageTimestamp theirSummary \/
        ltNumbers (sum_oldestMessageTimestamp (getSummary cache))
          (sum_oldestMessageTimestamp theirSummary) = true)))).
Proof.
  unfold buildSyncInfo, bind.
  destruct (getPayloadCache sha256 spaceId channelId svc) as [[cache|e] svc1] eqn:Hget;
    [|discriminate].
  apply getPayloadCache_ok in Hget as (Hc & _).
  cbv zeta. intros Hrun. exists cache.
  assert (Hsvc : svc' = svc1).
  { revert Hrun. repeat match goal with |- context [if ?c then _ else _] => destruct c end;
      unfold ret; intros [= _ <-]; reflexivity. }
  subst svc1. split; [exact Hc|].
  pose proof (size_zero (messageMap cache)) as F1.
  pose proof (size_zero (memberMap cache)) as F2.
  assert (F3 : sameHash (Some (getManifestHash cache)) (sum_manifestHash theirSummary)
               = true <-> sum_manifestHash theirSummary = Some (getManifestHash cache)).
  { rewrite sameHash_true. split; congruence. }
  pose proof (Z.eqb_eq (sum_memberCount (getSummary cache))
                (sum_memberCount theirSummary)) as F4.
  assert (Hgt : forall a b, (a >? b) = true <-> a > b)
    by (intros a b; rewrite Z.gtb_lt; lia).
  pose proof (Hgt (sum_messageCount (getSummary cache))
                (sum_messageCount theirSummary)) as F5.
  pose proof (Hgt (sum_memberCount (getSummary cache))
                (sum_memberCount theirSummary)) as F6.
  pose proof (Hgt (sum_newestMessageTimestamp (getSummary cache))
                (sum_newestMessageTimestamp theirSummary)) as F7.
  assert (Hmore : sum_memberCount (getSummary cache) > sum_memberCount theirSummary ->
                  sum_memberCount (getSummary cache) = sum_memberCount theirSummary ->
                  False) by lia.
  assert (Htrue : true = true) by reflexivity.
  assert (Hfalse : false = true -> False) by discriminate.
  clear Hgt. revert Hrun.
  change (sum_manifestHash (getSummary cache)) with (Some (getManifestHash cache)).
  destruct (JsMap.size (messageMap cache) =? 0);
    destruct (JsMap.size (memberMap cache) =? 0);
    destruct (sameHash (Some (getManifestHash cache)) (sum_manifestHash theirSummary));
    destruct (sum_memberCount (getSummary cache) =? sum_memberCount theirSummary);
    destruct (sum_messageCount (getSummary cache) >? sum_messageCount theirSummary);
    destruct (sum_memberCount (getSummary cache) >? sum_memberCount theirSummary);
    destruct (sum_newestMessageTimestamp (getSummary cache) >?
              sum_newestMessageTimestamp theirSummary);
    destruct (ltNumbers (sum_oldestMessageTimestamp (getSummary cache))
                (sum_oldestMessageTimestamp theirSummary));
    cbn [andb negb]; unfold ret; intros [= <-];
    use_bool F1; use_bool F2; use_bool F3; use_bool F4; use_bool F5; use_bool F6;
    use_bool F7;
    (split; [intros info Hinfo; first [discriminate | injection Hinfo as <-; reflexivity]|]);
    (split;
     [ intros [? Hs]; first [discriminate | clear Hs; tauto]
     | intros Hwhy; first [eexists; reflexivity | exfalso; tauto] ]).
Qed.
End InfoFacts.

(** The sample service has two messages and a member; the peer has
    nothing. *)
Lemma buildSyncInfo_answers_witness :
  let info :=
    {| sinf_inboxAddress := "inbox-peer"; sinf_summary := getSummary sampleLoadedCache |} in
  sampleInfoRun = (Ok (Some info), snd sampleInfoRun) /\
  exists cache,
    payloadCache (snd sampleInfoRun) !! getCacheKey "space-1" "channel-1" = Some cache /\
    info = {| sinf_inboxAddress := "inbox-peer"; sinf_summary := getSummary cache |}.
Proof.
  intros info.
  assert (Hrun : sampleInfoRun = (Ok (Some info), snd sampleInfoRun))
    by (vm_compute; reflexivity).
  split; [exact Hrun|].
  destruct (buildSyncInfo_answers sampleSha256 "space-1" "channel-1" "inbox-peer"
              emptySummary sampleService (snd sampleInfoRun) (Some info) Hrun)
    as (cache & Hc & Hinfo & _).
  exists cache. split; [exact Hc | apply Hinfo; reflexivity].
Defined.

(** The keys of the sample space and channel. *)
Lemma getCacheKey_injective_witness :
  colonFree "space-1" = true /\
  getCacheKey "space-1" "channel-1" = getCacheKey "space-1" "channel-1" /\
  "space-1" = "space-1" /\ "channel-1" = "channel-1".
Proof.
  split; [reflexivity|]. split; [reflexivity|].
  exact (getCacheKey_injective "space-1" "space-1" "channel-1" "channel-1"
           eq_refl eq_refl eq_refl).
Defined.

(** With a colon in a space ID two channels can share a key. *)
Lemma getCacheKey_colon_collision : getCacheKey "a:b" "c" = getCacheKey "a" "b:c".
Proof. reflexivity. Qed.

(** ** The order of the members of a reaction *)

Lemma ascii_compare_N (a b : ascii) :
  Ascii.compare a b = N.compare (N_of_ascii a) (N_of_ascii b).
Proof. reflexivity. Qed.

Lemma string_compare_cons (a b : ascii) (s t : string) :
  String.compare (String a s) (String b t) =
  match Ascii.compare a b with
  | Eq => String.compare s t
  | c => c
  end.
Proof. reflexivity. Qed.

Lemma string_compare_refl (s : string) : String.compare s s = Eq.
Proof.
  induction s as [|a s IH]; [reflexivity|].
  rewrite string_compare_cons, ascii_compare_N, N.compare_refl. exact IH.
Qed.

Lemma string_compare_trans (s t u : string) :
  String.compare s t <> Gt -> String.compare t u <> Gt -> String.compare s u <> Gt.
Proof.
  revert t u. induction s as [|a s IH]; intros [|b t] [|c u]; try (simpl; congruence).
  rewrite !string_compare_cons, !ascii_compare_N.
  destruct (N.compare_spec (N_of_ascii a) (N_of_ascii b)) as [Hab|Hab|Hab];
    destruct (N.compare_spec (N_of_ascii b) (N_of_ascii c)) as [Hbc|Hbc|Hbc];
    destruct (N.compare_spec (N_of_ascii a) (N_of_ascii c)) as [Hac|Hac|Hac];
    try congruence; try lia.
  apply IH.
Qed.

Lemma defaultCompare_le (a b : string) :
  defaultCompare a b <= 0 <-> String.compare a b <> Gt.
Proof. unfold defaultCompare. destruct (String.compare a b); split; try congruence; lia. Qed.

Lemma defaultCompare_total (a b : string) :
  defaultCompare a b > 0 -> defaultCompare b a <= 0.
Proof.
  unfold defaultCompare. rewrite (String.compare_antisym b a).
  destruct (String.compare a b); simpl; lia.
Qed.

Lemma defaultCompare_trans (a b c : string) :
  defaultCompare a b <= 0 -> defaultCompare b c <= 0 -> defaultCompare a c <= 0.
Proof. rewrite !defaultCompare_le. apply string_compare_trans. Qed.

Lemma defaultCompare_antisym (a b : string) :
  defaultCompare a b <= 0 -> defaultCompare b a <= 0 -> a = b.
Proof.
  unfold defaultCompare. rewrite (String.compare_antisym b a).
  destruct (String.compare a b) eqn:Hc; simpl; try lia.
  intros _ _. apply String.compare_eq_iff. exact Hc.
Qed.

Lemma sorted_unique {A : Type} (R : A -> A -> Prop) (l l' : list A) :
  (forall a, R a a) -> (forall a b, R a b -> R b a -> a = b) ->
  StronglySorted R l -> StronglySorted R l' -> Permutation l l' -> l = l'.
Proof.
  intros Hrefl Hanti. revert l'.
  induction l as [|x l IH]; intros l' Hl Hl' Hperm.
  - apply Permutation_nil in Hperm. congruence.
  - destruct l' as [|y l'].
    { apply Permutation_sym, Permutation_nil in Hperm. discriminate. }
    apply StronglySorted_inv in Hl as [Hl Hx]. apply StronglySorted_inv in Hl' as [Hl' Hy].
    rewrite List.Forall_forall in Hx, Hy.
    assert (Hxy : x = y).
    { assert (Hin : In x (y :: l')) by (apply (Permutation_in _ Hperm); left; reflexivity).
      assert (Hin' : In y (x :: l))
        by (apply (Permutation_in _ (Permutation_sym Hperm)); left; reflexivity).
      destruct Hin as [Heq|Hin]; [congruence|].
      destruct Hin' as [Heq|Hin']; [congruence|].
      apply Hanti; [apply Hx, Hin' | apply Hy, Hin]. }
    subst y. f_equal. apply IH; [assumption..|].
    apply Permutation_cons_inv in Hperm. exact Hperm.
Qed.

Lemma sort_members_perm (ids ids' : list string) :
  Permutation ids ids' -> sortBy defaultCompare ids = sortBy defaultCompare ids'.
Proof.
  intros Hperm.
  apply (sorted_unique (fun a b => defaultCompare a b <= 0)).
  - intros a. unfold defaultCompare. rewrite string_compare_refl. lia.
  - apply defaultCompare_antisym.
  - apply sortBy_sorted; [apply defaultCompare_total | apply defaultCompare_trans].
  - apply sortBy_sorted; [apply defaultCompare_total | apply defaultCompare_trans].
  - rewrite <- (sortBy_perm defaultCompare ids), <- (sortBy_perm defaultCompare ids').
    exact Hperm.
Qed.

Section ReactionDigestFacts.
Variable sha256 : list Z -> list Z.

(** The digests of the reactions of a message do not depend on the order in
    which a reaction lists its members: there is one digest for each
    reaction, in the order of the reactions, and reactions that differ in the
    order of their members only have the same digests. *)
Theorem createReactionDigest_member_order (messageId : string)
    (reactions reactions' : list Reaction) :
  Forall2 sameReaction reactions reactions' ->
  createReactionDigest sha256 messageId (Some reactions) =
    createReactionDigest sha256 messageId (Some reactions') /\
  map rd_emojiId (createReactionDigest sha256 messageId (Some reactions)) =
    map r_emojiId reactions.
Proof.
  intros Hsame.
  assert (Hmap : forall rs,
            createReactionDigest sha256 messageId (Some rs) =
            map (fun r =>
                   {| rd_messageId := messageId; rd_emojiId := r_emojiId r;
                      rd_count := r_count r;
                      rd_membersHash :=
                        computeHash sha256
                          (join "," (sortBy defaultCompare (r_memberIds r))) |}) rs).
  { intros [|r rs]; reflexivity. }
  rewrite !Hmap. split.
  - induction Hsame as [|r r' rs rs' (Hemoji & Hcount & Hperm) _ IH]; [reflexivity|].
    cbn [map]. rewrite IH, Hemoji, Hcount, (sort_members_perm _ _ Hperm). reflexivity.
  - rewrite map_map. reflexivity.
Qed.
End ReactionDigestFacts.

(** A reaction of two members, listed in the two orders. *)
Lemma createReactionDigest_member_order_witness :
  Forall2 sameReaction [sampleReaction ["addr1"; "addr2"]]
    [sampleReaction ["addr2"; "addr1"]] /\
  createReactionDigest sampleSha256 "msg1" (Some [sampleReaction ["addr1"; "addr2"]]) =
  createReactionDigest sampleSha256 "msg1" (Some [sampleReaction ["addr2"; "addr1"]]).
Proof.
  assert (Hsame : Forall2 sameReaction [sampleReaction ["addr1"; "addr2"]]
                    [sampleReaction ["addr2"; "addr1"]]).
  { constructor; [|constructor]. split; [reflexivity|]. split; [reflexivity|].
    apply perm_swap. }
  split; [exact Hsame|].
  exact (proj1 (createReactionDigest_member_order sampleSha256 "msg1" _ _ Hsame)).
Defined.

(** ** Hexadecimal strings *)

Lemma hexPair_all_bytes :
  forallb hexPairReadsBack (map Z.of_nat (seq 0 256)) = true.
Proof. vm_compute. reflexivity. Qed.

Lemma hexPair_reads_back (b : Z) :
  0 <= b < 256 ->
  exists c1 c2,
    hexPair b = String c1 (String c2 EmptyString) /\
    parseInt16 [c1; c2] = Some b /\ c2 <> "x"%char.
Proof.
  intros Hb.
  assert (Hin : In b (map Z.of_nat (seq 0 256))).
  { apply in_map_iff. exists (Z.to_nat b). split; [lia|]. apply in_seq. lia. }
  pose proof (proj1 (forallb_forall _ _) hexPair_all_bytes b Hin) as Hcheck.
  unfold hexPairReadsBack in Hcheck.
  destruct (list_ascii_of_string (hexPair b)) as [|c1 [|c2 [|c3 l]]] eqn:Hl;
    try discriminate.
  destruct (parseInt16 [c1; c2]) as [n|] eqn:Hparse; [|discriminate].
  apply andb_true_iff in Hcheck as [Hn Hx]. apply Z.eqb_eq in Hn. subst n.
  exists c1, c2. split; [|split; [exact Hparse|]].
  - rewrite <- (string_of_list_ascii_of_string (hexPair b)), Hl. reflexivity.
  - intros ->. rewrite Ascii.eqb_refl in Hx. discriminate.
Qed.

Lemma bytesToHex_cons (b : Z) (bytes : list Z) :
  bytesToHex (b :: bytes) = hexPair b +:+ bytesToHex bytes.
Proof.
  unfold bytesToHex, join. cbn [map String.concat]. fold (hexPair b).
  destruct (map (fun b0 => padStart 2 "0"%char (toString16 b0)) bytes) as [|s l] eqn:Hm.
  - cbn [String.concat]. induction (hexPair b) as [|c s IH]; [reflexivity|].
    change (String c s = String c (s +:+ "")). f_equal. exact IH.
  - reflexivity.
Qed.

Lemma bytesToHex_pairs (bytes : list Z) :
  Forall (fun b => 0 <= b < 256) bytes ->
  map parseInt16 (pairsOf (list_ascii_of_string (bytesToHex bytes))) = map Some bytes /\
  String.length (bytesToHex bytes) = (2 * length bytes)%nat.
Proof.
  induction 1 as [|b bytes Hb _ [IH IHlen]]; [split; reflexivity|].
  destruct (hexPair_reads_back b Hb) as (c1 & c2 & Hpair & Hparse & _).
  rewrite bytesToHex_cons, Hpair.
  change (String c1 (String c2 "") +:+ bytesToHex bytes)
    with (String c1 (String c2 (bytesToHex bytes))).
  cbn [list_ascii_of_string pairsOf map String.length].
  rewrite Hparse, IH, IHlen. split; [reflexivity | simpl; lia].
Qed.

(** [hexToBytes] reads back what [bytesToHex] writes: for bytes between 0
    and 255 the text has two characters for each byte, and converting it
    back gives the bytes, none of them [NaN]. *)
Theorem hexToBytes_bytesToHex (bytes : list Z) :
  Forall (fun b => 0 <= b < 256) bytes ->
  hexToBytes (bytesToHex bytes) = map Some bytes /\
  String.length (bytesToHex bytes) = (2 * length bytes)%nat.
Proof.
  intros Hbytes.
  destruct (bytesToHex_pairs bytes Hbytes) as [Hpairs Hlen]. split; [|exact Hlen].
  unfold hexToBytes. cbv zeta.
  destruct Hbytes as [|b bytes Hb Hrest]; [reflexivity|].
  destruct (hexPair_reads_back b Hb) as (c1 & c2 & Hpair & _ & Hx).
  rewrite bytesToHex_cons, Hpair in Hpairs |- *.
  change (String c1 (String c2 "") +:+ bytesToHex bytes)
    with (String c1 (String c2 (bytesToHex bytes))) in Hpairs |- *.
  cbn [list_ascii_of_string] in Hpairs |- *.
  destruct c1 as [[] [] [] [] [] [] [] []]; try exact Hpairs.
  destruct c2 as [[] [] [] [] [] [] [] []]; try exact Hpairs.
  congruence.
Qed.

Section ManifestHashText.
Variable sha256 : list Z -> list Z.

(** The manifest hash of a summary is a text of 64 characters, and it tells
    the accumulators of two caches apart: the texts are equal only if the
    32 bytes are. *)
Theorem getManifestHash_hex (cache cache' : SyncPayloadCache) :
  reachable sha256 cache -> reachable sha256 cache' ->
  String.length (getManifestHash cache) = 64%nat /\
  (getManifestHash cache = getManifestHash cache' <->
   manifestHashBytes cache = manifestHashBytes cache').
Proof.
  intros Hr Hr'. apply reachable_bytes32 in Hr as [Hlen Hrange].
  apply reachable_bytes32 in Hr' as [_ Hrange'].
  unfold getManifestHash.
  destruct (bytesToHex_pairs _ Hrange) as [Hpairs Htext].
  destruct (bytesToHex_pairs _ Hrange') as [Hpairs' _].
  split; [rewrite Htext, Hlen; reflexivity|]. split; [|congruence].
  intros Heq. rewrite Heq, Hpairs' in Hpairs.
  clear - Hpairs. revert Hpairs. generalize (manifestHashBytes cache).
  induction (manifestHashBytes cache') as [|b l IH]; intros [|b' l'] Hmap;
    try discriminate; [reflexivity|].
  injection Hmap as -> Hmap. f_equal. apply IH. exact Hmap.
Qed.
End ManifestHashText.

(** Three bytes, the least and the greatest among them. *)
Lemma hexToBytes_bytesToHex_witness :
  Forall (fun b => 0 <= b < 256) [0; 171; 255] /\
  bytesToHex [0; 171; 255] = "00abff" /\
  hexToBytes "00abff" = [Some 0; Some 171; Some 255].
Proof.
  assert (Hbytes : Forall (fun b => 0 <= b < 256) [0; 171; 255])
    by (repeat constructor; lia).
  split; [exact Hbytes|]. split; [vm_compute; reflexivity|].
  exact (proj1 (hexToBytes_bytesToHex [0; 171; 255] Hbytes)).
Defined.

(** The cache of one message and the cache of two. *)
Lemma getManifestHash_hex_witness :
  reachable sampleSha256 sampleCache /\ reachable sampleSha256 sampleLoadedCache /\
  String.length (getManifestHash sampleCache) = 64%nat /\
  (getManifestHash sampleCache = getManifestHash sampleLoadedCache <->
   manifestHashBytes sampleCache = manifestHashBytes sampleLoadedCache).
Proof.
  assert (Hr : reachable sampleSha256 sampleCache) by apply reachable_build.
  assert (Hr' : reachable sampleSha256 sampleLoadedCache) by apply reachable_build.
  split; [exact Hr|]. split; [exact Hr'|].
  exact (getManifestHash_hex sampleSha256 sampleCache sampleLoadedCache Hr Hr').
Defined.

(** ** Merging reactions *)

Section UpdateFirst.
Context {A : Type} (p : A -> bool) (f : A -> A).
Hypothesis p_f : forall x, p x = true -> p (f x) = true.

Lemma find_updateFirst (l : list A) :
  List.find p (updateFirst p f l) = option_map f (List.find p l).
Proof.
  induction l as [|x l IH]; [reflexivity|]. simpl.
  destruct (p x) eqn:Hx; simpl; [rewrite (p_f x Hx); reflexivity|].
  rewrite Hx. exact IH.
Qed.

Lemma filter_updateFirst (l : list A) :
  List.filter (fun x => negb (p x)) (updateFirst p f l) =
  List.filter (fun x => negb (p x)) l.
Proof.
  induction l as [|x l IH]; [reflexivity|]. simpl.
  destruct (p x) eqn:Hx; simpl; [rewrite (p_f x Hx); reflexivity|].
  rewrite Hx. simpl. f_equal. exact IH.
Qed.

Lemma updateFirst_twice (g : A -> A) (l : list A) :
  updateFirst p g (updateFirst p f l) = updateFirst p (fun x => g (f x)) l.
Proof.
  induction l as [|x l IH]; [reflexivity|]. simpl.
  destruct (p x) eqn:Hx; simpl; [rewrite (p_f x Hx); reflexivity|].
  rewrite Hx. f_equal. exact IH.
Qed.
End UpdateFirst.

Lemma updateFirst_ext {A : Type} (p : A -> bool) (f g : A -> A) (l : list A) :
  (forall x, f x = g x) -> updateFirst p f l = updateFirst p g l.
Proof.
  intros Hfg. induction l as [|x l IH]; [reflexivity|]. simpl.
  rewrite Hfg, IH. reflexivity.
Qed.

Lemma find_snoc_fresh {A : Type} (p : A -> bool) (l : list A) x :
  List.find p l = None -> p x = true -> List.find p (l ++ [x]) = Some x.
Proof.
  intros Hnone Hx. induction l as [|y l IH]; simpl in *; [rewrite Hx; reflexivity|].
  destruct (p y); [discriminate | apply IH, Hnone].
Qed.

Lemma updateFirst_snoc_fresh {A : Type} (p : A -> bool) (f : A -> A) (l : list A) x :
  List.find p l = None -> p x = true -> updateFirst p f (l ++ [x]) = l ++ [f x].
Proof.
  intros Hnone Hx. induction l as [|y l IH]; simpl in *; [rewrite Hx; reflexivity|].
  destruct (p y); [discriminate|]. f_equal. apply IH, Hnone.
Qed.

Lemma filter_find_none {A : Type} (p : A -> bool) (l : list A) :
  List.find p l = None -> List.filter (fun x => negb (p x)) l = l.
Proof.
  induction l as [|y l IH]; simpl; [reflexivity|].
  destruct (p y); [discriminate|]. simpl. intros Hnone. f_equal. apply IH, Hnone.
Qed.

Lemma find_filter_negb {A : Type} (p : A -> bool) (l : list A) :
  List.find p (List.filter (fun x => negb (p x)) l) = None.
Proof.
  induction l as [|y l IH]; simpl; [reflexivity|].
  destruct (p y) eqn:Hy; simpl; [exact IH|]. rewrite Hy. exact IH.
Qed.

Lemma filter_negb_twice {A : Type} (p : A -> bool) (l : list A) :
  List.filter (fun x => negb (p x)) (List.filter (fun x => negb (p x)) l) =
  List.filter (fun x => negb (p x)) l.
Proof.
  induction l as [|y l IH]; simpl; [reflexivity|].
  destruct (p y) eqn:Hy; simpl; [exact IH|]. rewrite Hy. simpl. f_equal. exact IH.
Qed.

Lemma unique_fold_spec (l seen : list string) :
  NoDup seen ->
  NoDup (fold_left (fun seen s => if includes seen s then seen else push seen s) l seen) /\
  forall x,
    In x (fold_left (fun seen s => if includes seen s then seen else push seen s) l seen)
    <-> In x seen \/ In x l.
Proof.
  revert seen. induction l as [|s l IH]; intros seen Hnd; simpl; [split; [exact Hnd | tauto]|].
  destruct (includes seen s) eqn:Hs.
  - destruct (IH seen Hnd) as [Hnd' Hin]. split; [exact Hnd'|].
    intros x. rewrite Hin. apply includes_true in Hs.
    split; [tauto|]. intros [Hx|[<-|Hx]]; auto.
  - apply includes_false in Hs.
    assert (Hnd1 : NoDup (push seen s)).
    { unfold push. apply NoDup_app; [exact Hnd | repeat constructor; intros [] |].
      intros x Hx [<-|[]]. exact (Hs Hx). }
    destruct (IH (push seen s) Hnd1) as [Hnd' Hin]. split; [exact Hnd'|].
    intros x. rewrite Hin. unfold push. rewrite in_app_iff. simpl. tauto.
Qed.

Lemma unique_fold_absorb (l seen : list string) :
  (forall x, In x l -> In x seen) ->
  fold_left (fun seen s => if includes seen s then seen else push seen s) l seen = seen.
Proof.
  induction l as [|s l IH]; intros Hsub; simpl; [reflexivity|].
  rewrite (proj2 (includes_true seen s)) by (apply Hsub; left; reflexivity).
  apply IH. intros x Hx. apply Hsub. right. exact Hx.
Qed.

Lemma unique_fold_fresh (l seen : list string) :
  NoDup (seen ++ l) ->
  fold_left (fun seen s => if includes seen s then seen else push seen s) l seen = seen ++ l.
Proof.
  revert seen. induction l as [|s l IH]; intros seen Hnd; simpl; [rewrite app_nil_r; reflexivity|].
  assert (Hs : includes seen s = false).
  { apply includes_false. intros Hin. apply NoDup_remove_2 in Hnd. apply Hnd.
    apply in_app_iff. left. exact Hin. }
  rewrite Hs. unfold push. rewrite IH; rewrite <- app_assoc; [reflexivity | exact Hnd].
Qed.

Lemma uniqueStrings_spec (l : list string) :
  NoDup (uniqueStrings l) /\ forall x, In x (uniqueStrings l) <-> In x l.
Proof.
  destruct (unique_fold_spec l [] (NoDup_nil _)) as [Hnd Hin]. split; [exact Hnd|].
  intros x. unfold uniqueStrings. rewrite Hin. simpl. tauto.
Qed.

Lemma uniqueStrings_absorb (l extra : list string) :
  uniqueStrings (uniqueStrings (l ++ extra) ++ extra) = uniqueStrings (l ++ extra).
Proof.
  destruct (uniqueStrings_spec (l ++ extra)) as [Hnd Hin].
  unfold uniqueStrings at 1. rewrite fold_left_app.
  fold (uniqueStrings (uniqueStrings (l ++ extra))).
  assert (Hid : uniqueStrings (uniqueStrings (l ++ extra)) = uniqueStrings (l ++ extra)).
  { unfold uniqueStrings at 1. rewrite unique_fold_fresh; [reflexivity | exact Hnd]. }
  rewrite Hid. apply unique_fold_absorb. intros x Hx. apply Hin, in_app_iff. right. exact Hx.
Qed.

Lemma withMembers_twice (r : Reaction) (ids ids' : list string) :
  withMembers (withMembers r ids) ids' = withMembers r ids'.
Proof. reflexivity. Qed.

(** What [applyReactionDelta] makes of an addition: afterwards the first
    reaction of the message with that emoji lists the members of the
    addition and, if there was such a reaction, those it had, each once; its
    count is the number of its members; the reactions with another emoji and
    the other fields of the message are as before. An addition that lists
    no member twice changes nothing when it is applied again. *)
Theorem mergeAddition_merges (spaceId : string) (message : Message)
    (addition : ReactionChange) :
  let merged := mergeAddition spaceId message addition in
  (exists reaction,
     reactionFor merged addition = Some reaction /\
     r_emojiId reaction = rc_emojiId addition /\
     r_count reaction = Z.of_nat (length (r_memberIds reaction)) /\
     (forall id,
        In id (r_memberIds reaction) <->
        (exists old, reactionFor message addition = Some old /\ In id (r_memberIds old)) \/
        In id (rc_memberIds addition)) /\
     (is_Some (reactionFor message addition) -> NoDup (r_memberIds reaction))) /\
  otherReactions merged addition = otherReactions message addition /\
  withReactions merged None = withReactions message None /\
  (NoDup (rc_memberIds addition) -> mergeAddition spaceId merged addition = merged).
Proof.
  intros merged. subst merged. unfold reactionFor, otherReactions, mergeAddition.
  set (reactions := default [] (m_reactions message)).
  set (sameEmoji := fun r => String.eqb (r_emojiId r) (rc_emojiId addition)).
  cbv zeta. fold sameEmoji.
  change (fun r => negb (String.eqb (r_emojiId r) (rc_emojiId addition)))
    with (fun r => negb (sameEmoji r)).
  destruct (List.find sameEmoji reactions) as [existing|] eqn:Hfind.
  - set (allMembers := uniqueStrings (r_memberIds existing ++ rc_memberIds addition)).
    assert (Hkeep : forall x, sameEmoji x = true ->
                              sameEmoji (withMembers x allMembers) = true)
      by (intros x Hx; exact Hx).
    cbn [m_reactions withReactions default from_option id].
    rewrite (find_updateFirst sameEmoji _ Hkeep), Hfind. cbn [option_map].
    rewrite (filter_updateFirst sameEmoji _ Hkeep).
    destruct (uniqueStrings_spec (r_memberIds existing ++ rc_memberIds addition))
      as [Hnd Hin].
    split; [|split; [reflexivity|split; [reflexivity|]]].
    + exists (withMembers existing allMembers).
      split; [reflexivity|]. split.
      { apply find_some in Hfind as [_ He]. apply String.eqb_eq in He. exact He. }
      split; [reflexivity|]. split; [|intros _; exact Hnd].
      intros id. cbn [withMembers r_memberIds]. subst allMembers. rewrite Hin, in_app_iff.
      split; intros [Hid|Hid]; auto.
      * left. exists existing. auto.
      * destruct Hid as (old & [= <-] & Hid). auto.
    + intros _. rewrite (updateFirst_twice sameEmoji _ Hkeep).
      f_equal. f_equal. apply updateFirst_ext. intros x.
      rewrite withMembers_twice. cbn [withMembers r_memberIds].
      subst allMembers. rewrite uniqueStrings_absorb. reflexivity.
  - set (fresh := {| r_emojiId := rc_emojiId addition; r_spaceId := spaceId;
                     r_emojiName := rc_emojiId addition;
                     r_count := Z.of_nat (length (rc_memberIds addition));
                     r_memberIds := rc_memberIds addition |}).
    assert (Hfresh : sameEmoji fresh = true) by apply String.eqb_refl.
    cbn [m_reactions withReactions default from_option id]. unfold push.
    rewrite (find_snoc_fresh sameEmoji reactions fresh Hfind Hfresh).
    split; [|split; [|split; [reflexivity|]]].
    + exists fresh. split; [reflexivity|]. split; [reflexivity|]. split; [reflexivity|].
      split; [|intros [? Hs]; discriminate].
      intros id. cbn [fresh r_memberIds]. split; [auto|].
      intros [(old & Hold & _)|Hid]; [discriminate | exact Hid].
    + rewrite List.filter_app. cbn [List.filter]. rewrite Hfresh. cbn [negb].
      apply app_nil_r.
    + intros Hnd. f_equal. f_equal.
      rewrite (updateFirst_snoc_fresh sameEmoji _ reactions fresh Hfind Hfresh).
      f_equal. f_equal. unfold withMembers. cbn [fresh r_memberIds r_emojiId r_spaceId
                                                 r_emojiName].
      assert (Hunique : uniqueStrings (rc_memberIds addition ++ rc_memberIds addition) =
                        rc_memberIds addition).
      { unfold uniqueStrings. rewrite fold_left_app.
        rewrite (unique_fold_fresh (rc_memberIds addition) []) by exact Hnd.
        apply unique_fold_absorb. auto. }
      rewrite Hunique. reflexivity.
Qed.

(** An addition that lists a member twice, applied twice: the count goes
    from 2 to 1. *)
Lemma mergeAddition_double_member :
  let once := mergeAddition "space-1" (sampleMessage "msg1" 1000) sampleDoubleAddition in
  let twice := mergeAddition "space-1" once sampleDoubleAddition in
  (r_count <$> reactionFor once sampleDoubleAddition) = Some 2 /\
  (r_count <$> reactionFor twice sampleDoubleAddition) = Some 1.
Proof. split; reflexivity. Qed.

(** What [applyReactionDelta] makes of a removal: without a reaction with
    that emoji the message stays as it is; else the members of the removal
    leave the first reaction with that emoji, whose count is the number of
    members left, and if none is left no reaction with that emoji remains.
    The reactions with another emoji and the other fields of the message are
    as before, and applying the removal again changes nothing. *)
Theorem mergeRemoval_removes (message : Message) (removal : ReactionChange) :
  let merged := mergeRemoval message removal in
  match reactionFor message removal with
  | None => merged = message
  | Some old =>
      let remaining :=
        List.filter (fun id => negb (includes (rc_memberIds removal) id))
          (r_memberIds old) in
      match remaining with
      | [] => reactionFor merged removal = None
      | _ :: _ =>
          exists reaction,
            reactionFor merged removal = Some reaction /\
            r_emojiId reaction = rc_emojiId removal /\
            r_memberIds reaction = remaining /\
            r_count reaction = Z.of_nat (length remaining)
      end
  end /\
  otherReactions merged removal = otherReactions message removal /\
  withReactions merged None = withReactions message None /\
  mergeRemoval merged removal = merged.
Proof.
  intros merged. subst merged. unfold reactionFor, otherReactions, mergeRemoval.
  set (reactions := default [] (m_reactions message)).
  set (sameEmoji := fun r => String.eqb (r_emojiId r) (rc_emojiId removal)).
  cbv zeta. fold sameEmoji.
  change (fun r => negb (String.eqb (r_emojiId r) (rc_emojiId removal)))
    with (fun r => negb (sameEmoji r)).
  destruct (List.find sameEmoji reactions) as [old|] eqn:Hfind.
  2:{ fold reactions. rewrite Hfind. repeat split. }
  set (remaining := List.filter (fun id => negb (includes (rc_memberIds removal) id))
                      (r_memberIds old)).
  assert (Hkeep : forall x, sameEmoji x = true -> sameEmoji (withMembers x remaining) = true)
    by (intros x Hx; exact Hx).
  destruct remaining as [|member members] eqn:Hrem; cbn [length Nat.eqb];
    cbn [m_reactions withReactions default from_option id].
  - rewrite find_filter_negb, filter_negb_twice, (filter_updateFirst sameEmoji _ Hkeep).
    repeat split.
  - rewrite (find_updateFirst sameEmoji _ Hkeep), Hfind. cbn [option_map].
    rewrite (filter_updateFirst sameEmoji _ Hkeep).
    split; [|split; [reflexivity|split; [reflexivity|]]].
    + exists (withMembers old (member :: members)). split; [reflexivity|].
      split; [|split; reflexivity].
      apply find_some in Hfind as [_ He]. apply String.eqb_eq in He. exact He.
    + cbn [withMembers r_memberIds].
      assert (Hagain : List.filter (fun id0 => negb (includes (rc_memberIds removal) id0))
                         (member :: members) = member :: members).
      { rewrite <- Hrem. subst remaining. clear.
        induction (r_memberIds old) as [|x l IH]; simpl; [reflexivity|].
        destruct (negb (includes (rc_memberIds removal) x)) eqn:Hx; simpl;
          [rewrite Hx, IH; reflexivity | exact IH]. }
      rewrite Hagain. cbn [length Nat.eqb].
      rewrite (updateFirst_twice sameEmoji _ Hkeep). reflexivity.
Qed.

(** ** Timestamps as bytes *)

(** [int64ToBytes] gives eight bytes that denote, the high byte first, the
    number modulo 2^64; so it tells apart any two numbers of the signed
    64-bit range. *)
Theorem int64ToBytes_big_endian (num : Z) :
  length (int64ToBytes num) = 8%nat /\
  Forall (fun b => 0 <= b < 256) (int64ToBytes num) /\
  bigEndian (int64ToBytes num) = num mod 2 ^ 64 /\
  (forall num',
     - 2 ^ 63 <= num < 2 ^ 63 -> - 2 ^ 63 <= num' < 2 ^ 63 ->
     int64ToBytes num = int64ToBytes num' -> num = num').
Proof.
  assert (Hbyte : forall x k, 0 <= k ->
                              Z.land (Z.shiftr x k) 255 = (x / 2 ^ k) mod 256).
  { intros x k Hk. rewrite Z.shiftr_div_pow2 by lia.
    change 255 with (Z.ones 8). rewrite Z.land_ones by lia. reflexivity. }
  assert (Hvalue : forall n, bigEndian (int64ToBytes n) = n mod 2 ^ 64).
  { intros n. unfold bigEndian, int64ToBytes. cbn [seq map fold_left].
    change (8 * (7 - Z.of_nat 0)) with 56. change (8 * (7 - Z.of_nat 1)) with 48.
    change (8 * (7 - Z.of_nat 2)) with 40. change (8 * (7 - Z.of_nat 3)) with 32.
    change (8 * (7 - Z.of_nat 4)) with 24. change (8 * (7 - Z.of_nat 5)) with 16.
    change (8 * (7 - Z.of_nat 6)) with 8. change (8 * (7 - Z.of_nat 7)) with 0.
    rewrite !Hbyte by lia.
    pose proof (Z.mod_pos_bound n (2 ^ 64) ltac:(lia)) as Hrange.
    generalize dependent (n mod 2 ^ 64). intros x Hrange.
    change (2 ^ 56) with 72057594037927936. change (2 ^ 48) with 281474976710656.
    change (2 ^ 40) with 1099511627776. change (2 ^ 32) with 4294967296.
    change (2 ^ 24) with 16777216. change (2 ^ 16) with 65536.
    change (2 ^ 8) with 256. change (2 ^ 0) with 1.
    change (2 ^ 64) with 18446744073709551616 in Hrange.
    Z.div_mod_to_equations. lia. }
  split; [reflexivity|]. split.
  - unfold int64ToBytes. apply Forall_map, List.Forall_forall. intros i _.
    change 255 with (Z.ones 8). rewrite Z.land_ones by lia.
    apply Z.mod_pos_bound. lia.
  - split; [apply Hvalue|].
    intros num' Hnum Hnum' Heq.
    assert (Hmod : num mod 2 ^ 64 = num' mod 2 ^ 64)
      by (rewrite <- !Hvalue, Heq; reflexivity).
    change (2 ^ 64) with 18446744073709551616 in Hmod.
    change (2 ^ 63) with 9223372036854775808 in Hnum, Hnum'.
    Z.div_mod_to_equations. lia.
Qed.
